(** * xformers: the fused backward kernel and the multi-head attention contract

    Part one ([FusedBackward]) is a shallow embedding of
    [xformers/triton/k_fused_matmul_bw.py]: the Triton kernel
    [kernel_bw_act], run program by program over its launch grid on flat
    device buffers, and the host function [fused_matmul_backward] that
    allocates the buffers, launches the kernel and finishes with dense
    matrix products.

    Part two ([Attention]) covers the contract that [tests/test_attentions.py]
    exercises.  The classes under test ([InputProjection],
    [MultiHeadDispatch], the attention variants) are not part of the
    available sources; they are modelled from the specification and every
    such definition says so. *)

From Stdlib Require Import ZArith List Lia Reals Lra Permutation.
From stdpp Require Import base option list.

(** * Python results and host-side effects *)

(** The exceptions that the modelled code can raise.  A device fault (an
    access through a pointer outside its buffer) is undefined behaviour
    on the GPU; it is reported as [IllegalMemoryAccess].
    [DimensionMismatchError] is the error kind that the specification
    gives to the attention stack. *)
Inductive error : Set :=
| AssertionError
| ZeroDivisionError
| IndexError
| ValueError
| RuntimeError
| IllegalMemoryAccess
| DimensionMismatchError.

Inductive res (A : Type) : Type :=
| Ok (a : A)
| Err (e : error).
Arguments Ok {A} a.
Arguments Err {A} e.

(** What the host function asks of the allocator and of the device, in
    program order. *)
Inductive event : Set :=
| EvContiguousCopy                                  (* grad_out.contiguous() had to copy *)
| EvEmptyLike (shp : list nat)                      (* torch.empty_like: the grad_act buffer *)
| EvZeros (shp : list nat)                          (* torch.zeros: the partial bias sums *)
| EvKernelBwAct (grid : nat * nat) (compute_d_bias : bool)   (* kernel_bw_act[grid](...) *)
| EvSum2dDim0                                       (* sum_2d_dim_0 *)
| EvMatmulTranspose                                 (* grad_out_.transpose(0, 1) @ inputs_ *)
| EvTritonMatmul.                                   (* triton.ops.matmul *)

(** A computation of the host: the events it issued, then its outcome.
    An exception keeps the events issued before it. *)
Definition host (A : Type) : Type := (list event * res A)%type.

Definition host_ret {A} (a : A) : host A := ([], Ok a).

Definition host_bind {A B} (f : A -> host B) (m : host A) : host B :=
  match m with
  | (t, Ok a) => let '(t', r) := f a in (t ++ t', r)
  | (t, Err e) => (t, Err e)
  end.

#[export] Instance host_mret : MRet host := @host_ret.
#[export] Instance host_mbind : MBind host := @host_bind.

Definition raise {A} (e : error) : host A := ([], Err e).
Definition emit (e : event) : host unit := ([e], Ok tt).
Definition lift {A} (r : res A) : host A := ([], r).
Definition py_assert (b : bool) : host unit :=
  if b then mret tt else raise AssertionError.

Definition trace {A} (m : host A) : list event := fst m.
Definition outcome {A} (m : host A) : res A := snd m.

(** An event that starts gradient computation or produces a buffer for
    it; the copy made by [contiguous()] only normalises the input. *)
Definition is_compute (e : event) : bool :=
  match e with
  | EvContiguousCopy => false
  | _ => true
  end.

(** The events of the weight gradient. *)
Definition is_weight_event (e : event) : bool :=
  match e with
  | EvMatmulTranspose => true
  | _ => false
  end.

(** The events of the bias gradient: its buffer, its reduction, and a
    launch that computes the partial sums. *)
Definition is_bias_event (e : event) : bool :=
  match e with
  | EvZeros _ | EvSum2dDim0 | EvKernelBwAct _ true => true
  | _ => false
  end.

(** The events of the activation stage: its two buffers and the launch
    of [kernel_bw_act]. *)
Definition is_activation_event (e : event) : bool :=
  match e with
  | EvEmptyLike _ | EvZeros _ | EvKernelBwAct _ _ => true
  | _ => false
  end.

(** [triple m P Q]: every event of [m] satisfies [P], and a result of
    [m] satisfies [Q]. *)
Definition triple {A} (m : host A) (P : event -> Prop) (Q : A -> Prop) : Prop :=
  Forall P (trace m) /\
  match outcome m with
  | Ok a => Q a
  | Err _ => True
  end.

(** * Triton host helpers *)

(** [triton.cdiv(x, y)] is [(x + y - 1) // y]; Python raises on [y = 0]. *)
Definition cdiv (x y : nat) : res nat :=
  if y =? 0 then Err ZeroDivisionError else Ok ((x + y - 1) / y).

(** [x % y] on Python integers, for non-negative operands. *)
Definition py_mod (x y : nat) : res nat :=
  if y =? 0 then Err ZeroDivisionError else Ok (x mod y).

(** [triton.next_power_of_2(n)]:
<<
    n -= 1; n |= n >> 1; n |= n >> 2; n |= n >> 4
    n |= n >> 8; n |= n >> 16; n += 1
>>
    on Python integers, hence on [Z]: at [n = 0] the first line gives
    [-1]. *)
Definition next_power_of_2 (n : Z) : Z :=
  let n := (n - 1)%Z in
  let n := Z.lor n (Z.shiftr n 1) in
  let n := Z.lor n (Z.shiftr n 2) in
  let n := Z.lor n (Z.shiftr n 4) in
  let n := Z.lor n (Z.shiftr n 8) in
  let n := Z.lor n (Z.shiftr n 16) in
  (n + 1)%Z.

Module FusedBackward.

(** The element type of the tensors with its zero, sum and product. *)
Class Scalar (F : Type) : Type := {
  zero : F;
  add : F -> F -> F;
  mul : F -> F -> F
}.

(** Floating-point numbers are idealised by any scalars on which the sum
    is associative with neutral element [zero]: the laws under which
    regrouping a reduction does not change its value. *)
Class ScalarLaws (F : Type) `{Scalar F} : Prop := {
  add_assoc : forall x y z : F, add x (add y z) = add (add x y) z;
  add_zero_l : forall x : F, add zero x = x;
  add_zero_r : forall x : F, add x zero = x
}.

#[export] Instance Z_Scalar : Scalar Z := {| zero := 0%Z; add := Z.add; mul := Z.mul |}.

Section Scalars.

Context {F : Type} `{Scalar F}.

(** What freshly allocated, uninitialised device memory holds at each
    offset ([torch.empty_like]). *)
Variable uninit : nat -> F.

(** ** Tensors *)

(** A tensor is its shape with its elements in row-major order.
    [is_contiguous] tells whether its memory is laid out in that order;
    the buffers handed to the kernel are. *)
Record tensor : Type := mkTensor {
  shape : list nat;
  data : list F;
  is_contiguous : bool
}.

Definition numel (shp : list nat) : nat := foldr Nat.mul 1 shp.
Definition ndim (t : tensor) : nat := length (shape t).

Definition wf (t : tensor) : Prop := length (data t) = numel (shape t).

(** [t.shape[i]] *)
Definition shape_at (t : tensor) (i : nat) : res nat :=
  match shape t !! i with
  | Some d => Ok d
  | None => Err IndexError
  end.

(** [a, b = t.shape] *)
Definition unpack2 (shp : list nat) : res (nat * nat) :=
  match shp with
  | [a; b] => Ok (a, b)
  | _ => Err ValueError
  end.

(** [t.stride(0)] of a row-major tensor. *)
Definition stride0 (t : tensor) : res nat :=
  match shape t with
  | _ :: rest => Ok (numel rest)
  | [] => Err IndexError
  end.

(** [t.contiguous()] on a tensor that is not contiguous: a row-major
    copy with the same elements. *)
Definition contiguous (t : tensor) : host tensor :=
  _ ← emit EvContiguousCopy;
  mret (mkTensor (shape t) (data t) true).

(** [t.flatten(0, 1)] *)
Definition flatten01 (t : tensor) : res tensor :=
  match shape t with
  | d0 :: d1 :: rest => Ok (mkTensor (d0 * d1 :: rest) (data t) (is_contiguous t))
  | _ => Err IndexError
  end.

(** [t if t.ndim == 2 else t.flatten(0, 1)] *)
Definition as_2d (t : tensor) : res tensor :=
  if ndim t =? 2 then Ok t else flatten01 t.

(** [torch.empty_like(t)] *)
Definition empty_like (t : tensor) : host tensor :=
  _ ← emit (EvEmptyLike (shape t));
  mret (mkTensor (shape t) (map uninit (seq 0 (numel (shape t)))) true).

(** [torch.zeros(shp)] *)
Definition zeros (shp : list nat) : host tensor :=
  _ ← emit (EvZeros shp);
  mret (mkTensor shp (replicate (numel shp) zero) true).

(** [t.reshape_as(other)] *)
Definition reshape_as (t other : tensor) : res tensor :=
  if numel (shape t) =? numel (shape other)
  then Ok (mkTensor (shape other) (data t) (is_contiguous t))
  else Err RuntimeError.

(** Element [i] of a flat buffer. *)
Definition at_ (l : list F) (i : nat) : F := default zero (l !! i).

Definition sum_F (l : list F) : F := foldr add zero l.

(** The column sums of an [R x C] row-major matrix. *)
Definition sum_dim0 (R C : nat) (l : list F) : list F :=
  map (fun c => sum_F (map (fun r => at_ l (r * C + c)) (seq 0 R))) (seq 0 C).

(** Modelled from the spec: [xformers.triton.sum_strided.sum_2d_dim_0] is
    not among the sources; it is the separate reduction pass that sums a
    2-D tensor along its first axis. *)
Definition sum_2d_dim_0 (x : tensor) : host tensor :=
  _ ← emit EvSum2dDim0;
  match shape x with
  | [R; C] => mret (mkTensor [C] (sum_dim0 R C (data x)) true)
  | _ => raise RuntimeError
  end.

(** [t.transpose(0, 1)] of a 2-D tensor. *)
Definition transpose01 (t : tensor) : res tensor :=
  match shape t with
  | [R; C] =>
      Ok (mkTensor [C; R]
            (concat (map (fun c => map (fun r => at_ (data t) (r * C + c)) (seq 0 R)) (seq 0 C)))
            false)
  | _ => Err RuntimeError
  end.

(** The product of an [M x N] and an [N x K] row-major matrix. *)
Definition matmul_data (M N K : nat) (a b : list F) : list F :=
  concat (map (fun m =>
    map (fun k => sum_F (map (fun n => mul (at_ a (m * N + n)) (at_ b (n * K + k))) (seq 0 N)))
        (seq 0 K)) (seq 0 M)).

Definition matmul (a b : tensor) : res tensor :=
  match shape a, shape b with
  | [M; N], [N'; K] =>
      if N =? N' then Ok (mkTensor [M; K] (matmul_data M N K (data a) (data b)) true)
      else Err RuntimeError
  | _, _ => Err RuntimeError
  end.

(** The leading (batch) dimensions of a shape and its last two. *)
Fixpoint split_last2 (shp : list nat) : option (list nat * nat * nat) :=
  match shp with
  | [] => None
  | d :: rest =>
      match rest with
      | [] => None
      | [c] => Some ([], d, c)
      | _ :: _ :: _ => '(batch, r, c) ← split_last2 rest; Some (d :: batch, r, c)
      end
  end.

(** [a @ b] ([torch.matmul]) for a 2-D [a], which the transposed
    [grad_out_] is: the matrix product when [b] is 2-D, the
    matrix-vector product when it is 1-D, and when [b] has more
    dimensions the product of [a] with each matrix of the batch [b],
    laid out in the batch's shape. *)
Definition torch_matmul (a b : tensor) : res tensor :=
  match shape a, shape b with
  | [M; N], [N'] =>
      if N =? N' then Ok (mkTensor [M] (matmul_data M N 1 (data a) (data b)) true)
      else Err RuntimeError
  | [_; _], [_; _] => matmul a b
  | [M; N], _ :: _ :: _ :: _ =>
      match split_last2 (shape b) with
      | Some (batch, N', K) =>
          if N =? N'
          then Ok (mkTensor (batch ++ [M; K])
                     (concat (map (fun i => matmul_data M N K (data a)
                                              (drop (i * (N * K)) (data b)))
                                  (seq 0 (numel batch))))
                     true)
          else Err RuntimeError
      | None => Err RuntimeError
      end
  | _, _ => Err RuntimeError
  end.

(** ** Device code *)

(** A Triton value of shape [BLOCK_M, BLOCK_N] (or [BLOCK]) is given by
    its lanes. *)
Definition block2 (X : Type) : Type := nat -> nat -> X.
Definition block1 (X : Type) : Type := nat -> X.

(** The lanes of a 2-D block, row by row. *)
Definition lanes2 (BM BN : nat) : list (nat * nat) := list_prod (seq 0 BM) (seq 0 BN).

(** One lane of a memory operation: its address, the value to store and
    whether the lane is active. *)
Definition lane_ok {X} (len : nat) (l : nat * X * bool) : bool :=
  let '(p, _, m) := l in implb m (p <? len).

(** [tl.load(ptrs, mask=mask, other=other)]: an active lane reads its
    address, an inactive one yields [other]; an active lane outside the
    buffer is a fault.  Without [mask] every lane is active. *)
Definition tl_load2 (BM BN : nat) (buf : list F) (ptrs : block2 nat)
    (mask : block2 bool) (other : F) : option (block2 F) :=
  if forallb (fun '(i, j) => lane_ok (length buf) (ptrs i j, tt, mask i j)) (lanes2 BM BN)
  then Some (fun i j => if mask i j then default other (buf !! ptrs i j) else other)
  else None.

(** What one lane of a store does to the buffer. *)
Definition write_lane (b : list F) (l : nat * F * bool) : list F :=
  let '(p, v, m) := l in if m : bool then <[p := v]> b else b.

(** [tl.store(ptrs, vals, mask=mask)], lane after lane; an active lane
    outside the buffer is a fault. *)
Definition store_lanes (buf : list F) (ls : list (nat * F * bool)) : option (list F) :=
  if forallb (lane_ok (length buf)) ls
  then Some (foldl write_lane buf ls)
  else None.

Definition tl_store2 (BM BN : nat) (buf : list F) (ptrs : block2 nat)
    (vals : block2 F) (mask : block2 bool) : option (list F) :=
  store_lanes buf (map (fun '(i, j) => (ptrs i j, vals i j, mask i j)) (lanes2 BM BN)).

Definition tl_store1 (BN : nat) (buf : list F) (ptrs : block1 nat)
    (vals : block1 F) (mask : block1 bool) : option (list F) :=
  store_lanes buf (map (fun j => (ptrs j, vals j, mask j)) (seq 0 BN)).

(** [tl.sum(x, axis=0)] of a [BLOCK_M x BLOCK_N] block. *)
Definition tl_sum_axis0 (BM : nat) (x : block2 F) : block1 F :=
  fun j => sum_F (map (fun i => x i j) (seq 0 BM)).

Definition no_mask : block2 bool := fun _ _ => true.

(** [kernel_bw_act], the program with ids [(pid_m, pid_n)].  The four
    pointers are the buffers they point into; [GRAD_ACT] and [GRAD_BIAS]
    are written and returned. *)
Definition kernel_bw_act
    (GRAD_ACT GRAD_BIAS GRAD_OUT ACT_INPUTS : list F)
    (M N : nat)
    (stride_gom stride_aim stride_bm : nat)
    (BLOCK_M BLOCK_N : nat) (EVEN_BLOCKS : bool)
    (ACTIVATION_GRAD : F -> F) (COMPUTE_D_BIAS : bool)
    (pid_m pid_n : nat) : option (list F * list F) :=
  let rm : block1 nat := fun i => pid_m * BLOCK_M + i in
  let rn : block1 nat := fun j => pid_n * BLOCK_N + j in
  let act_input_ptrs : block2 nat := fun i j => rm i * stride_aim + rn j in
  let mask_rn : block1 bool := fun j => rn j <? N in
  let mask_rm : block1 bool := fun i => rm i <? M in
  let mask : block2 bool := fun i j => mask_rn j && mask_rm i in
  (* compute the gradient which is related to this activation *)
  act_in ← (if EVEN_BLOCKS
            then tl_load2 BLOCK_M BLOCK_N ACT_INPUTS act_input_ptrs no_mask zero
            else tl_load2 BLOCK_M BLOCK_N ACT_INPUTS act_input_ptrs mask zero);
  let grad_act : block2 F := fun i j => ACTIVATION_GRAD (act_in i j) in
  (* now read the incoming gradient; the first load has a mask and no
     [other]: its inactive lanes are unspecified, and it is overwritten *)
  let grad_out_ptrs : block2 nat := fun i j => rm i * stride_gom + rn j in
  _ ← tl_load2 BLOCK_M BLOCK_N GRAD_OUT grad_out_ptrs mask zero;
  grad_out ← (if EVEN_BLOCKS
              then tl_load2 BLOCK_M BLOCK_N GRAD_OUT grad_out_ptrs no_mask zero
              else tl_load2 BLOCK_M BLOCK_N GRAD_OUT grad_out_ptrs mask zero);
  let grad_act : block2 F := fun i j => mul (grad_act i j) (grad_out i j) in
  (* write back result *)
  let grad_act_ptrs : block2 nat := fun i j => rm i * stride_gom + rn j in
  GRAD_ACT ← (if EVEN_BLOCKS
              then tl_store2 BLOCK_M BLOCK_N GRAD_ACT grad_act_ptrs grad_act no_mask
              else tl_store2 BLOCK_M BLOCK_N GRAD_ACT grad_act_ptrs grad_act mask);
  (* opportunistically partially fuse the d_bias computation *)
  if COMPUTE_D_BIAS then
    let d_out : block2 F := fun i j => if mask i j then grad_act i j else zero in
    let d_bias : block1 F := tl_sum_axis0 BLOCK_M d_out in
    GRAD_BIAS ← tl_store1 BLOCK_N GRAD_BIAS (fun j => pid_m * stride_bm + rn j) d_bias
                  (fun j => rn j <? N);
    Some (GRAD_ACT, GRAD_BIAS)
  else Some (GRAD_ACT, GRAD_BIAS).

(** The programs of a launch over [grid]; they are independent, and are
    run here one after the other. *)
Definition program_ids (grid : nat * nat) : list (nat * nat) :=
  list_prod (seq 0 (fst grid)) (seq 0 (snd grid)).

Definition run_programs (kernel : list F -> list F -> nat -> nat -> option (list F * list F))
    (ids : list (nat * nat)) (GRAD_ACT GRAD_BIAS : list F) : option (list F * list F) :=
  foldl (fun st '(pid_m, pid_n) =>
           '(ga, gb) ← st; kernel ga gb pid_m pid_n)
        (Some (GRAD_ACT, GRAD_BIAS)) ids.

(** [kernel_bw_act[grid](...)] with the meta-parameters of the call.  The
    autotuner only chooses [num_stages] and [num_warps]; the heuristic
    sets [EVEN_BLOCKS]. *)
Definition EVEN_BLOCKS_heuristic (M N BLOCK_M BLOCK_N : nat) : res bool :=
  match py_mod M BLOCK_M, py_mod N BLOCK_N with
  | Ok rm, Ok rn => Ok ((rm =? 0) && (rn =? 0))
  | Err e, _ => Err e
  | _, Err e => Err e
  end.

Definition launch_kernel_bw_act
    (GRAD_ACT GRAD_BIAS GRAD_OUT ACT_INPUTS : list F)
    (M N stride_gom stride_aim stride_bm : nat)
    (ACTIVATION_GRAD : F -> F) (COMPUTE_D_BIAS : bool)
    (BLOCK_M BLOCK_N : nat) : host (list F * list F) :=
  gm ← lift (cdiv M BLOCK_M);
  gn ← lift (cdiv N BLOCK_N);
  EVEN_BLOCKS ← lift (EVEN_BLOCKS_heuristic M N BLOCK_M BLOCK_N);
  _ ← emit (EvKernelBwAct (gm, gn) COMPUTE_D_BIAS);
  match run_programs
          (fun ga gb => kernel_bw_act ga gb GRAD_OUT ACT_INPUTS M N
                          stride_gom stride_aim stride_bm
                          BLOCK_M BLOCK_N EVEN_BLOCKS ACTIVATION_GRAD COMPUTE_D_BIAS)
          (program_ids (gm, gn)) GRAD_ACT GRAD_BIAS with
  | Some r => mret r
  | None => raise IllegalMemoryAccess
  end.

(** ** The host function *)

(** [BLOCK_M = min(triton.next_power_of_2(M), 2048)] *)
Definition choose_BLOCK_M (M : nat) : nat :=
  Z.to_nat (Z.min (next_power_of_2 (Z.of_nat M)) 2048).

(** The activation stage of [fused_matmul_backward] (the body of
    [if activation_grad is not None]); it returns the new [grad_out_]
    and [grad_bias]. *)
Definition activation_stage (grad_out grad_out_ : tensor) (act_in : option tensor)
    (M N : nat) (trainable_bias : bool) (activation_grad : F -> F)
    : host (tensor * option tensor) :=
  grad_act ← empty_like grad_out_;
  (* Some activations do not require their inputs to know of their grad *)
  let act_in := match act_in with None => grad_out_ | Some a => a end in
  let BLOCK_M := choose_BLOCK_M M in
  let BLOCK_N := 16 in
  (* Opportunistically compute grad bias if required *)
  grad_bias ← (if trainable_bias
               then gm ← lift (cdiv M BLOCK_M); zeros [gm; N]
               else mret grad_out (* not used *));
  stride_gom ← lift (stride0 grad_act);
  stride_aim ← lift (stride0 act_in);
  stride_bm ← lift (stride0 grad_bias);
  '(ga, gb) ← launch_kernel_bw_act
                (data grad_act) (data grad_bias) (data grad_out_) (data act_in)
                M N stride_gom stride_aim stride_bm
                activation_grad trainable_bias BLOCK_M BLOCK_N;
  let grad_act := mkTensor (shape grad_act) ga true in
  let grad_bias := mkTensor (shape grad_bias) gb (is_contiguous grad_bias) in
  grad_bias ← (if trainable_bias
               then b ← sum_2d_dim_0 grad_bias; mret (Some b)
               else mret None);
  (* the reference gradient is now just before the activation *)
  mret (grad_act, grad_bias).

(** The weight stage (the body of [if trainable_weight]); its [if False]
    branch, the launch of [kernel_matmul_transpose], is never taken.  A
    layer input of four or more dimensions is still a batch of matrices
    once flattened, and [@] multiplies each of them. *)
Definition weight_stage (grad_out_ inputs : tensor) : host tensor :=
  inputs_ ← lift (as_2d inputs);
  _ ← emit EvMatmulTranspose;
  t ← lift (transpose01 grad_out_);
  lift (torch_matmul t inputs_).

(** [triton.ops.matmul(a, b)]: the matrix product, from the Triton
    library. *)
Definition triton_ops_matmul (a b : tensor) : host tensor :=
  _ ← emit EvTritonMatmul;
  lift (matmul a b).

Definition fused_matmul_backward
    (grad_out inputs : tensor) (act_in : option tensor) (weight : tensor)
    (trainable_weight trainable_bias : bool)
    (activation_grad : option (F -> F))
    : host (tensor * option tensor * option tensor) :=
  (* Make sure that we don't have to handle the stride over cols *)
  grad_out ← (if is_contiguous grad_out then mret grad_out else contiguous grad_out);
  grad_out_ ← lift (as_2d grad_out);
  let grad_bias : option tensor := None in
  go1 ← lift (shape_at grad_out_ 1);
  w0 ← lift (shape_at weight 0);
  _ ← py_assert (go1 =? w0);
  '(M, N) ← lift (unpack2 (shape grad_out_));
  '(N, K) ← lift (unpack2 (shape weight));
  (* Compute the gradient for the activation + bias *)
  '(grad_out_, grad_bias) ←
     match activation_grad with
     | Some f => activation_stage grad_out grad_out_ act_in M N trainable_bias f
     | None => mret (grad_out_, grad_bias)
     end;
  (* Compute the gradient for the weight *)
  grad_weight ← (if trainable_weight
                 then w ← weight_stage grad_out_ inputs; mret (Some w)
                 else mret None);
  (* Epilogue *)
  grad_in ← triton_ops_matmul grad_out_ weight;
  grad_bias ← match grad_bias with
              | None => if trainable_bias
                        then b ← sum_2d_dim_0 grad_out_; mret (Some b)
                        else mret None
              | Some b => mret (Some b)
              end;
  r ← lift (reshape_as grad_in inputs);
  mret (r, (if trainable_weight then grad_weight else None), grad_bias).

(** ** What a launch leaves in the buffers *)

(** The pre-activation gradient at a flat offset. *)
Definition grad_act_at (ACTIVATION_GRAD : F -> F) (ACT_INPUTS GRAD_OUT : list F)
    (a : nat) : F :=
  mul (ACTIVATION_GRAD (at_ ACT_INPUTS a)) (at_ GRAD_OUT a).

(** The partial bias sum at offset [b] of the buffer of shape
    [cdiv(M, BLOCK_M), N]: the sum over the rows of tile [b / N] that
    exist. *)
Definition partial_bias_at (ACTIVATION_GRAD : F -> F) (ACT_INPUTS GRAD_OUT : list F)
    (M N BLOCK_M : nat) (b : nat) : F :=
  sum_F (map (fun i => let r := b / N * BLOCK_M + i in
                       if r <? M
                       then grad_act_at ACTIVATION_GRAD ACT_INPUTS GRAD_OUT (r * N + b mod N)
                       else zero)
             (seq 0 BLOCK_M)).

(** ** The unfused reference *)

(** The reference of the fusion-equivalence law, three independent dense
    operations on the 2-D views: the pre-activation gradient
    [activation_grad(act_in) * grad_out] (the incoming gradient itself
    without an activation), its reduction along the batch axis, its
    transpose times the layer input, and its product with the weight. *)
Definition pre_activation_gradient (activation_grad : option (F -> F))
    (act_in grad_out : list F) : list F :=
  match activation_grad with
  | Some f => zip_with (fun a g => mul (f a) g) act_in grad_out
  | None => grad_out
  end.

Definition reference_grad_bias (M N : nat) (ga : list F) : tensor :=
  mkTensor [N] (sum_dim0 M N ga) true.

Definition reference_grad_weight (M N K : nat) (ga inputs : list F) : tensor :=
  mkTensor [N; K]
    (matmul_data N M K
       (concat (map (fun n => map (fun m => at_ ga (m * N + n)) (seq 0 M)) (seq 0 N)))
       inputs) true.

Definition reference_grad_input (M N K : nat) (ga weight : list F) : list F :=
  matmul_data M N K ga weight.

(** The buffer the activation derivative is evaluated at: the
    pre-activation input or, without one, the incoming gradient. *)
Definition act_data (act_in : option tensor) (grad_out_ : tensor) : list F :=
  data (default grad_out_ act_in).

(** A pre-activation input, when given, is a dense [M x N] matrix. *)
Definition act_in_ok (act_in : option tensor) (M N : nat) : Prop :=
  match act_in with
  | Some a => shape a = [M; N] /\ wf a /\ is_contiguous a = true
  | None => True
  end.

(** The three gradients of the reference, for a gradient [grad_out_] of
    shape [M x N], a layer input with [M] rows of [K] features and a
    weight of shape [N x K]; a gradient that is not requested is [None],
    and the input gradient has the shape of the layer input. *)
Definition reference_backward (grad_out_ inputs : tensor) (act_in : option tensor)
    (weight : tensor) (M N K : nat) (trainable_weight trainable_bias : bool)
    (activation_grad : option (F -> F)) : tensor * option tensor * option tensor :=
  let ga := pre_activation_gradient activation_grad
              (act_data act_in grad_out_) (data grad_out_) in
  (mkTensor (shape inputs) (reference_grad_input M N K ga (data weight)) true,
   if trainable_weight then Some (reference_grad_weight M N K ga (data inputs)) else None,
   if trainable_bias then Some (reference_grad_bias M N ga) else None).

(** The events of a call that succeeds, in order. *)
Definition expected_trace (contig : bool) (M N : nat)
    (trainable_weight trainable_bias with_activation : bool) : list event :=
  let BM := choose_BLOCK_M M in
  let gm := (M + BM - 1) / BM in
  (if contig then [] else [EvContiguousCopy]) ++
  (if with_activation
   then [EvEmptyLike [M; N]] ++ (if trainable_bias then [EvZeros [gm; N]] else []) ++
        [EvKernelBwAct (gm, (N + 16 - 1) / 16) trainable_bias] ++
        (if trainable_bias then [EvSum2dDim0] else [])
   else []) ++
  (if trainable_weight then [EvMatmulTranspose] else []) ++
  [EvTritonMatmul] ++
  (if with_activation then [] else if trainable_bias then [EvSum2dDim0] else []).

End Scalars.

Arguments tensor F : clear implicits.

(** ** Sample tensors over [Z] *)

Definition ex_uninit : nat -> Z := fun _ => 77%Z.

(** The derivative of ReLU. *)
Definition ex_relu_grad : Z -> Z := fun x => if (0 <? x)%Z then 1%Z else 0%Z.

(** A gradient for a batch of three rows and two output features, and a
    view of it that is not contiguous. *)
Definition ex_grad_out : tensor Z := mkTensor [3; 2] [1; 2; 3; 4; 5; 6]%Z true.
Definition ex_grad_out_view : tensor Z := mkTensor [3; 2] [1; 2; 3; 4; 5; 6]%Z false.
Definition ex_act_in : tensor Z := mkTensor [3; 2] [1; 0; -1; 2; 3; -4]%Z true.

(** Two layer inputs of shape [3, 1, 2]. *)
Definition ex_inputs : tensor Z := mkTensor [3; 1; 2] [1; 1; 2; 2; 3; 3]%Z true.
Definition ex_inputs' : tensor Z := mkTensor [3; 1; 2] [1; 0; 0; 1; 1; 1]%Z true.
Definition ex_inputs_2d : tensor Z := mkTensor [3; 2] [1; 1; 2; 2; 3; 3]%Z true.
Definition ex_inputs'_2d : tensor Z := mkTensor [3; 2] [1; 0; 0; 1; 1; 1]%Z true.

(** Weights with two and with three rows. *)
Definition ex_weight : tensor Z := mkTensor [2; 2] [1; 2; 3; 4]%Z true.
Definition ex_weight_3 : tensor Z := mkTensor [3; 2] [1; 2; 3; 4; 5; 6]%Z true.

(** An empty batch. *)
Definition ex_empty_grad_out : tensor Z := mkTensor [0; 2] [] true.
Definition ex_empty_inputs : tensor Z := mkTensor [0; 2] [] true.

(** ** The block size of the launch *)

(** The test that [choose_BLOCK_M M] is a power of two [2 ^ k] with
    [k <= 11], at least [M] and less than [2 * M]. *)
Definition block_size_ok (M : nat) : bool :=
  let c := choose_BLOCK_M M in
  existsb (fun k => c =? 2 ^ k) (seq 0 12) && (M <=? c) && (c <? 2 * M).

(** ** The program order of [kernel_matmul_transpose] *)

(** The output tile [(pid_n, pid_k)] that the program [pid] of
    [kernel_matmul_transpose] works on: the first lines of the kernel,
    where the programs are grouped [GROUP_N] tile rows at a time and run
    down the rows of a group before moving to its next column.  The
    kernel goes on to accumulate and store that tile; a division by
    zero is a fault. *)
Definition kernel_matmul_transpose_tile (N K BLOCK_N BLOCK_K GROUP_N pid : nat)
    : option (nat * nat) :=
  if (BLOCK_N =? 0) || (BLOCK_K =? 0) then None else
  let num_pid_n := (N + BLOCK_N - 1) / BLOCK_N in
  let num_pid_k := (K + BLOCK_K - 1) / BLOCK_K in
  let num_pid_in_group := GROUP_N * num_pid_k in
  if num_pid_in_group =? 0 then None else
  let group_id := pid / num_pid_in_group in
  let first_pid_n := group_id * GROUP_N in
  let GROUP_N := Nat.min (num_pid_n - first_pid_n) GROUP_N in
  if GROUP_N =? 0 then None else
  let pid_n := first_pid_n + pid mod GROUP_N in
  let pid_k := (pid mod num_pid_in_group) / GROUP_N in
  Some (pid_n, pid_k).

(** The same arithmetic on the numbers of programs along each axis,
    once the divisors are known to be positive. *)
Definition grouped_tile (num_pid_n num_pid_k GROUP_N pid : nat) : nat * nat :=
  let num_pid_in_group := GROUP_N * num_pid_k in
  let group_id := pid / num_pid_in_group in
  let first_pid_n := group_id * GROUP_N in
  let GROUP_N := Nat.min (num_pid_n - first_pid_n) GROUP_N in
  (first_pid_n + pid mod GROUP_N, (pid mod num_pid_in_group) / GROUP_N).

(** The launch grid of [kernel_matmul_transpose]: one program per
    output tile. *)
Definition kernel_matmul_transpose_grid (N K BLOCK_N BLOCK_K : nat) : res nat :=
  match cdiv N BLOCK_N, cdiv K BLOCK_K with
  | Ok n, Ok k => Ok (n * k)
  | Err e, _ => Err e
  | _, Err e => Err e
  end.

(** ** The weight-gradient kernel *)

(** [kernel_matmul_transpose] computes [Out = A^T x B] for [A] of shape
    [M x N] and [B] of shape [M x K].  [fused_matmul_backward] keeps its
    launch behind [if False]. *)

Section MatmulTranspose.

Context {F : Type} `{Scalar F}.

(** An [int1] value where an integer is expected: Triton zero-extends
    it. *)
Definition int1_to_int (b : bool) : nat := if b then 1 else 0.

(** [range(0, stop, step)] for a positive [step]. *)
Definition py_range (stop step : nat) : list nat :=
  map (fun t => t * step) (seq 0 ((stop + step - 1) / step)).

(** [tl.dot(a, b)] of a [BLOCK_N x BLOCK_M] and a [BLOCK_M x BLOCK_K]
    block. *)
Definition tl_dot (BLOCK_M : nat) (a b : block2 F) : block2 F :=
  fun n k => sum_F (map (fun m => mul (a n m) (b m k)) (seq 0 BLOCK_M)).

(** [kernel_matmul_transpose], the program [pid].  [C] is written and
    returned.  [tl.multiple_of] and [tl.max_contiguous] are hints to the
    compiler and return their argument; [%] by zero is a fault.
    Python reads the mask of the load of [b],
    [(mask_rk[None, :] < K) & rm[:, None] < M], as
    [((mask_rk[None, :] < K) & rm[:, None]) < M]: [&] binds tighter than
    [<]. *)
Definition kernel_matmul_transpose
    (C A B : list F)
    (M N K : nat)
    (stride_on stride_am stride_bm : nat)
    (BLOCK_M BLOCK_N GROUP_N BLOCK_K : nat) (EVEN_BLOCKS : bool)
    (pid : nat) : option (list F) :=
  (* programs are grouped together to improve L2 hit rate *)
  '(pid_n, pid_k) ← kernel_matmul_transpose_tile N K BLOCK_N BLOCK_K GROUP_N pid;
  (* now compute the block that each program will go through *)
  let rn : block1 nat := fun n => pid_n * BLOCK_N + n in
  let rk : block1 nat := fun k => pid_k * BLOCK_K + k in
  if (N =? 0) || (K =? 0) then None else
  let ran : block1 nat := fun n => rn n mod N in
  let rbk : block1 nat := fun k => rk k mod K in
  (* the memory addresses of elements can follow numpy broadcasting *)
  let a_ptrs : block2 nat := fun n _ => ran n in   (* we transpose on the fly *)
  let b_ptrs : block2 nat := fun _ k => rbk k in
  (* initialize and iteratively update accumulator *)
  let acc : block2 F := fun _ _ => zero in
  let mask_rn : block1 bool := fun n => rn n <? N in
  let mask_rk : block1 bool := fun k => rk k <? K in
  acc ← foldl (fun st i =>
                 acc ← st;
                 let rm : block1 nat := fun m => m + i in
                 a ← (if EVEN_BLOCKS
                      then tl_load2 BLOCK_N BLOCK_M A
                             (fun n m => a_ptrs n m + rm m * stride_am) no_mask zero
                      else tl_load2 BLOCK_N BLOCK_M A
                             (fun n m => a_ptrs n m + rm m * stride_am)
                             (fun n m => (rm m <? M) && mask_rn n) zero);
                 b ← (if EVEN_BLOCKS
                      then tl_load2 BLOCK_M BLOCK_K B
                             (fun m k => b_ptrs m k + rm m * stride_bm) no_mask zero
                      else tl_load2 BLOCK_M BLOCK_K B
                             (fun m k => b_ptrs m k + rm m * stride_bm)
                             (fun m k =>
                                Nat.land (int1_to_int (int1_to_int (mask_rk k) <? K)) (rm m)
                                <? M) zero);
                 Some (fun n k => add (acc n k) (tl_dot BLOCK_M a b n k)))
              (Some acc) (py_range M BLOCK_M);
  (* write back result *)
  let out_ptrs : block2 nat := fun n k => rn n * stride_on + rk k in
  if EVEN_BLOCKS
  then tl_store2 BLOCK_N BLOCK_K C out_ptrs acc no_mask
  else tl_store2 BLOCK_N BLOCK_K C out_ptrs acc (fun n k => mask_rn n && mask_rk k).

(** The heuristic of the kernel: [K % BLOCK_K == 0 and M % BLOCK_M == 0
    and N % BLOCK_N == 0], left to right. *)
Definition EVEN_BLOCKS_heuristic_3 (M N K BLOCK_M BLOCK_N BLOCK_K : nat) : res bool :=
  match py_mod K BLOCK_K with
  | Err e => Err e
  | Ok rk =>
      if rk =? 0 then
        match py_mod M BLOCK_M with
        | Err e => Err e
        | Ok rm =>
            if rm =? 0 then
              match py_mod N BLOCK_N with
              | Err e => Err e
              | Ok rn => Ok (rn =? 0)
              end
            else Ok false
        end
      else Ok false
  end.

(** [kernel_matmul_transpose[grid_](...)] for block sizes of the
    autotuner's choice, the programs run one after the other. *)
Definition launch_kernel_matmul_transpose
    (C A B : list F) (M N K stride_on stride_am stride_bm : nat)
    (BLOCK_M BLOCK_N GROUP_N BLOCK_K : nat) : res (list F) :=
  match kernel_matmul_transpose_grid N K BLOCK_N BLOCK_K,
        EVEN_BLOCKS_heuristic_3 M N K BLOCK_M BLOCK_N BLOCK_K with
  | Err e, _ => Err e
  | _, Err e => Err e
  | Ok grid, Ok EVEN_BLOCKS =>
      match foldl (fun st pid =>
                     C ← st;
                     kernel_matmul_transpose C A B M N K stride_on stride_am stride_bm
                       BLOCK_M BLOCK_N GROUP_N BLOCK_K EVEN_BLOCKS pid)
                  (Some C) (seq 0 grid) with
      | Some C => Ok C
      | None => Err IllegalMemoryAccess
      end
  end.

(** Element [(n, k)] of [A^T x B]. *)
Definition transposed_product_at (A B : list F) (M N K : nat) (n k : nat) : F :=
  sum_F (map (fun m => mul (at_ A (m * N + n)) (at_ B (m * K + k))) (seq 0 M)).

End MatmulTranspose.

End FusedBackward.

(** * The attention stack *)

(** [tests/test_attentions.py] drives [InProjParams], [InputProjection],
    [MultiHeadDispatch] and the registered attentions, whose sources are
    not available.  They are modelled here from the specification, over
    the real numbers, with dropout rates of zero (random draws are not
    modelled). *)

Module Attention.

Local Open Scope R_scope.

Definition vec : Type := list R.

Definition sum_R (l : list R) : R := fold_right Rplus 0 l.
Definition dot (x y : vec) : R := sum_R (zip_with Rmult x y).

(** ** Input projection *)

(** Modelled from the spec: [InProjParams] is missing; section 3 gives it
    as the value object (input_dim, output_dim, use_bias, init_scheme),
    built in the test as [InProjParams(MODEL, MODEL, proj_bias,
    small_init)]. *)
Record InProjParams : Set := mkInProjParams {
  in_features : nat;
  out_features : nat;
  bias : bool;
  small_init : bool
}.

(** Modelled from the spec: two parameter sets are structurally
    identical when they have the same shapes and bias flag (section 3). *)
Definition same_structure (a b : InProjParams) : bool :=
  (in_features a =? in_features b)%nat && (out_features a =? out_features b)%nat &&
  Bool.eqb (bias a) (bias b).

(** Modelled from the spec: the projections are affine transforms
    (section 4.2), a weight matrix with one row per output feature and
    an optional bias; their class is missing. *)
Record Linear : Type := mkLinear {
  weight : list vec;
  lin_bias : option vec
}.

Definition apply_linear (l : Linear) (x : vec) : vec :=
  let y := map (fun row => dot row x) (weight l) in
  match lin_bias l with
  | Some b => zip_with Rplus y b
  | None => y
  end.

(** Modelled from the spec: a tensor object of shape [batch, seq,
    embedding] as the missing classes receive it, its identity and its
    value (section 4.2 tells the same object from an equal value). *)
Record Tensor : Type := mkTensor3 {
  obj : nat;
  val : list (list vec)
}.

(** Modelled from the spec: [InputProjection] is missing.  It owns the
    three projections (section 3) and remembers whether it was built for
    self-attention. *)
Record InputProjection : Type := mkInputProjection {
  q_proj : Linear;
  k_proj : Linear;
  v_proj : Linear;
  self_attention : bool
}.

(** Modelled from the spec: the constructor of [InputProjection] is
    missing.  Absent key or value parameters stand for the query's
    (the test passes [None]); with [self_attention] the three parameter
    sets must be structurally identical, or construction fails (section
    3 and section 7; the test expects [AssertionError]), and the three
    streams share one transform; [fresh] is the parameter initialisation,
    an external collaborator. *)
Definition InputProjection_init (query_proj_params : InProjParams)
    (key_proj_params value_proj_params : option InProjParams)
    (self_attn : bool) (fresh : nat -> InProjParams -> Linear) : res InputProjection :=
  let kp := default query_proj_params key_proj_params in
  let vp := default query_proj_params value_proj_params in
  if self_attn then
    if same_structure query_proj_params kp && same_structure query_proj_params vp
    then let shared := fresh 0%nat query_proj_params in
         Ok (mkInputProjection shared shared shared true)
    else Err AssertionError
  else
    Ok (mkInputProjection (fresh 0%nat query_proj_params) (fresh 1%nat kp) (fresh 2%nat vp)
          false).

(** Modelled from the spec: [InputProjection.project] is missing
    (section 4.2).  Built for self-attention, it asserts that key and
    value are the very object passed as query; then each stream goes
    through its transform, position by position. *)
Definition project (ip : InputProjection) (query key value : Tensor)
    : res (list (list vec) * list (list vec) * list (list vec)) :=
  if self_attention ip &&
     negb ((obj key =? obj query)%nat && (obj value =? obj query)%nat)
  then Err AssertionError
  else Ok (map (map (apply_linear (q_proj ip))) (val query),
           map (map (apply_linear (k_proj ip))) (val key),
           map (map (apply_linear (v_proj ip))) (val value)).

(** ** Attention variants *)

(** Modelled from the spec: the attention variants are missing.  A
    variant is given by its mask (section 3, AttentionMask / Layout):
    which (query position, key position) pairs may interact. *)
Record AttentionVariant : Type := mkAttention {
  allowed : nat -> nat -> bool
}.

(** Modelled from the spec: the missing dense variant, and the dense
    variant with the causal flag, where a query attends to the key
    positions at or before its own (glossary, causal masking). *)
Definition dense : AttentionVariant := mkAttention (fun _ _ => true).
Definition dense_causal : AttentionVariant := mkAttention (fun i j => (j <=? i)%nat).

(** Modelled from the spec: the weight of key [k] at position [j] for
    query [q] at position [i] derives from their similarity (glossary,
    attention): the exponential of the scaled dot product, zero where the
    mask forbids the pair. *)
Definition attention_weight (att : AttentionVariant) (d : nat) (i j : nat) (q k : vec) : R :=
  if allowed att i j then exp (dot q k / sqrt (INR d)) else 0.

(** Modelled from the spec: the output of the missing variant at query
    position [i] is the aggregation of the value vectors weighted by the
    normalised weights (glossary, attention), component by component. *)
Definition attend (att : AttentionVariant) (d : nat) (i : nat) (q : vec) (K V : list vec)
    : vec :=
  map (fun c =>
         sum_R (map (fun j => attention_weight att d i j q (nth j K []) * nth c (nth j V []) 0)
                    (seq 0 (length K)))
         / sum_R (map (fun j => attention_weight att d i j q (nth j K [])) (seq 0 (length K))))
      (seq 0 d).

(** Modelled from the spec: [AttentionVariant.forward] on one batch
    element and one head (section 4.1). *)
Definition AttentionVariant_forward (att : AttentionVariant) (d : nat) (Q K V : list vec)
    : list vec :=
  map (fun i => attend att d i (nth i Q []) K V) (seq 0 (length Q)).

(** The uniform average of the value vectors (section 8). *)
Definition uniform_average (d : nat) (V : list vec) : vec :=
  map (fun c => sum_R (map (fun j => nth c (nth j V []) 0) (seq 0 (length V)))
                / INR (length V))
      (seq 0 d).

(** ** Multi-head dispatch *)

(** Modelled from the spec: [MultiHeadDispatch] is missing (section 3):
    it owns an attention variant, an input projection and an output
    projection ([None] is the identity). *)
Record MultiHeadDispatch : Type := mkMultiHeadDispatch {
  dim_model : nat;
  num_heads : nat;
  attention : AttentionVariant;
  in_proj_container : InputProjection;
  out_proj : option Linear
}.

Definition head_dim (mh : MultiHeadDispatch) : nat := (dim_model mh / num_heads mh)%nat.

(** Modelled from the spec: the slice of an embedding that belongs to
    head [h] (section 4.3, step 2), inside the missing dispatch. *)
Definition split_head (dh h : nat) (x : vec) : vec := take dh (drop (h * dh) x).

(** Modelled from the spec: batch sizes broadcast to the largest of
    them; each must be 1 or that size (section 4.1). *)
Definition broadcast_batch (bq bk bv : nat) : res nat :=
  let B := Nat.max bq (Nat.max bk bv) in
  let ok := fun b => (b =? 1)%nat || (b =? B)%nat in
  if ok bq && ok bk && ok bv then Ok B else Err DimensionMismatchError.

(** A batch of size 1 repeated [B] times. *)
Definition expand {A} (B : nat) (x : list A) : list A :=
  match x with
  | [a] => replicate B a
  | _ => x
  end.

Fixpoint zip_with3 {A B C D} (f : A -> B -> C -> D) (a : list A) (b : list B) (c : list C)
    : list D :=
  match a, b, c with
  | x :: a, y :: b, z :: c => f x y z :: zip_with3 f a b c
  | _, _, _ => []
  end.

(** Modelled from the spec: steps 2 to 5 of section 4.3 of the missing
    [MultiHeadDispatch.forward], on one batch element: split the
    projected embeddings into heads, run the variant on each head,
    concatenate the head outputs of each position and apply the output
    projection. *)
Definition dispatch_heads (mh : MultiHeadDispatch) (Q K V : list vec) : list vec :=
  let dh := head_dim mh in
  let heads :=
    map (fun h => AttentionVariant_forward (attention mh) dh
                    (map (split_head dh h) Q) (map (split_head dh h) K)
                    (map (split_head dh h) V))
        (seq 0 (num_heads mh)) in
  let merged := map (fun i => concat (map (fun hd => nth i hd []) heads)) (seq 0 (length Q)) in
  match out_proj mh with
  | Some l => map (apply_linear l) merged
  | None => merged
  end.

(** Modelled from the spec: [MultiHeadDispatch.forward] is missing
    (section 4.3): the input projection, the broadcast of the batch
    sizes, then the heads of every batch element. *)
Definition forward (mh : MultiHeadDispatch) (query key value : Tensor)
    : res (list (list vec)) :=
  match project (in_proj_container mh) query key value with
  | Err e => Err e
  | Ok (q, k, v) =>
      match broadcast_batch (length q) (length k) (length v) with
      | Err e => Err e
      | Ok B => Ok (zip_with3 (dispatch_heads mh) (expand B q) (expand B k) (expand B v))
      end
  end.

(** The tensor with its sequence axis reordered by [sigma], as in
    [inputs[:, shuffle, :]]. *)
Definition apply_perm {A} (d : A) (sigma : list nat) (xs : list A) : list A :=
  map (fun i => nth i xs d) sigma.

Definition permute_seq (sigma : list nat) (x : list (list vec)) : list (list vec) :=
  map (apply_perm [] sigma) x.

(** Shapes. *)
Definition has_shape (x : list (list vec)) (B S E : nat) : Prop :=
  length x = B /\
  Forall (fun s => length s = S /\ Forall (fun e => length e = E) s) x.

(** A transform with [E] output features (and a bias of that size). *)
Definition linear_out (l : Linear) (E : nat) : Prop :=
  length (weight l) = E /\
  match lin_bias l with
  | Some b => length b = E
  | None => True
  end.

(** The invariant of [MultiHeadDispatch] (section 3): the embedding
    divides into the heads, and the output projection, when there is
    one, yields embeddings. *)
Definition well_formed (mh : MultiHeadDispatch) (E : nat) : Prop :=
  dim_model mh = E /\
  (num_heads mh * head_dim mh)%nat = dim_model mh /\
  match out_proj mh with
  | Some l => linear_out l E
  | None => True
  end.

(** ** Sample objects *)

(** A one-dimensional model with one head, projections that keep the
    embedding, and no output projection. *)
Definition ex_keep : Linear := mkLinear [[1]] None.
Definition ex_in_proj (self_attn : bool) : InputProjection :=
  mkInputProjection ex_keep ex_keep ex_keep self_attn.
Definition ex_multi_head (att : AttentionVariant) (self_attn : bool) : MultiHeadDispatch :=
  mkMultiHeadDispatch 1 1 att (ex_in_proj self_attn) None.

(** A batch of one sequence of two positions, the same sequence with its
    positions swapped, and a second object with the value of the first. *)
Definition ex_x : Tensor := mkTensor3 0 [[[0]; [1]]].
Definition ex_x_shuffled : Tensor := mkTensor3 1 [[[1]; [0]]].
Definition ex_x_copy : Tensor := mkTensor3 2 [[[0]; [1]]].

(** A batch of two sequences. *)
Definition ex_pair : Tensor := mkTensor3 3 [[[0]; [1]]; [[1]; [1]]].

(** Queries and keys with no similarity, and two value tensors that
    differ and have the same average. *)
Definition ex_Q : list vec := [[1; 0]; [1; 0]].
Definition ex_K : list vec := [[0; 1]; [0; 1]].
Definition ex_V1 : list vec := [[0; 0]; [2; 4]].
Definition ex_V2 : list vec := [[2; 4]; [0; 0]].

(** The parameters of [test_inproj] on CPU, where [MODEL = 16]. *)
Definition ex_in_params : InProjParams := mkInProjParams 16 16 true false.
Definition ex_in_params_flip : InProjParams := mkInProjParams 16 8 false false.
Definition ex_fresh : nat -> InProjParams -> Linear := fun _ _ => mkLinear [] None.

(** The value at position [1] of the first batch element of a result. *)
Definition second_position (r : res (list (list vec))) : R :=
  match r with
  | Ok ((_ :: (y :: _) :: _) :: _) => y
  | _ => 0
  end.

(** The six combinations of batch sizes of the broadcasting test. *)
Definition broadcast_cases (B : nat) : list (nat * nat * nat) :=
  [(1, B, B); (B, 1, B); (B, B, 1); (1, 1, B); (B, 1, 1); (1, B, 1)]%nat.

End Attention.

(** * The inputs that the attention tests build *)

(** The tensors that [tests/test_attentions.py] constructs with
    [torch.cat], [torch.zeros], [expand], [torch.tril] and
    [torch.triu]; a random draw is a parameter. *)

Module TestInputs.
Import Attention.

Local Open Scope R_scope.

(** [torch.cat((a, b), dim=1).expand((BATCH, SEQ, MODEL))] of two
    one-row matrices: every position of every batch element holds the
    row [a ++ b]. *)
Definition cat_expand (BATCH SEQ : nat) (a b : vec) : list (list vec) :=
  replicate BATCH (replicate SEQ (a ++ b)).

(** The query of [test_kqv_ordering] and [test_inproj]: a random row of
    [MODEL // 2] entries followed by [MODEL // 2] zeros. *)
Definition complementary_q (BATCH SEQ MODEL : nat) (rand : vec) : list (list vec) :=
  cat_expand BATCH SEQ rand (replicate (MODEL / 2) 0).

(** Their key: [MODEL // 2] zeros followed by a random row. *)
Definition complementary_k (BATCH SEQ MODEL : nat) (rand : vec) : list (list vec) :=
  cat_expand BATCH SEQ (replicate (MODEL / 2) 0) rand.

(** [torch.tril(torch.ones((n, n)), diagonal=0)], the key of
    [test_causal]: row [i] has ones up to column [i]. *)
Definition tril_ones (n : nat) : list vec :=
  map (fun i => map (fun p => if (p <=? i)%nat then 1 else 0) (seq 0 n)) (seq 0 n).

(** [torch.triu(torch.ones((n, n)), diagonal=0)], the query of
    [test_causal]: row [i] has ones from column [i] on. *)
Definition triu_ones (n : nat) : list vec :=
  map (fun i => map (fun p => if (i <=? p)%nat then 1 else 0) (seq 0 n)) (seq 0 n).

End TestInputs.

(** * Verification of the fused backward kernel *)

(** * Reasoning about host computations *)

Section Triples.

Context {A B : Type}.
Implicit Types (P : event -> Prop).

Lemma triple_ret (a : A) P (Q : A -> Prop) : Q a -> triple (mret a) P Q.
Proof. intros HQ. split; [constructor|exact HQ]. Qed.

Lemma triple_raise (e : error) P (Q : A -> Prop) : triple (raise e) P Q.
Proof. split; [constructor|exact I]. Qed.

Lemma triple_lift (r : res A) P (Q : A -> Prop) :
  (forall a, r = Ok a -> Q a) -> triple (lift r) P Q.
Proof. intros HQ. split; [constructor|]. destruct r; simpl; auto. Qed.

Lemma triple_weaken (m : host A) P (Q Q' : A -> Prop) :
  triple m P Q -> (forall a, Q a -> Q' a) -> triple m P Q'.
Proof.
  intros [Ht Hr] HQ. split; [exact Ht|]. destruct (outcome m); auto.
Qed.

Lemma triple_bind (m : host A) (f : A -> host B) P (Q' : A -> Prop) (Q : B -> Prop) :
  triple m P Q' -> (forall a, Q' a -> triple (f a) P Q) -> triple (m ≫= f) P Q.
Proof.
  destruct m as [t [a|e]]; intros [Ht Ha] Hf; simpl in *.
  - destruct (Hf a Ha) as [Ht' Hr]. unfold mbind, host_mbind, host_bind.
    destruct (f a) as [t' r]. simpl in *. split; [|exact Hr].
    apply Forall_app. split; assumption.
  - split; [exact Ht|exact I].
Qed.

End Triples.

Lemma triple_emit (ev : event) (P : event -> Prop) (Q : unit -> Prop) :
  P ev -> Q tt -> triple (emit ev) P Q.
Proof. intros HP HQ. split; [repeat constructor; exact HP|exact HQ]. Qed.

Lemma triple_assert (b : bool) (P : event -> Prop) (Q : unit -> Prop) :
  (b = true -> Q tt) -> triple (py_assert b) P Q.
Proof. intros HQ. destruct b; [apply triple_ret; auto|apply triple_raise]. Qed.

Module FusedBackwardProofs.
Import FusedBackward.

Section Reductions.

Context {F : Type} `{ScalarLaws F}.

Lemma sum_F_app (l1 l2 : list F) :
  sum_F (l1 ++ l2) = add (sum_F l1) (sum_F l2).
Proof.
  unfold sum_F. induction l1 as [|x l1 IH]; simpl.
  - symmetry. apply add_zero_l.
  - rewrite IH. apply add_assoc.
Qed.

Lemma sum_F_zeros {A} (l : list A) :
  sum_F (map (fun _ => zero) l) = zero.
Proof.
  unfold sum_F. induction l as [|x l IH]; simpl; [reflexivity|].
  rewrite IH. apply add_zero_l.
Qed.

Lemma sum_F_ext {A} (f g : A -> F) (l : list A) :
  (forall x, In x l -> f x = g x) ->
  sum_F (map f l) = sum_F (map g l).
Proof.
  intros E. f_equal. apply map_ext_in. exact E.
Qed.

(** A sum over [gm] tiles of [BM] rows is the sum over the [gm * BM]
    rows. *)
Lemma sum_F_tiles (phi : nat -> F) (BM gm : nat) :
  sum_F (map (fun pm => sum_F (map (fun i => phi (pm * BM + i)) (seq 0 BM))) (seq 0 gm))
  = sum_F (map phi (seq 0 (gm * BM))).
Proof.
  induction gm as [|gm IH].
  - reflexivity.
  - replace (seq 0 (S gm * BM)) with (seq 0 (gm * BM) ++ seq (gm * BM) BM).
    2:{ rewrite <- seq_app. f_equal. lia. }
    rewrite seq_S, !map_app, !sum_F_app, IH. f_equal.
    cbn [map sum_F foldr]. rewrite add_zero_r.
    f_equal. replace (seq (gm * BM) BM) with (map (Nat.add (gm * BM)) (seq 0 BM)).
    2:{ rewrite <- (Nat.add_0_r (gm * BM)) at 2. apply (fmap_add_seq (gm * BM) 0 BM). }
    rewrite map_map. reflexivity.
Qed.

(** Rows past [M] that contribute [zero] can be left out. *)
Lemma sum_F_masked (psi : nat -> F) (M T : nat) :
  M <= T ->
  sum_F (map (fun r => if r <? M then psi r else zero) (seq 0 T))
  = sum_F (map psi (seq 0 M)).
Proof.
  intros Hle. replace T with (M + (T - M)) by lia.
  rewrite seq_app, map_app, sum_F_app.
  rewrite (sum_F_ext _ psi (seq 0 M)).
  2:{ intros r Hr. apply in_seq in Hr. destruct (Nat.ltb_spec r M); [reflexivity|lia]. }
  rewrite (sum_F_ext _ (fun _ => zero) (seq (0 + M) (T - M))).
  2:{ intros r Hr. apply in_seq in Hr. destruct (Nat.ltb_spec r M); [lia|reflexivity]. }
  rewrite sum_F_zeros. apply add_zero_r.
Qed.

End Reductions.

(** ** Masked stores *)

Section Memory.

Context {F : Type} `{Scalar F}.

Lemma store_lanes_eq (buf : list F) ls :
  store_lanes buf ls =
  if forallb (lane_ok (length buf)) ls then Some (foldl write_lane buf ls) else None.
Proof. reflexivity. Qed.

Lemma write_lanes_length ls : forall buf : list F,
  length (foldl write_lane buf ls) = length buf.
Proof.
  induction ls as [|[[p v] m] ls IH]; intros buf; simpl; [reflexivity|].
  rewrite IH. destruct m; [apply length_insert|reflexivity].
Qed.

(** When every active lane stores the value [g] assigns to its address,
    cells that already hold [g] keep it and the stored cells hold it. *)
Lemma write_lanes_conform (g : nat -> F) ls :
  (forall p v, In (p, v, true) ls -> v = g p) ->
  forall buf : list F,
    (forall a, buf !! a = Some (g a) -> foldl write_lane buf ls !! a = Some (g a)) /\
    (forall p v, In (p, v, true) ls -> p < length buf ->
                 foldl write_lane buf ls !! p = Some (g p)).
Proof.
  induction ls as [|[[p0 v0] m0] ls IH]; intros Hg buf; simpl.
  - split; [auto|intros ? ? []].
  - assert (Hg' : forall p v, In (p, v, true) ls -> v = g p) by (intros; eapply Hg; right; eauto).
    assert (Hstep : forall a, buf !! a = Some (g a) ->
                              write_lane buf (p0, v0, m0) !! a = Some (g a)).
    { intros a Ha. simpl. destruct m0; [|exact Ha].
      destruct (decide (p0 = a)) as [->|Hne].
      - rewrite list_lookup_insert_eq by (eapply lookup_lt_Some; eauto).
        f_equal. apply Hg. left; reflexivity.
      - rewrite list_lookup_insert_ne by exact Hne. exact Ha. }
    destruct (IH Hg' (write_lane buf (p0, v0, m0))) as [IH1 IH2].
    split.
    + intros a Ha. apply IH1, Hstep, Ha.
    + intros p v [E|Hin] Hp.
      * inversion E; subst. apply IH1. simpl.
        rewrite list_lookup_insert_eq by exact Hp.
        f_equal. apply Hg. left; reflexivity.
      * apply (IH2 p v Hin). simpl. destruct m0; [rewrite length_insert|]; exact Hp.
Qed.

Lemma tl_load2_Some BM BN (buf : list F) ptrs mask other :
  (forall i j, i < BM -> j < BN -> mask i j = true -> ptrs i j < length buf) ->
  tl_load2 BM BN buf ptrs mask other =
  Some (fun i j => if mask i j then default other (buf !! ptrs i j) else other).
Proof.
  intros Hb. unfold tl_load2.
  rewrite (proj2 (forallb_forall _ _)); [reflexivity|].
  intros [i j] Hin. apply in_prod_iff in Hin as [Hi Hj].
  apply in_seq in Hi, Hj. simpl.
  destruct (mask i j) eqn:E; [|reflexivity]. simpl.
  apply Nat.ltb_lt. apply Hb; [lia|lia|exact E].
Qed.

End Memory.

(** ** Launch grids *)

Lemma cdiv_covers (M BM : nat) : 0 < BM -> M <= (M + BM - 1) / BM * BM.
Proof.
  intros HB.
  pose proof (Nat.div_mod_eq (M + BM - 1) BM) as E.
  pose proof (Nat.mod_upper_bound (M + BM - 1) BM) as U.
  nia.
Qed.

Lemma tile_in_grid (M BM m : nat) : 0 < BM -> m < M -> m / BM < (M + BM - 1) / BM.
Proof.
  intros HB Hm. apply Nat.Div0.div_lt_upper_bound.
  pose proof (cdiv_covers M BM HB). nia.
Qed.

Lemma even_tile_in_range (M BM pm i : nat) :
  0 < BM -> M mod BM = 0 -> pm < (M + BM - 1) / BM -> i < BM -> pm * BM + i < M.
Proof.
  intros HB He Hpm Hi.
  pose proof (Nat.div_mod_eq M BM) as E. rewrite He in E.
  assert (Hq : (M + BM - 1) / BM = M / BM).
  { symmetry. apply (Nat.div_unique _ _ _ (BM - 1)); [lia|]. nia. }
  rewrite Hq in Hpm. nia.
Qed.

Lemma flat_index_div (N r c : nat) : c < N -> (r * N + c) / N = r.
Proof.
  intros Hc. symmetry. apply (Nat.div_unique _ _ _ c); [exact Hc|lia].
Qed.

Lemma flat_index_mod (N r c : nat) : c < N -> (r * N + c) mod N = c.
Proof.
  intros Hc. symmetry. apply (Nat.mod_unique _ _ r); [exact Hc|lia].
Qed.

Lemma tile_index (BM m : nat) : 0 < BM -> m / BM * BM + m mod BM = m /\ m mod BM < BM.
Proof.
  intros HB. pose proof (Nat.div_mod_eq m BM). pose proof (Nat.mod_upper_bound m BM). lia.
Qed.

Lemma program_ids_grid (gm gn pm pn : nat) :
  In (pm, pn) (program_ids (gm, gn)) <-> pm < gm /\ pn < gn.
Proof.
  unfold program_ids. cbn [fst snd]. rewrite in_prod_iff, !in_seq. lia.
Qed.

(** ** One program of [kernel_bw_act] *)

Section Program.

Context {F : Type} `{Scalar F}.

Variables (GRAD_OUT ACT_INPUTS : list F) (M N BLOCK_M BLOCK_N : nat).
Variable ACTIVATION_GRAD : F -> F.

Hypothesis GRAD_OUT_length : length GRAD_OUT = M * N.
Hypothesis ACT_INPUTS_length : length ACT_INPUTS = M * N.
Hypothesis BLOCK_M_pos : 0 < BLOCK_M.
Hypothesis BLOCK_N_pos : 0 < BLOCK_N.

Let gm := (M + BLOCK_M - 1) / BLOCK_M.
Let gn := (N + BLOCK_N - 1) / BLOCK_N.

Local Abbreviation grad_act_at := (grad_act_at ACTIVATION_GRAD ACT_INPUTS GRAD_OUT).
Local Abbreviation partial_bias_at :=
  (partial_bias_at ACTIVATION_GRAD ACT_INPUTS GRAD_OUT M N BLOCK_M).

(** Both settings of [EVEN_BLOCKS] run the same loads and stores; they
    differ in the mask: none on the fast path. *)
Lemma kernel_bw_act_paths (ga gb : list F) (sg sa sb pid_m pid_n : nat) (e cdb : bool) :
  kernel_bw_act ga gb GRAD_OUT ACT_INPUTS M N sg sa sb BLOCK_M BLOCK_N e
    ACTIVATION_GRAD cdb pid_m pid_n =
  let rm := fun i : nat => pid_m * BLOCK_M + i in
  let rn := fun j : nat => pid_n * BLOCK_N + j in
  let mask := fun i j : nat => (rn j <? N) && (rm i <? M) in
  let amask := if e then no_mask else mask in
  act_in ← tl_load2 BLOCK_M BLOCK_N ACT_INPUTS (fun i j => rm i * sa + rn j) amask zero;
  _ ← tl_load2 BLOCK_M BLOCK_N GRAD_OUT (fun i j => rm i * sg + rn j) mask zero;
  grad_out ← tl_load2 BLOCK_M BLOCK_N GRAD_OUT (fun i j => rm i * sg + rn j) amask zero;
  let grad_act := fun i j : nat => mul (ACTIVATION_GRAD (act_in i j)) (grad_out i j) in
  GRAD_ACT ← tl_store2 BLOCK_M BLOCK_N ga (fun i j => rm i * sg + rn j) grad_act amask;
  if cdb then
    GRAD_BIAS ← tl_store1 BLOCK_N gb (fun j => pid_m * sb + rn j)
                  (tl_sum_axis0 BLOCK_M (fun i j => if mask i j then grad_act i j else zero))
                  (fun j => rn j <? N);
    Some (GRAD_ACT, GRAD_BIAS)
  else Some (GRAD_ACT, gb).
Proof. destruct e; reflexivity. Qed.

Lemma kernel_bw_act_program (ga gb : list F) (pid_m pid_n : nat) (e cdb : bool) :
  length ga = M * N ->
  (cdb = true -> length gb = gm * N) ->
  pid_m < gm -> pid_n < gn ->
  (e = true -> M mod BLOCK_M = 0 /\ N mod BLOCK_N = 0) ->
  exists ga' gb',
    kernel_bw_act ga gb GRAD_OUT ACT_INPUTS M N N N N BLOCK_M BLOCK_N e
      ACTIVATION_GRAD cdb pid_m pid_n = Some (ga', gb') /\
    length ga' = length ga /\ length gb' = length gb /\
    (forall a, ga !! a = Some (grad_act_at a) -> ga' !! a = Some (grad_act_at a)) /\
    (forall i j, i < BLOCK_M -> j < BLOCK_N ->
       pid_m * BLOCK_M + i < M -> pid_n * BLOCK_N + j < N ->
       ga' !! ((pid_m * BLOCK_M + i) * N + (pid_n * BLOCK_N + j))
       = Some (grad_act_at ((pid_m * BLOCK_M + i) * N + (pid_n * BLOCK_N + j)))) /\
    (if cdb then
       (forall b, gb !! b = Some (partial_bias_at b) -> gb' !! b = Some (partial_bias_at b)) /\
       (forall j, j < BLOCK_N -> pid_n * BLOCK_N + j < N ->
          gb' !! (pid_m * N + (pid_n * BLOCK_N + j))
          = Some (partial_bias_at (pid_m * N + (pid_n * BLOCK_N + j))))
     else gb' = gb).
Proof.
  intros Hga Hgb Hpm Hpn Heven.
  set (rm := fun i : nat => pid_m * BLOCK_M + i).
  set (rn := fun j : nat => pid_n * BLOCK_N + j).
  set (mask := fun i j : nat => (rn j <? N) && (rm i <? M)).
  set (amask := if e then no_mask else mask).
  set (ptrs := fun i j : nat => rm i * N + rn j).
  assert (Hmask : forall i j, mask i j = true <-> rm i < M /\ rn j < N).
  { intros i j. unfold mask. rewrite andb_true_iff, !Nat.ltb_lt. tauto. }
  assert (Hamask : forall i j, i < BLOCK_M -> j < BLOCK_N ->
                               (amask i j = true <-> rm i < M /\ rn j < N)).
  { intros i j Hi Hj. unfold amask. destruct e; [|apply Hmask].
    destruct (Heven eq_refl) as [E1 E2]. split; [intros _|reflexivity].
    split; [apply even_tile_in_range|apply even_tile_in_range]; assumption. }
  assert (Hptr : forall i j, rm i < M -> rn j < N -> ptrs i j < M * N).
  { intros i j Hi Hj. unfold ptrs. nia. }
  rewrite kernel_bw_act_paths. cbv zeta.
  fold rm rn. fold mask. fold amask. fold ptrs.
  rewrite (tl_load2_Some _ _ ACT_INPUTS ptrs amask).
  2:{ intros i j Hi Hj Hm. rewrite ACT_INPUTS_length. apply Hptr; apply Hamask in Hm; tauto. }
  rewrite (tl_load2_Some _ _ GRAD_OUT ptrs mask).
  2:{ intros i j Hi Hj Hm. rewrite GRAD_OUT_length. apply Hptr; apply Hmask in Hm; tauto. }
  rewrite (tl_load2_Some _ _ GRAD_OUT ptrs amask).
  2:{ intros i j Hi Hj Hm. rewrite GRAD_OUT_length. apply Hptr; apply Hamask in Hm; tauto. }
  cbn [mbind option_bind].
  set (vals := fun i j : nat => mul _ _).
  assert (Hvals : forall i j, amask i j = true -> vals i j = grad_act_at (ptrs i j)).
  { intros i j Hm. unfold vals. rewrite Hm. reflexivity. }
  unfold tl_store2. rewrite store_lanes_eq.
  set (lanes := map _ (lanes2 BLOCK_M BLOCK_N)).
  assert (Hlanes : forall p v, In (p, v, true) lanes ->
            exists i j, i < BLOCK_M /\ j < BLOCK_N /\ amask i j = true /\
                        p = ptrs i j /\ v = vals i j).
  { intros p v Hin. apply in_map_iff in Hin as [[i j] [E Hin]].
    apply in_prod_iff in Hin as [Hi Hj]. apply in_seq in Hi, Hj.
    inversion E; subst. exists i, j. repeat split; (lia || assumption). }
  rewrite (proj2 (forallb_forall _ _)).
  2:{ intros [[p v] m] Hin. simpl. destruct m; [|reflexivity]. simpl.
      apply Hlanes in Hin as (i & j & Hi & Hj & Hm & -> & _).
      apply Nat.ltb_lt. rewrite Hga. apply Hptr; apply Hamask in Hm; tauto. }
  cbn [mbind option_bind].
  destruct (write_lanes_conform grad_act_at lanes) with (buf := ga) as [C1 C2].
  { intros p v Hin. apply Hlanes in Hin as (i & j & _ & _ & Hm & -> & ->).
    apply Hvals, Hm. }
  assert (Cga : forall i j, i < BLOCK_M -> j < BLOCK_N -> rm i < M -> rn j < N ->
            foldl write_lane ga lanes !! (rm i * N + rn j)
            = Some (grad_act_at (rm i * N + rn j))).
  { intros i j Hi Hj Hr Hc. apply (C2 (ptrs i j) (vals i j)).
    - apply in_map_iff. exists (i, j). split.
      + f_equal. apply (proj2 (Hamask i j Hi Hj)). tauto.
      + apply in_prod_iff. split; apply in_seq; lia.
    - rewrite Hga. apply Hptr; assumption. }
  destruct cdb.
  - unfold tl_store1. rewrite store_lanes_eq.
    set (blanes := map _ (seq 0 BLOCK_N)).
    assert (Hblanes : forall p v, In (p, v, true) blanes ->
              exists j, j < BLOCK_N /\ rn j < N /\ p = pid_m * N + rn j /\
                        v = partial_bias_at p).
    { intros p v Hin. apply in_map_iff in Hin as [j [E Hin]].
      apply in_seq in Hin. inversion E as [[Ep Ev Em]]. apply Nat.ltb_lt in Em.
      exists j. repeat split; [lia|exact Em|].
      unfold tl_sum_axis0, partial_bias_at.
      rewrite flat_index_div, flat_index_mod by exact Em.
      apply sum_F_ext. intros i Hi. apply in_seq in Hi. cbv zeta. fold (rm i).
      unfold mask at 1. rewrite (proj2 (Nat.ltb_lt _ _) Em), andb_true_l.
      destruct (Nat.ltb_spec (rm i) M) as [Hr|Hr]; [|reflexivity].
      apply Hvals. apply Hamask; [lia|lia|tauto]. }
    rewrite (proj2 (forallb_forall _ _)).
    2:{ intros [[p v] m] Hin. simpl. destruct m; [|reflexivity]. simpl.
        apply Hblanes in Hin as (j & Hj & Hc & -> & _).
        apply Nat.ltb_lt. rewrite (Hgb eq_refl). nia. }
    cbn [mbind option_bind].
    destruct (write_lanes_conform partial_bias_at blanes) with (buf := gb) as [B1 B2].
    { intros p v Hin. apply Hblanes in Hin as (j & _ & _ & _ & ->). reflexivity. }
    eexists _, _. split; [reflexivity|].
    rewrite !write_lanes_length.
    repeat split; try assumption.
    intros j Hj Hc.
    apply (B2 _ (tl_sum_axis0 BLOCK_M (fun i j => if mask i j then vals i j else zero) j)).
    + apply in_map_iff. exists j. split.
      * f_equal. apply Nat.ltb_lt, Hc.
      * apply in_seq; lia.
    + rewrite (Hgb eq_refl). fold (rn j) in Hc. nia.
  - eexists _, _. split; [reflexivity|].
    rewrite write_lanes_length.
    repeat split; assumption.
Qed.

(** ** A whole launch *)

Local Abbreviation kernel_of e cdb :=
  (fun ga gb => kernel_bw_act ga gb GRAD_OUT ACT_INPUTS M N N N N BLOCK_M BLOCK_N e
                  ACTIVATION_GRAD cdb).

Lemma run_programs_cons k pm pn ids (ga gb : list F) :
  run_programs k ((pm, pn) :: ids) ga gb =
  match k ga gb pm pn with
  | Some (ga', gb') => run_programs k ids ga' gb'
  | None => None
  end.
Proof.
  unfold run_programs. simpl. destruct (k ga gb pm pn) as [[ga' gb']|]; [reflexivity|].
  induction ids as [|[? ?] ids IH]; [reflexivity|exact IH].
Qed.

(** Whatever the order of the programs: every program succeeds, cells
    that hold their final value keep it, and each program leaves the
    final values in its own tile. *)
Lemma run_programs_spec (e cdb : bool) (ids : list (nat * nat)) :
  (e = true -> M mod BLOCK_M = 0 /\ N mod BLOCK_N = 0) ->
  forall ga gb : list F,
  length ga = M * N ->
  (cdb = true -> length gb = gm * N) ->
  (forall pm pn, In (pm, pn) ids -> pm < gm /\ pn < gn) ->
  exists ga' gb',
    run_programs (kernel_of e cdb) ids ga gb = Some (ga', gb') /\
    length ga' = length ga /\ length gb' = length gb /\
    (forall a, ga !! a = Some (grad_act_at a) -> ga' !! a = Some (grad_act_at a)) /\
    (forall pm pn i j, In (pm, pn) ids -> i < BLOCK_M -> j < BLOCK_N ->
       pm * BLOCK_M + i < M -> pn * BLOCK_N + j < N ->
       ga' !! ((pm * BLOCK_M + i) * N + (pn * BLOCK_N + j))
       = Some (grad_act_at ((pm * BLOCK_M + i) * N + (pn * BLOCK_N + j)))) /\
    (if cdb then
       (forall b, gb !! b = Some (partial_bias_at b) -> gb' !! b = Some (partial_bias_at b)) /\
       (forall pm pn j, In (pm, pn) ids -> j < BLOCK_N -> pn * BLOCK_N + j < N ->
          gb' !! (pm * N + (pn * BLOCK_N + j))
          = Some (partial_bias_at (pm * N + (pn * BLOCK_N + j))))
     else gb' = gb).
Proof.
  intros Heven. induction ids as [|[pm0 pn0] ids IH]; intros ga gb Hga Hgb Hids.
  - exists ga, gb. split; [reflexivity|]. repeat split; auto.
    + intros ? ? ? ? [].
    + destruct cdb; [|reflexivity]. split; [auto|intros ? ? ? []].
  - destruct (Hids pm0 pn0 (or_introl eq_refl)) as [Hpm Hpn].
    destruct (kernel_bw_act_program ga gb pm0 pn0 e cdb Hga Hgb Hpm Hpn Heven)
      as (ga1 & gb1 & Hk & Lga & Lgb & Keep & Tile & Bias).
    destruct (IH ga1 gb1) as (ga' & gb' & Hr & Lga' & Lgb' & Keep' & Tile' & Bias').
    { congruence. }
    { intros Hc. rewrite Lgb. auto. }
    { intros pm pn Hin. apply Hids. right; exact Hin. }
    exists ga', gb'. rewrite run_programs_cons.
    rewrite Hk. split; [exact Hr|].
    split; [congruence|]. split; [congruence|].
    split; [intros a Ha; apply Keep', Keep, Ha|].
    split.
    + intros pm pn i j [E|Hin] Hi Hj Hr' Hc'.
      * inversion E; subst. apply Keep'. apply Tile; assumption.
      * apply Tile'; assumption.
    + destruct cdb.
      * destruct Bias as [BK BT], Bias' as [BK' BT']. split.
        -- intros b Hb. apply BK', BK, Hb.
        -- intros pm pn j [E|Hin] Hj Hc'.
           ++ inversion E; subst. apply BK'. apply BT; assumption.
           ++ apply BT' with (pn := pn); assumption.
      * congruence.
Qed.

(** The buffers after the programs of the whole grid have run, in any
    order, whatever the buffers held before. *)
Lemma run_schedule (e cdb : bool) (ids : list (nat * nat)) (ga gb : list F) :
  (e = true -> M mod BLOCK_M = 0 /\ N mod BLOCK_N = 0) ->
  length ga = M * N ->
  (cdb = true -> length gb = gm * N) ->
  (forall pm pn, In (pm, pn) ids <-> pm < gm /\ pn < gn) ->
  run_programs (kernel_of e cdb) ids ga gb =
  Some (map grad_act_at (seq 0 (M * N)),
        if cdb then map partial_bias_at (seq 0 (gm * N)) else gb).
Proof.
  intros Heven Hga Hgb Hids.
  destruct (run_programs_spec e cdb ids Heven ga gb Hga Hgb)
    as (ga' & gb' & Hr & Lga & Lgb & _ & Tile & Bias).
  { intros pm pn Hin. apply Hids, Hin. }
  rewrite Hr. f_equal. f_equal.
  - apply list_eq. intros a.
    destruct (Nat.lt_ge_cases a (M * N)) as [Ha|Ha].
    + rewrite list_lookup_fmap, lookup_seq_lt by exact Ha. simpl.
      assert (HN : 0 < N) by nia.
      destruct (tile_index N a HN) as [Ea Hn].
      assert (Hm : a / N < M) by (apply Nat.Div0.div_lt_upper_bound; lia).
      destruct (tile_index BLOCK_M (a / N) BLOCK_M_pos) as [Em Hi].
      destruct (tile_index BLOCK_N (a mod N) BLOCK_N_pos) as [En Hj].
      specialize (Tile (a / N / BLOCK_M) (a mod N / BLOCK_N)
                       (a / N mod BLOCK_M) (a mod N mod BLOCK_N)).
      rewrite Em, En, Ea in Tile. apply Tile; try assumption.
      apply Hids. split; apply tile_in_grid; assumption.
    + rewrite (proj2 (lookup_ge_None _ _)) by lia.
      symmetry. apply lookup_ge_None. rewrite length_map, length_seq. exact Ha.
  - destruct cdb; [|exact Bias]. destruct Bias as [_ BT].
    specialize (Hgb eq_refl).
    apply list_eq. intros b.
    destruct (Nat.lt_ge_cases b (gm * N)) as [Hb|Hb].
    + rewrite list_lookup_fmap, lookup_seq_lt by exact Hb. simpl.
      assert (HN : 0 < N) by nia.
      destruct (tile_index N b HN) as [Eb Hc].
      assert (Hpm : b / N < gm) by (apply Nat.Div0.div_lt_upper_bound; lia).
      destruct (tile_index BLOCK_N (b mod N) BLOCK_N_pos) as [En Hj].
      specialize (BT (b / N) (b mod N / BLOCK_N) (b mod N mod BLOCK_N)).
      rewrite En, Eb in BT. apply BT; try assumption.
      apply Hids. split; [exact Hpm|]. apply tile_in_grid; assumption.
    + rewrite (proj2 (lookup_ge_None _ _)) by lia.
      symmetry. apply lookup_ge_None. rewrite length_map, length_seq. exact Hb.
Qed.

Lemma run_grid (e cdb : bool) (ga gb : list F) :
  (e = true -> M mod BLOCK_M = 0 /\ N mod BLOCK_N = 0) ->
  length ga = M * N ->
  (cdb = true -> length gb = gm * N) ->
  run_programs (kernel_of e cdb) (program_ids (gm, gn)) ga gb =
  Some (map grad_act_at (seq 0 (M * N)),
        if cdb then map partial_bias_at (seq 0 (gm * N)) else gb).
Proof.
  intros Heven Hga Hgb. apply run_schedule; try assumption. apply program_ids_grid.
Qed.

End Program.

(** ** The launch as the host sees it *)

Section Launch.

Context {F : Type} `{ScalarLaws F}.

Lemma at_map_seq (g : nat -> F) (n a : nat) :
  a < n -> at_ (map g (seq 0 n)) a = g a.
Proof.
  intros Ha. unfold at_.
  change (map g (seq 0 n)) with (g <$> seq 0 n).
  rewrite list_lookup_fmap, lookup_seq_lt by exact Ha. reflexivity.
Qed.

Lemma launch_kernel_bw_act_run (ga gb GRAD_OUT ACT_INPUTS : list F) (M N : nat)
    (f : F -> F) (cdb : bool) (BLOCK_M BLOCK_N : nat) :
  0 < BLOCK_M -> 0 < BLOCK_N ->
  length GRAD_OUT = M * N -> length ACT_INPUTS = M * N ->
  length ga = M * N ->
  (cdb = true -> length gb = (M + BLOCK_M - 1) / BLOCK_M * N) ->
  launch_kernel_bw_act ga gb GRAD_OUT ACT_INPUTS M N N N N f cdb BLOCK_M BLOCK_N =
  ([EvKernelBwAct ((M + BLOCK_M - 1) / BLOCK_M, (N + BLOCK_N - 1) / BLOCK_N) cdb],
   Ok (map (grad_act_at f ACT_INPUTS GRAD_OUT) (seq 0 (M * N)),
       if cdb
       then map (partial_bias_at f ACT_INPUTS GRAD_OUT M N BLOCK_M)
                (seq 0 ((M + BLOCK_M - 1) / BLOCK_M * N))
       else gb)).
Proof.
  intros HBM HBN HGO HAI Hga Hgb.
  unfold launch_kernel_bw_act, cdiv, EVEN_BLOCKS_heuristic, py_mod.
  destruct (Nat.eqb_spec BLOCK_M 0) as [|_]; [lia|].
  destruct (Nat.eqb_spec BLOCK_N 0) as [|_]; [lia|].
  cbn [lift mbind host_mbind host_bind emit mret host_mret host_ret app].
  rewrite (run_grid GRAD_OUT ACT_INPUTS M N BLOCK_M BLOCK_N f HGO HAI HBM HBN _ cdb ga gb);
    [reflexivity| |exact Hga|exact Hgb].
  intros E. apply andb_true_iff in E as [E1 E2].
  apply Nat.eqb_eq in E1, E2. tauto.
Qed.

Lemma grad_act_zip (f : F -> F) (AI GO : list F) (n : nat) :
  length AI = n -> length GO = n ->
  map (grad_act_at f AI GO) (seq 0 n) = zip_with (fun a g => mul (f a) g) AI GO.
Proof.
  intros HA HG. apply list_eq. intros a.
  change (map ?g ?l) with (g <$> l).
  rewrite list_lookup_fmap, lookup_zip_with.
  destruct (Nat.lt_ge_cases a n) as [Ha|Ha].
  - rewrite lookup_seq_lt by exact Ha. simpl. unfold grad_act_at, at_.
    destruct (lookup_lt_is_Some_2 AI a) as [x Hx]; [lia|].
    destruct (lookup_lt_is_Some_2 GO a) as [y Hy]; [lia|].
    rewrite Hx, Hy. reflexivity.
  - rewrite lookup_seq_ge by exact Ha. simpl.
    rewrite (proj2 (lookup_ge_None AI a)) by lia. reflexivity.
Qed.

(** Without [COMPUTE_D_BIAS] the stride of [GRAD_BIAS] is not used. *)
Lemma launch_no_bias_stride (ga gb GRAD_OUT ACT_INPUTS : list F) (M N sg sa sb sb' : nat)
    (f : F -> F) (BLOCK_M BLOCK_N : nat) :
  launch_kernel_bw_act ga gb GRAD_OUT ACT_INPUTS M N sg sa sb f false BLOCK_M BLOCK_N =
  launch_kernel_bw_act ga gb GRAD_OUT ACT_INPUTS M N sg sa sb' f false BLOCK_M BLOCK_N.
Proof. reflexivity. Qed.

(** Reducing the partial sums over the tiles gives the column sums of
    the gradient: rows past [M] contribute nothing. *)
Lemma sum_partial_bias (GRAD_OUT ACT_INPUTS : list F) (M N BLOCK_M : nat) (f : F -> F) :
  0 < BLOCK_M ->
  sum_dim0 ((M + BLOCK_M - 1) / BLOCK_M) N
    (map (partial_bias_at f ACT_INPUTS GRAD_OUT M N BLOCK_M)
         (seq 0 ((M + BLOCK_M - 1) / BLOCK_M * N)))
  = sum_dim0 M N (map (grad_act_at f ACT_INPUTS GRAD_OUT) (seq 0 (M * N))).
Proof.
  intros HBM. set (gm := (M + BLOCK_M - 1) / BLOCK_M).
  unfold sum_dim0. apply map_ext_in. intros c Hc. apply in_seq in Hc.
  pose (phi := fun r => if r <? M then grad_act_at f ACT_INPUTS GRAD_OUT (r * N + c) else zero).
  transitivity (sum_F (map phi (seq 0 (gm * BLOCK_M)))).
  - rewrite <- (sum_F_tiles phi BLOCK_M gm).
    apply sum_F_ext. intros pm Hpm. apply in_seq in Hpm. rewrite at_map_seq by nia.
    unfold partial_bias_at. rewrite flat_index_div, flat_index_mod by lia. reflexivity.
  - unfold phi. rewrite sum_F_masked by (apply cdiv_covers; exact HBM).
    apply sum_F_ext. intros r Hr. apply in_seq in Hr.
    rewrite at_map_seq by nia. reflexivity.
Qed.

(** *** Claim C2 *)

(** C2.  Masking changes the code path, never the result.  For every
    launch of [kernel_bw_act] with any positive block sizes, and any
    order [schedule] in which the programs of its grid run: the masked
    path ([EVEN_BLOCKS] false) succeeds and leaves in [GRAD_ACT] exactly
    [activation_grad(act_in) * grad_out], whether or not [M] and [N] are
    multiples of the block sizes; when they are, the unmasked fast path
    leaves the same buffers; the launch as the heuristic sets it up
    returns them too; and the partial bias sums reduce to the column
    sums over the [M] rows that exist, so that no out-of-range element
    contributes (without [COMPUTE_D_BIAS] the bias buffer is left as it
    was). *)
Theorem masking_preserves_results (ga gb GRAD_OUT ACT_INPUTS : list F) (M N : nat)
    (f : F -> F) (cdb : bool) (BLOCK_M BLOCK_N : nat) (schedule : list (nat * nat)) :
  0 < BLOCK_M -> 0 < BLOCK_N ->
  length GRAD_OUT = M * N -> length ACT_INPUTS = M * N ->
  length ga = M * N ->
  (cdb = true -> length gb = (M + BLOCK_M - 1) / BLOCK_M * N) ->
  let gm := (M + BLOCK_M - 1) / BLOCK_M in
  let gn := (N + BLOCK_N - 1) / BLOCK_N in
  Permutation schedule (program_ids (gm, gn)) ->
  let run := fun e : bool =>
    run_programs
      (fun a b => kernel_bw_act a b GRAD_OUT ACT_INPUTS M N N N N BLOCK_M BLOCK_N e f cdb)
      schedule ga gb in
  let GA := zip_with (fun a g => mul (f a) g) ACT_INPUTS GRAD_OUT in
  exists GB,
    run false = Some (GA, GB) /\
    (M mod BLOCK_M = 0 -> N mod BLOCK_N = 0 -> run true = Some (GA, GB)) /\
    outcome (launch_kernel_bw_act ga gb GRAD_OUT ACT_INPUTS M N N N N f cdb BLOCK_M BLOCK_N)
    = Ok (GA, GB) /\
    (if cdb then sum_dim0 gm N GB = sum_dim0 M N GA else GB = gb).
Proof.
  intros HBM HBN HGO HAI Hga Hgb gm gn Hsched run GA.
  exists (if cdb
          then map (partial_bias_at f ACT_INPUTS GRAD_OUT M N BLOCK_M) (seq 0 (gm * N))
          else gb).
  assert (EGA : map (grad_act_at f ACT_INPUTS GRAD_OUT) (seq 0 (M * N)) = GA)
    by (apply grad_act_zip; assumption).
  assert (Hids : forall pm pn, In (pm, pn) schedule <-> pm < gm /\ pn < gn).
  { intros pm pn. rewrite <- (program_ids_grid gm gn pm pn).
    split; apply Permutation_in; [exact Hsched|symmetry; exact Hsched]. }
  rewrite <- EGA.
  split; [|split; [|split]].
  - apply run_schedule; try assumption. discriminate.
  - intros E1 E2. apply run_schedule; try assumption. tauto.
  - rewrite launch_kernel_bw_act_run by assumption. reflexivity.
  - destruct cdb; [|reflexivity]. apply sum_partial_bias. exact HBM.
Qed.

End Launch.

(** ** The host function *)

Lemma next_power_of_2_pos (n : Z) : (1 <= n)%Z -> (1 <= next_power_of_2 n)%Z.
Proof.
  intros Hn. unfold next_power_of_2.
  assert (Hor : forall a k, (0 <= a)%Z -> (0 <= Z.lor a (Z.shiftr a k))%Z).
  { intros a k Ha. apply Z.lor_nonneg. split; [exact Ha|]. apply Z.shiftr_nonneg, Ha. }
  assert (H0 : (0 <= n - 1)%Z) by lia.
  pose proof (Hor _ 1%Z H0) as H1.
  pose proof (Hor _ 2%Z H1) as H2.
  pose proof (Hor _ 4%Z H2) as H3.
  pose proof (Hor _ 8%Z H3) as H4.
  pose proof (Hor _ 16%Z H4) as H5.
  cbv zeta. lia.
Qed.

Lemma choose_BLOCK_M_pos (M : nat) : 1 <= M -> 0 < choose_BLOCK_M M.
Proof.
  intros HM. unfold choose_BLOCK_M.
  pose proof (next_power_of_2_pos (Z.of_nat M)). lia.
Qed.

Section Host.

Context {F : Type} `{ScalarLaws F}.
Variable uninit : nat -> F.

Lemma as_2d_view (t t2 : tensor F) (R C : nat) :
  as_2d t = Ok t2 -> shape t2 = [R; C] ->
  data t2 = data t /\ is_contiguous t2 = is_contiguous t /\
  numel (shape t) = R * C /\ shape t <> [] /\
  forall c, as_2d (mkTensor (shape t) (data t) c) = Ok (mkTensor [R; C] (data t) c).
Proof.
  destruct t as [shp d c0]. unfold as_2d, ndim, flatten01. simpl.
  destruct shp as [|d0 [|d1 [|d2 rest]]]; simpl; try discriminate.
  - intros E Hs. inversion E; subst. simpl in *. inversion Hs; subst.
    repeat split; try lia; try discriminate. 
  - destruct rest as [|d3 rest]; simpl.
    + intros E Hs. inversion E; subst. simpl in *. inversion Hs; subst.
      repeat split; try lia; try discriminate.
    + intros E Hs. inversion E; subst. simpl in *. discriminate.
Qed.

Lemma activation_stage_run (grad_out grad_out_ : tensor F) (act_in : option (tensor F))
    (M N : nat) (tb : bool) (f : F -> F) :
  shape grad_out_ = [M; N] -> wf grad_out_ -> shape grad_out <> [] ->
  act_in_ok act_in M N -> 1 <= M ->
  let BM := choose_BLOCK_M M in
  let gm := (M + BM - 1) / BM in
  let ga := map (grad_act_at f (act_data act_in grad_out_) (data grad_out_)) (seq 0 (M * N)) in
  activation_stage uninit grad_out grad_out_ act_in M N tb f =
  ([EvEmptyLike [M; N]] ++ (if tb then [EvZeros [gm; N]] else []) ++
   [EvKernelBwAct (gm, (N + 16 - 1) / 16) tb] ++ (if tb then [EvSum2dDim0] else []),
   Ok (mkTensor [M; N] ga true,
       if tb then Some (mkTensor [N] (sum_dim0 M N ga) true) else None)).
Proof.
  intros Hs Hwf Hne Hai HM BM gm ga.
  pose proof (choose_BLOCK_M_pos M HM) as HBM. fold BM in HBM.
  assert (Hsa : stride0 (match act_in with Some a => a | None => grad_out_ end) = Ok N).
  { unfold stride0. destruct act_in as [a|]; [destruct Hai as [-> _]|rewrite Hs];
      simpl; f_equal; lia. }
  assert (Hla : length (data (match act_in with Some a => a | None => grad_out_ end)) = M * N).
  { destruct act_in as [a|]; [destruct Hai as (Ha & Hw & _); rewrite Hw, Ha|rewrite Hwf, Hs];
      simpl; lia. }
  assert (Hlg : length (data grad_out_) = M * N) by (rewrite Hwf, Hs; simpl; lia).
  assert (Hsb : exists sb, stride0 grad_out = Ok sb).
  { unfold stride0. destruct (shape grad_out); [congruence|eauto]. }
  destruct Hsb as [sb Hsb].
  unfold activation_stage. fold BM.
  unfold empty_like, cdiv, act_data in *.
  destruct (Nat.eqb_spec BM 0) as [|_]; [lia|]. fold gm.
  rewrite Hsa, Hs.
  destruct tb.
  - cbn [emit lift zeros mret host_mret host_ret mbind host_mbind host_bind
         stride0 shape data is_contiguous app numel foldr].
    rewrite !Nat.mul_1_r.
    rewrite launch_kernel_bw_act_run; try assumption; try lia.
    + fold gm. unfold sum_2d_dim_0.
      cbn [emit lift mret host_mret host_ret mbind host_mbind host_bind
           shape data is_contiguous app].
      unfold gm. rewrite sum_partial_bias by exact HBM. reflexivity.
    + rewrite length_map, length_seq. reflexivity.
    + intros _. rewrite length_replicate. reflexivity.
  - cbn [emit lift zeros mret host_mret host_ret mbind host_mbind host_bind
         stride0 shape data is_contiguous app numel foldr].
    rewrite Hsb.
    cbn [emit lift zeros mret host_mret host_ret mbind host_mbind host_bind
         stride0 shape data is_contiguous app numel foldr].
    rewrite !Nat.mul_1_r.
    rewrite (launch_no_bias_stride _ _ _ _ _ _ _ _ sb N).
    rewrite launch_kernel_bw_act_run; try assumption; try lia; try discriminate.
    + reflexivity.
    + rewrite length_map, length_seq. reflexivity.
Qed.

(** A call on tensors of consistent shapes: its events and its result. *)
Lemma fused_matmul_backward_run (grad_out inputs : tensor F) (act_in : option (tensor F))
    (weight : tensor F) (tw tb : bool) (act : option (F -> F))
    (grad_out_ inputs_ : tensor F) (M N K : nat) :
  as_2d grad_out = Ok grad_out_ -> shape grad_out_ = [M; N] -> wf grad_out ->
  as_2d inputs = Ok inputs_ -> shape inputs_ = [M; K] ->
  shape weight = [N; K] ->
  (act <> None -> act_in_ok act_in M N /\ 1 <= M) ->
  fused_matmul_backward uninit grad_out inputs act_in weight tw tb act =
  (expected_trace (is_contiguous grad_out) M N tw tb (bool_decide (act <> None)),
   Ok (reference_backward grad_out_ inputs act_in weight M N K tw tb act)).
Proof.
  intros Hg Hgs Hgw Hi His Hws Hact.
  destruct (as_2d_view grad_out grad_out_ M N Hg Hgs) as (Hgd & Hgc & Hgn & Hgne & Hg').
  destruct (as_2d_view inputs inputs_ M K Hi His) as (Hid & _ & Hin & _ & _).
  assert (Hstart : (if is_contiguous grad_out then mret grad_out else contiguous grad_out)
                   = ((if is_contiguous grad_out then [] else [EvContiguousCopy]),
                      Ok (mkTensor (shape grad_out) (data grad_out) true))).
  { destruct grad_out as [gs gd []]; reflexivity. }
  unfold fused_matmul_backward. rewrite Hstart. clear Hstart.
  cbn [mbind host_mbind host_bind]. rewrite (Hg' true).
  unfold shape_at. rewrite Hws.
  cbn [lift shape lookup list_lookup unpack2 mbind host_mbind host_bind app].
  rewrite Nat.eqb_refl.
  cbn [py_assert mret host_mret host_ret mbind host_mbind host_bind app].
  assert (Hlen : length (data grad_out) = M * N) by (rewrite Hgw; exact Hgn).
  assert (Hwst : forall g : tensor F, shape g = [M; N] ->
            weight_stage g inputs =
            ([EvMatmulTranspose],
             Ok (reference_grad_weight M N K (data g) (data inputs)))).
  { intros g Hgsh. unfold weight_stage, transpose01, torch_matmul, matmul. rewrite Hi, Hgsh.
    cbn [lift emit mbind host_mbind host_bind shape data app]. rewrite His, Nat.eqb_refl.
    rewrite Hid. reflexivity. }
  assert (Hmm : forall g : tensor F, shape g = [M; N] ->
            triton_ops_matmul g weight =
            ([EvTritonMatmul],
             Ok (mkTensor [M; K] (reference_grad_input M N K (data g) (data weight)) true))).
  { intros g Hgsh. unfold triton_ops_matmul, matmul. rewrite Hgsh, Hws, Nat.eqb_refl.
    reflexivity. }
  assert (Hrs : forall d c, reshape_as (mkTensor [M; K] d c) inputs
                            = Ok (mkTensor (shape inputs) d c)).
  { intros d c. unfold reshape_as. cbn [shape data is_contiguous].
    replace (numel [M; K]) with (M * K) by (simpl; lia).
    rewrite Hin, Nat.eqb_refl. reflexivity. }
  unfold expected_trace, reference_backward.
  destruct act as [f|].
  - destruct (Hact ltac:(discriminate)) as [Hai HM].
    rewrite activation_stage_run; try assumption; try reflexivity.
    2:{ unfold wf. cbn [shape data]. rewrite Hlen. simpl. lia. }
    rewrite bool_decide_eq_true_2 by discriminate.
    cbn [mbind host_mbind host_bind].
    rewrite Hwst, Hmm by reflexivity.
    replace (act_data act_in (mkTensor [M; N] (data grad_out) true))
      with (act_data act_in grad_out_)
      by (unfold act_data; destruct act_in; simpl; congruence).
    cbn [data shape pre_activation_gradient].
    rewrite Hgd, grad_act_zip; [| |exact Hlen].
    2:{ unfold act_data. destruct act_in as [a|]; cbn [default data].
        - destruct Hai as (Ha & Hw & _). rewrite Hw, Ha. simpl. lia.
        - congruence. }
    destruct tw, tb;
      cbn [mbind host_mbind host_bind mret host_mret host_ret lift app];
      rewrite Hrs; reflexivity.
  - rewrite bool_decide_eq_false_2 by (intros E; apply E; reflexivity).
    cbn [mbind host_mbind host_bind mret host_mret host_ret].
    rewrite Hwst, Hmm by reflexivity.
    unfold sum_2d_dim_0, act_data. cbn [data shape pre_activation_gradient]. rewrite Hgd.
    destruct tw, tb;
      cbn [mbind host_mbind host_bind mret host_mret host_ret lift emit app];
      rewrite Hrs; reflexivity.
Qed.

(** *** Events and results of an arbitrary call *)

Ltac triple_any :=
  first [ apply triple_ret; exact I
        | apply triple_raise
        | apply triple_lift; intros; exact I ].

Lemma sum_2d_dim_0_triple (x : tensor F) (P : event -> Prop) :
  P EvSum2dDim0 -> triple (sum_2d_dim_0 x) P (fun _ => True).
Proof.
  intros HP. unfold sum_2d_dim_0.
  eapply triple_bind; [apply (triple_emit _ _ (fun _ => True)); [exact HP|exact I]|].
  intros _ _. destruct (shape x) as [|? [|? [|? ?]]]; triple_any.
Qed.

Lemma weight_stage_triple (g inputs : tensor F) (P : event -> Prop) :
  P EvMatmulTranspose -> triple (weight_stage g inputs) P (fun _ => True).
Proof.
  intros HP. unfold weight_stage.
  eapply triple_bind with (Q' := fun _ => True); [triple_any|]. intros inputs_ _.
  eapply triple_bind; [apply (triple_emit _ _ (fun _ => True)); [exact HP|exact I]|].
  intros _ _.
  eapply triple_bind with (Q' := fun _ => True); [triple_any|]. intros t _.
  triple_any.
Qed.

Lemma triton_ops_matmul_triple (a b : tensor F) (P : event -> Prop) :
  P EvTritonMatmul -> triple (triton_ops_matmul a b) P (fun _ => True).
Proof.
  intros HP. unfold triton_ops_matmul.
  eapply triple_bind; [apply (triple_emit _ _ (fun _ => True)); [exact HP|exact I]|].
  intros _ _. triple_any.
Qed.

Lemma launch_kernel_bw_act_triple (ga gb GO AI : list F) (M N sg sa sb : nat) (f : F -> F)
    (cdb : bool) (BM BN : nat) (P : event -> Prop) :
  (forall grid, P (EvKernelBwAct grid cdb)) ->
  triple (launch_kernel_bw_act ga gb GO AI M N sg sa sb f cdb BM BN) P (fun _ => True).
Proof.
  intros HP. unfold launch_kernel_bw_act.
  eapply triple_bind with (Q' := fun _ => True); [triple_any|]. intros gm _.
  eapply triple_bind with (Q' := fun _ => True); [triple_any|]. intros gn _.
  eapply triple_bind with (Q' := fun _ => True); [triple_any|]. intros e _.
  eapply triple_bind; [apply (triple_emit _ _ (fun _ => True)); [apply HP|exact I]|].
  intros _ _. destruct (run_programs _ _ _ _); triple_any.
Qed.

Lemma activation_stage_triple (grad_out grad_out_ : tensor F) (act_in : option (tensor F))
    (M N : nat) (tb : bool) (f : F -> F) (P : event -> Prop) :
  (forall shp, P (EvEmptyLike shp)) ->
  (tb = true -> forall shp, P (EvZeros shp)) ->
  (forall grid, P (EvKernelBwAct grid tb)) ->
  (tb = true -> P EvSum2dDim0) ->
  triple (activation_stage uninit grad_out grad_out_ act_in M N tb f) P
         (fun r => if tb then is_Some (snd r) else snd r = None).
Proof.
  intros HE HZ HK HS. unfold activation_stage, empty_like, zeros.
  eapply triple_bind with (Q' := fun _ => True).
  { eapply triple_bind; [apply (triple_emit _ _ (fun _ => True)); [apply HE|exact I]|].
    intros; triple_any. }
  intros grad_act _.
  eapply triple_bind with (Q' := fun _ => True).
  { destruct tb; [|triple_any].
    eapply triple_bind with (Q' := fun _ => True); [triple_any|]. intros gm _.
    eapply triple_bind; [apply (triple_emit _ _ (fun _ => True)); [apply HZ; reflexivity|exact I]|].
    intros; triple_any. }
  intros grad_bias _.
  eapply triple_bind with (Q' := fun _ => True); [triple_any|]. intros sg _.
  eapply triple_bind with (Q' := fun _ => True); [triple_any|]. intros sa _.
  eapply triple_bind with (Q' := fun _ => True); [triple_any|]. intros sb _.
  eapply triple_bind with (Q' := fun _ => True);
    [apply launch_kernel_bw_act_triple; exact HK|].
  intros [ga gb] _.
  eapply triple_bind with (Q' := fun b => if tb then is_Some b else b = None).
  { destruct tb.
    - eapply triple_bind with (Q' := fun _ => True);
        [apply sum_2d_dim_0_triple; apply HS; reflexivity|].
      intros b _. apply triple_ret. eauto.
    - apply triple_ret. reflexivity. }
  intros b Hb. apply triple_ret. exact Hb.
Qed.

(** Every call: a stage that is not requested issues no event and
    yields [None], a requested one yields a tensor, and the input
    gradient has the shape of the layer input. *)
Lemma fused_matmul_backward_triple (grad_out inputs : tensor F) (act_in : option (tensor F))
    (weight : tensor F) (tw tb : bool) (act : option (F -> F)) :
  triple (fused_matmul_backward uninit grad_out inputs act_in weight tw tb act)
    (fun e => (tw = false -> is_weight_event e = false) /\
              (tb = false -> is_bias_event e = false))
    (fun r => shape (fst (fst r)) = shape inputs /\
              (if tw then is_Some (snd (fst r)) else snd (fst r) = None) /\
              (if tb then is_Some (snd r) else snd r = None)).
Proof.
  unfold fused_matmul_backward.
  eapply triple_bind with (Q' := fun _ => True).
  { destruct (is_contiguous grad_out); [triple_any|]. unfold contiguous.
    eapply triple_bind;
      [apply (triple_emit _ _ (fun _ => True)); [split; reflexivity|exact I]|].
    intros; triple_any. }
  intros go _.
  eapply triple_bind with (Q' := fun _ => True); [triple_any|]. intros go2 _.
  eapply triple_bind with (Q' := fun _ => True); [triple_any|]. intros go1 _.
  eapply triple_bind with (Q' := fun _ => True); [triple_any|]. intros w0 _.
  eapply triple_bind with (Q' := fun _ => True); [apply triple_assert; auto|]. intros _ _.
  eapply triple_bind with (Q' := fun _ => True); [triple_any|]. intros [M N0] _.
  eapply triple_bind with (Q' := fun _ => True); [triple_any|]. intros [N K] _.
  eapply triple_bind with (Q' := fun r => if tb then True else snd r = None).
  { destruct act as [f|].
    - eapply triple_weaken.
      + apply activation_stage_triple.
        * intros shp. split; reflexivity.
        * intros -> shp. split; [reflexivity|discriminate].
        * intros grid. split; [reflexivity|intros ->; reflexivity].
        * intros ->. split; [reflexivity|discriminate].
      + intros r Hr. destruct tb; [exact I|exact Hr].
    - apply triple_ret. destruct tb; reflexivity. }
  intros [g b] Hb. cbn [snd] in Hb.
  eapply triple_bind with (Q' := fun gw => tw = true -> is_Some gw).
  { destruct tw.
    - eapply triple_bind with (Q' := fun _ => True).
      + apply weight_stage_triple. split; [discriminate|reflexivity].
      + intros wg _. apply triple_ret. eauto.
    - apply triple_ret. discriminate. }
  intros gw Hgw.
  eapply triple_bind with (Q' := fun _ => True).
  { apply triton_ops_matmul_triple. split; reflexivity. }
  intros gi _.
  eapply triple_bind with (Q' := fun gb => if tb then is_Some gb else gb = None).
  { destruct b as [b|].
    - apply triple_ret. destruct tb; [eauto|discriminate].
    - destruct tb.
      + eapply triple_bind with (Q' := fun _ => True).
        * apply sum_2d_dim_0_triple. split; [reflexivity|discriminate].
        * intros sb _. apply triple_ret. eauto.
      + apply triple_ret. reflexivity. }
  intros gb Hgb.
  eapply triple_bind with (Q' := fun r => shape r = shape inputs).
  { apply triple_lift. intros r Hr. unfold reshape_as in Hr.
    destruct (_ =? _); inversion Hr. reflexivity. }
  intros r Hr. apply triple_ret. cbn [fst snd].
  split; [exact Hr|]. split; [|exact Hgb].
  destruct tw; [auto|reflexivity].
Qed.

End Host.

(** ** Claims C1, C3, C8, C9 and C10 *)

Section Claims.

Context {F : Type} `{ScalarLaws F}.
Variable uninit : nat -> F.


(** Without [COMPUTE_D_BIAS] a program returns [GRAD_BIAS] as it got
    it. *)
Lemma kernel_bw_act_keeps_bias (ga gb GO AI : list F) (M N sg sa sb BM BN : nat)
    (e : bool) (f : F -> F) (pid_m pid_n : nat) (ga' gb' : list F) :
  kernel_bw_act ga gb GO AI M N sg sa sb BM BN e f false pid_m pid_n = Some (ga', gb') ->
  gb' = gb.
Proof.
  unfold kernel_bw_act. intros E.
  repeat match type of E with
         | (mbind _ ?m) = Some _ => destruct m; cbn [mbind option_bind] in E; [|discriminate]
         end.
  congruence.
Qed.

(** C3.  For every call: with [trainable_weight] false no event of the
    weight gradient is issued and the returned [grad_weight] is [None];
    with [trainable_bias] false no bias buffer is allocated, no bias
    reduction is issued, the kernel is launched without
    [COMPUTE_D_BIAS] (and then no program touches [GRAD_BIAS]), and the
    returned [grad_bias] is [None]; with a flag true the gradient
    returned is a tensor. *)
Theorem frozen_stages_are_skipped (grad_out inputs : tensor F) (act_in : option (tensor F))
    (weight : tensor F) (tw tb : bool) (act : option (F -> F)) :
  let call := fused_matmul_backward uninit grad_out inputs act_in weight tw tb act in
  (tw = false -> Forall (fun e => is_weight_event e = false) (trace call)) /\
  (tb = false -> Forall (fun e => is_bias_event e = false) (trace call)) /\
  (forall gi gw gb, outcome call = Ok (gi, gw, gb) ->
     (if tw then is_Some gw else gw = None) /\
     (if tb then is_Some gb else gb = None)) /\
  (forall ga gb GO AI M N sg sa sb BM BN e f pid_m pid_n ga' gb',
     kernel_bw_act ga gb GO AI M N sg sa sb BM BN e f false pid_m pid_n = Some (ga', gb') ->
     gb' = gb).
Proof.
  intros call.
  destruct (fused_matmul_backward_triple uninit grad_out inputs act_in weight tw tb act)
    as [Ht Hr]. fold call in Ht, Hr.
  split; [|split; [|split]].
  - intros E. eapply Forall_impl; [exact Ht|]. intros e [He _]. auto.
  - intros E. eapply Forall_impl; [exact Ht|]. intros e [_ He]. auto.
  - intros gi gw gb E. rewrite E in Hr. cbn [fst snd] in Hr. tauto.
  - intros. eapply kernel_bw_act_keeps_bias; eassumption.
Qed.

(** C8.  When the column count of the (flattened) [grad_out] differs
    from the row count of [weight], the call raises the assertion error
    on the dimensions, and nothing was issued before it but the copy
    that makes [grad_out] contiguous: no buffer for a gradient, no kernel
    launch, no product. *)
Theorem dimension_mismatch_fails_first (grad_out inputs : tensor F)
    (act_in : option (tensor F)) (weight : tensor F) (tw tb : bool)
    (act : option (F -> F)) (grad_out_ : tensor F) (cols rows : nat) :
  as_2d grad_out = Ok grad_out_ ->
  shape_at grad_out_ 1 = Ok cols -> shape_at weight 0 = Ok rows ->
  cols <> rows ->
  let call := fused_matmul_backward uninit grad_out inputs act_in weight tw tb act in
  outcome call = Err AssertionError /\
  trace call = (if is_contiguous grad_out then [] else [EvContiguousCopy]) /\
  Forall (fun e => is_compute e = false) (trace call).
Proof.
  intros Hg Hc Hr Hne call.
  assert (E : call = ((if is_contiguous grad_out then [] else [EvContiguousCopy]),
                      Err AssertionError)).
  { unfold call, fused_matmul_backward.
    assert (Hg' : as_2d (mkTensor (shape grad_out) (data grad_out) true)
                  = Ok (mkTensor (shape grad_out_) (data grad_out_) true)).
    { revert Hg. unfold as_2d, ndim, flatten01. cbn [shape data is_contiguous].
      destruct (length (shape grad_out) =? 2).
      - intros E; inversion E; subst. reflexivity.
      - destruct (shape grad_out) as [|? [|? ?]]; intros E; inversion E; subst. reflexivity. }
    assert (Hc' : shape_at (mkTensor (shape grad_out_) (data grad_out_) true) 1 = Ok cols)
      by exact Hc.
    destruct grad_out as [gs gd []]; cbn [is_contiguous shape data] in *;
      unfold contiguous;
      cbn [mbind host_mbind host_bind mret host_mret host_ret emit lift app shape data];
      rewrite Hg';
      cbn [mbind host_mbind host_bind mret host_mret host_ret emit lift app];
      rewrite Hc', Hr;
      cbn [mbind host_mbind host_bind mret host_mret host_ret emit lift app];
      rewrite (proj2 (Nat.eqb_neq cols rows) Hne); reflexivity. }
  rewrite E. cbn [outcome trace fst snd]. split; [reflexivity|]. split; [reflexivity|].
  destruct (is_contiguous grad_out); repeat constructor.
Qed.

(** C9 (as amended).  The boundary is a pure function of seven inputs:
    the six listed and the layer input [inputs].  On tensors of
    consistent shapes the result does not depend on what the freshly
    allocated memory held; two layer inputs of the same dimensions give
    the same [grad_bias] and the same values of [grad_input], each
    [grad_input] in the shape of its layer input. *)
Theorem seven_inputs_determine_the_gradients (uninit' : nat -> F)
    (grad_out inputs inputs' : tensor F) (act_in : option (tensor F))
    (weight : tensor F) (tw tb : bool) (act : option (F -> F))
    (grad_out_ inputs_ inputs_' : tensor F) (M N K : nat) :
  as_2d grad_out = Ok grad_out_ -> shape grad_out_ = [M; N] -> wf grad_out ->
  as_2d inputs = Ok inputs_ -> shape inputs_ = [M; K] ->
  as_2d inputs' = Ok inputs_' -> shape inputs_' = [M; K] ->
  shape weight = [N; K] ->
  (act <> None -> act_in_ok act_in M N /\ 1 <= M) ->
  fused_matmul_backward uninit grad_out inputs act_in weight tw tb act
  = fused_matmul_backward uninit' grad_out inputs act_in weight tw tb act /\
  exists gi gw gi' gw' gb,
    outcome (fused_matmul_backward uninit grad_out inputs act_in weight tw tb act)
    = Ok (gi, gw, gb) /\
    outcome (fused_matmul_backward uninit grad_out inputs' act_in weight tw tb act)
    = Ok (gi', gw', gb) /\
    data gi = data gi' /\ shape gi = shape inputs /\ shape gi' = shape inputs'.
Proof.
  intros Hg Hgs Hgw Hi His Hi' His' Hws Hact.
  split.
  - rewrite (fused_matmul_backward_run uninit grad_out inputs act_in weight tw tb act
               grad_out_ inputs_ M N K) by assumption.
    symmetry.
    exact (fused_matmul_backward_run uninit' grad_out inputs act_in weight tw tb act
             grad_out_ inputs_ M N K Hg Hgs Hgw Hi His Hws Hact).
  - rewrite (fused_matmul_backward_run uninit grad_out inputs act_in weight tw tb act
               grad_out_ inputs_ M N K) by assumption.
    rewrite (fused_matmul_backward_run uninit grad_out inputs' act_in weight tw tb act
               grad_out_ inputs_' M N K) by assumption.
    unfold reference_backward. cbn [outcome snd].
    eexists _, _, _, _, _. repeat split; reflexivity.
Qed.

(** C10.  With an activation gradient and no pre-activation input, the
    call is the call whose [act_in] is the flattened [grad_out] itself;
    on tensors of consistent shapes with at least one row its
    pre-activation gradient is [activation_grad(grad_out) * grad_out];
    and whatever the arguments, a returned [grad_input] has the shape of
    [inputs]. *)
Theorem missing_act_in_is_grad_out (grad_out inputs : tensor F) (weight : tensor F)
    (tw tb : bool) (f : F -> F) (grad_out_ inputs_ : tensor F) (M N K : nat) :
  as_2d grad_out = Ok grad_out_ ->
  (fused_matmul_backward uninit grad_out inputs None weight tw tb (Some f)
   = fused_matmul_backward uninit grad_out inputs
       (Some (mkTensor (shape grad_out_) (data grad_out_) true)) weight tw tb (Some f)) /\
  (shape grad_out_ = [M; N] -> wf grad_out ->
   as_2d inputs = Ok inputs_ -> shape inputs_ = [M; K] -> shape weight = [N; K] ->
   1 <= M ->
   let ga := zip_with (fun a g => mul (f a) g) (data grad_out) (data grad_out) in
   outcome (fused_matmul_backward uninit grad_out inputs None weight tw tb (Some f))
   = Ok (mkTensor (shape inputs) (reference_grad_input M N K ga (data weight)) true,
         (if tw then Some (reference_grad_weight M N K ga (data inputs)) else None),
         (if tb then Some (reference_grad_bias M N ga) else None))) /\
  (forall act_in act gi gw gb,
     outcome (fused_matmul_backward uninit grad_out inputs act_in weight tw tb act)
     = Ok (gi, gw, gb) ->
     shape gi = shape inputs).
Proof.
  intros Hg. split; [|split].
  - unfold fused_matmul_backward.
    assert (Hg' : as_2d (mkTensor (shape grad_out) (data grad_out) true)
                  = Ok (mkTensor (shape grad_out_) (data grad_out_) true)).
    { revert Hg. unfold as_2d, ndim, flatten01. cbn [shape data is_contiguous].
      destruct (length (shape grad_out) =? 2).
      - intros E; inversion E; subst. reflexivity.
      - destruct (shape grad_out) as [|? [|? ?]]; intros E; inversion E; subst. reflexivity. }
    destruct grad_out as [gs gd []]; cbn [is_contiguous shape data] in *;
      unfold contiguous;
      cbn [mbind host_mbind host_bind mret host_mret host_ret emit lift app shape data];
      rewrite Hg'; reflexivity.
  - intros Hgs Hgw Hi His Hws HM ga.
    rewrite (fused_matmul_backward_run uninit grad_out inputs None weight tw tb (Some f)
               grad_out_ inputs_ M N K); try assumption.
    + destruct (as_2d_view grad_out grad_out_ M N Hg Hgs) as (Hgd & _).
      unfold reference_backward, act_data, pre_activation_gradient, ga.
      cbn [outcome snd default]. rewrite Hgd. reflexivity.
    + intros _. split; [exact I|exact HM].
  - intros act_in act gi gw gb E.
    destruct (fused_matmul_backward_triple uninit grad_out inputs act_in weight tw tb act)
      as [_ Hr].
    rewrite E in Hr. cbn [fst snd] in Hr. tauto.
Qed.

End Claims.

(** ** The claims on sample tensors *)

#[export] Instance Z_ScalarLaws : ScalarLaws Z.
Proof. split; intros; cbn; lia. Qed.


(** C1, which the code breaks on an empty batch: the dimension
    precondition holds and the reference is defined, but with an
    activation gradient choosing the block size gives [BLOCK_M = 0] and
    the call raises [ZeroDivisionError] instead of returning the
    reference's gradients; without an activation gradient the same call
    on the same empty batch returns them. *)
Lemma fusion_fails_on_empty_batch :
  shape_at ex_empty_grad_out 1 = shape_at ex_weight 0 /\
  outcome (fused_matmul_backward ex_uninit ex_empty_grad_out ex_empty_inputs None
             ex_weight true true (Some ex_relu_grad))
  = Err ZeroDivisionError /\
  outcome (fused_matmul_backward ex_uninit ex_empty_grad_out ex_empty_inputs None
             ex_weight true true (Some ex_relu_grad))
  <> Ok (reference_backward ex_empty_grad_out ex_empty_inputs None ex_weight 0 2 2
           true true (Some ex_relu_grad)) /\
  outcome (fused_matmul_backward ex_uninit ex_empty_grad_out ex_empty_inputs None
             ex_weight true true None)
  = Ok (reference_backward ex_empty_grad_out ex_empty_inputs None ex_weight 0 2 2
          true true None).
Proof.
  split; [reflexivity|]. split; [vm_compute; reflexivity|].
  split; [vm_compute; discriminate|].
  vm_compute. reflexivity.
Qed.

Lemma masking_preserves_results_witness :
  exists GB,
    outcome (launch_kernel_bw_act (map ex_uninit (seq 0 6)) (replicate 4 0%Z)
               (data ex_grad_out) (data ex_act_in) 3 2 2 2 2 ex_relu_grad true 2 16)
    = Ok ([1; 0; 0; 4; 5; 0]%Z, GB) /\
    sum_dim0 2 2 GB = [6; 4]%Z.
Proof.
  destruct (masking_preserves_results (map ex_uninit (seq 0 6)) (replicate 4 0%Z)
              (data ex_grad_out) (data ex_act_in) 3 2 ex_relu_grad true 2 16
              [(1, 0); (0, 0)])
    as (GB & _ & _ & Hl & Hs); try reflexivity; try lia.
  { apply perm_swap. }
  exists GB. split; [exact Hl|exact Hs].
Defined.

Lemma frozen_stages_are_skipped_witness :
  Forall (fun e => is_weight_event e = false)
    (trace (fused_matmul_backward ex_uninit ex_grad_out ex_inputs (Some ex_act_in)
              ex_weight false false (Some ex_relu_grad))) /\
  Forall (fun e => is_bias_event e = false)
    (trace (fused_matmul_backward ex_uninit ex_grad_out ex_inputs (Some ex_act_in)
              ex_weight false false (Some ex_relu_grad))) /\
  (@None (tensor Z) = None /\ @None (tensor Z) = None).
Proof.
  destruct (frozen_stages_are_skipped ex_uninit ex_grad_out ex_inputs (Some ex_act_in)
              ex_weight false false (Some ex_relu_grad)) as (Hw & Hb & Hr & _).
  split; [apply Hw; reflexivity|]. split; [apply Hb; reflexivity|].
  exact (Hr (mkTensor [3; 1; 2] [1; 2; 12; 16; 5; 10]%Z true) None None eq_refl).
Defined.

Lemma dimension_mismatch_fails_first_witness :
  outcome (fused_matmul_backward ex_uninit ex_grad_out_view ex_inputs (Some ex_act_in)
             ex_weight_3 true true (Some ex_relu_grad)) = Err AssertionError /\
  trace (fused_matmul_backward ex_uninit ex_grad_out_view ex_inputs (Some ex_act_in)
           ex_weight_3 true true (Some ex_relu_grad)) = [EvContiguousCopy].
Proof.
  destruct (dimension_mismatch_fails_first ex_uninit ex_grad_out_view ex_inputs
              (Some ex_act_in) ex_weight_3 true true (Some ex_relu_grad)
              ex_grad_out_view 2 3) as (Ho & Ht & _); try reflexivity; [lia|].
  split; [exact Ho|exact Ht].
Defined.

(** C9 as stated fails: the six listed inputs do not determine the
    result.  Two calls that agree on all of them and differ in the layer
    input return different weight gradients. *)
Lemma six_inputs_do_not_suffice :
  outcome (fused_matmul_backward ex_uninit ex_grad_out ex_inputs (Some ex_act_in)
             ex_weight true true (Some ex_relu_grad))
  <> outcome (fused_matmul_backward ex_uninit ex_grad_out ex_inputs' (Some ex_act_in)
                ex_weight true true (Some ex_relu_grad)).
Proof. vm_compute. intros E. discriminate E. Qed.

Lemma seven_inputs_determine_the_gradients_witness :
  fused_matmul_backward ex_uninit ex_grad_out ex_inputs (Some ex_act_in)
    ex_weight true true (Some ex_relu_grad)
  = fused_matmul_backward (fun i => Z.of_nat i) ex_grad_out ex_inputs (Some ex_act_in)
      ex_weight true true (Some ex_relu_grad).
Proof.
  apply (seven_inputs_determine_the_gradients ex_uninit (fun i => Z.of_nat i)
           ex_grad_out ex_inputs ex_inputs' (Some ex_act_in) ex_weight true true
           (Some ex_relu_grad) ex_grad_out ex_inputs_2d ex_inputs'_2d 3 2 2);
    try reflexivity.
  intros _. split; [repeat split|lia].
Defined.

Lemma missing_act_in_is_grad_out_witness :
  fused_matmul_backward ex_uninit ex_grad_out ex_inputs None ex_weight true true
    (Some ex_relu_grad)
  = fused_matmul_backward ex_uninit ex_grad_out ex_inputs (Some ex_grad_out) ex_weight
      true true (Some ex_relu_grad) /\
  outcome (fused_matmul_backward ex_uninit ex_grad_out ex_inputs None ex_weight true true
             (Some ex_relu_grad))
  = Ok (mkTensor [3; 1; 2] [7; 10; 15; 22; 23; 34]%Z true,
        Some (mkTensor [2; 2] [22; 22; 28; 28]%Z true),
        Some (mkTensor [2] [9; 12]%Z true)).
Proof.
  destruct (missing_act_in_is_grad_out ex_uninit ex_grad_out ex_inputs ex_weight true true
              ex_relu_grad ex_grad_out ex_inputs_2d 3 2 2 eq_refl) as (He & Hv & _).
  split; [exact He|].
  exact (Hv eq_refl eq_refl eq_refl eq_refl eq_refl ltac:(lia)).
Defined.

End FusedBackwardProofs.

(** * The contract of the attention stack *)

Module AttentionProofs.
Import Attention.

Local Open Scope R_scope.

(** ** Sums and reordering *)

Lemma sum_R_perm (l l' : list R) : Permutation l l' -> sum_R l = sum_R l'.
Proof.
  unfold sum_R. induction 1; simpl; lra.
Qed.

Lemma sum_R_ext {A} (f g : A -> R) (l : list A) :
  (forall x, In x l -> f x = g x) -> sum_R (map f l) = sum_R (map g l).
Proof. intros E. f_equal. apply map_ext_in, E. Qed.

Lemma map_nth_seq {A} (d : A) (l : list A) :
  map (fun i => nth i l d) (seq 0 (length l)) = l.
Proof.
  induction l as [|x l IH]; [reflexivity|].
  cbn [length seq map nth]. f_equal.
  rewrite <- seq_shift, map_map. exact IH.
Qed.

Section Reindex.

Variables (sigma : list nat) (n : nat).
Hypothesis sigma_perm : Permutation sigma (seq 0 n).

Lemma sigma_length : length sigma = n.
Proof. rewrite (Permutation_length sigma_perm). apply length_seq. Qed.

Lemma sigma_bound (i : nat) : In i sigma -> (i < n)%nat.
Proof.
  intros Hi. apply (Permutation_in _ sigma_perm) in Hi. apply in_seq in Hi. lia.
Qed.

Lemma sigma_nth_bound (i : nat) : (i < n)%nat -> (nth i sigma 0%nat < n)%nat.
Proof.
  intros Hi. apply sigma_bound, nth_In. rewrite sigma_length. exact Hi.
Qed.

(** Summing over the positions in the order of [sigma] is summing over
    them in order. *)
Lemma sum_R_reindex (g : nat -> R) :
  sum_R (map (fun j => g (nth j sigma 0%nat)) (seq 0 n)) = sum_R (map g (seq 0 n)).
Proof.
  rewrite <- (map_map (fun j => nth j sigma 0%nat) g).
  rewrite <- sigma_length at 1. rewrite map_nth_seq.
  apply sum_R_perm, Permutation_map, sigma_perm.
Qed.

Lemma nth_apply_perm {A} (d : A) (xs : list A) (i : nat) :
  (i < n)%nat -> nth i (apply_perm d sigma xs) d = nth (nth i sigma 0%nat) xs d.
Proof.
  intros Hi. unfold apply_perm.
  rewrite (nth_indep _ d (nth 0 xs d)) by (rewrite length_map, sigma_length; exact Hi).
  apply (map_nth (fun i => nth i xs d)).
Qed.

Lemma length_apply_perm {A} (d : A) (xs : list A) : length (apply_perm d sigma xs) = n.
Proof. unfold apply_perm. rewrite length_map. apply sigma_length. Qed.

(** A map over the positions commutes with the reordering. *)
Lemma map_apply_perm {A B} (f : A -> B) (d : A) (d' : B) (xs : list A) :
  length xs = n ->
  map f (apply_perm d sigma xs) = apply_perm d' sigma (map f xs).
Proof.
  intros Hn. unfold apply_perm. rewrite map_map. apply map_ext_in.
  intros i Hi. apply sigma_bound in Hi.
  rewrite (nth_indep _ d' (f d)) by (rewrite length_map; lia).
  symmetry. apply map_nth.
Qed.

(** A list given position by position, reordered. *)
Lemma apply_perm_tabulate {A} (d : A) (F : nat -> A) :
  map (fun i => F (nth i sigma 0%nat)) (seq 0 n) = apply_perm d sigma (map F (seq 0 n)).
Proof.
  unfold apply_perm.
  rewrite <- (map_map (fun i => nth i sigma 0%nat) F).
  rewrite <- sigma_length at 1. rewrite map_nth_seq.
  apply map_ext_in. intros i Hi. apply sigma_bound in Hi.
  rewrite (nth_indep _ d (F 0%nat)) by (rewrite length_map, length_seq; exact Hi).
  rewrite (map_nth F). rewrite seq_nth by exact Hi. reflexivity.
Qed.

End Reindex.

(** ** Reordering the sequence axis *)

Section Equivariance.

Variables (sigma : list nat) (n : nat).
Hypothesis sigma_perm : Permutation sigma (seq 0 n).

Variable att : AttentionVariant.

(** The mask does not tell the positions apart: it allows a pair exactly
    when it allows the pair of their images. *)
Hypothesis mask_invariant : forall i j, (i < n)%nat -> (j < n)%nat ->
  allowed att i j = allowed att (nth i sigma 0%nat) (nth j sigma 0%nat).

Local Abbreviation P := (apply_perm (@nil R) sigma).

Lemma attend_perm (d i : nat) (q : vec) (K V : list vec) :
  (i < n)%nat -> length K = n ->
  attend att d i q (P K) (P V) = attend att d (nth i sigma 0%nat) q K V.
Proof.
  intros Hi HK. unfold attend.
  rewrite (length_apply_perm sigma n sigma_perm), HK.
  apply map_ext. intros c. f_equal.
  - rewrite <- (sum_R_reindex sigma n sigma_perm
                  (fun j => attention_weight att d (nth i sigma 0%nat) j q (nth j K [])
                            * nth c (nth j V []) 0)).
    apply sum_R_ext. intros j Hj. apply in_seq in Hj.
    rewrite !(nth_apply_perm sigma n sigma_perm) by lia.
    unfold attention_weight. rewrite (mask_invariant i j) by lia. reflexivity.
  - rewrite <- (sum_R_reindex sigma n sigma_perm
                  (fun j => attention_weight att d (nth i sigma 0%nat) j q (nth j K []))).
    apply sum_R_ext. intros j Hj. apply in_seq in Hj.
    rewrite !(nth_apply_perm sigma n sigma_perm) by lia.
    unfold attention_weight. rewrite (mask_invariant i j) by lia. reflexivity.
Qed.

Lemma AttentionVariant_forward_perm (d : nat) (Q K V : list vec) :
  length Q = n -> length K = n ->
  AttentionVariant_forward att d (P Q) (P K) (P V) = P (AttentionVariant_forward att d Q K V).
Proof.
  intros HQ HK. unfold AttentionVariant_forward.
  rewrite (length_apply_perm sigma n sigma_perm), HQ.
  etransitivity;
    [|apply (apply_perm_tabulate sigma n sigma_perm []
               (fun i => attend att d i (nth i Q []) K V))].
  apply map_ext_in. intros i Hi. apply in_seq in Hi.
  rewrite attend_perm by (lia || assumption).
  rewrite (nth_apply_perm sigma n sigma_perm) by lia. reflexivity.
Qed.

Lemma dispatch_heads_perm (mh : MultiHeadDispatch) (Q K V : list vec) :
  attention mh = att ->
  length Q = n -> length K = n -> length V = n ->
  dispatch_heads mh (P Q) (P K) (P V) = P (dispatch_heads mh Q K V).
Proof.
  intros Hatt HQ HK HV. unfold dispatch_heads. rewrite Hatt.
  set (dh := head_dim mh).
  set (heads := map (fun h => AttentionVariant_forward att dh (map (split_head dh h) Q)
                                (map (split_head dh h) K) (map (split_head dh h) V))
                    (seq 0 (num_heads mh))).
  assert (Hheads :
    map (fun h => AttentionVariant_forward att dh (map (split_head dh h) (P Q))
                    (map (split_head dh h) (P K)) (map (split_head dh h) (P V)))
        (seq 0 (num_heads mh)) = map P heads).
  { unfold heads. rewrite map_map. apply map_ext. intros h.
    rewrite !(map_apply_perm sigma n sigma_perm (split_head dh h) [] []) by assumption.
    apply AttentionVariant_forward_perm; rewrite length_map; assumption. }
  rewrite Hheads, (length_apply_perm sigma n sigma_perm).
  set (G := fun i => concat (map (fun hd : list (list R) => nth i hd []) heads)).
  assert (Hmerged :
    map (fun i => concat (map (fun hd : list (list R) => nth i hd []) (map P heads)))
        (seq 0 n)
    = P (map G (seq 0 n))).
  { etransitivity; [|apply (apply_perm_tabulate sigma n sigma_perm [] G)].
    apply map_ext_in. intros i Hi. apply in_seq in Hi. unfold G. f_equal.
    rewrite map_map. apply map_ext. intros hd.
    apply (nth_apply_perm sigma n sigma_perm). lia. }
  rewrite Hmerged, HQ. fold G.
  destruct (out_proj mh) as [l|]; [|reflexivity].
  apply (map_apply_perm sigma n sigma_perm). rewrite length_map, length_seq. reflexivity.
Qed.

End Equivariance.

(** ** Batches *)

Lemma expand_map {A B} (f : A -> B) (n : nat) (x : list A) :
  expand n (map f x) = map f (expand n x).
Proof.
  destruct x as [|a [|b x]]; try reflexivity.
  cbn [map expand]. induction n; simpl; congruence.
Qed.

Lemma expand_Forall {A} (P : A -> Prop) (n : nat) (x : list A) :
  Forall P x -> Forall P (expand n x).
Proof.
  intros Hx. destruct x as [|a [|b x]]; try exact Hx.
  cbn [expand]. inversion Hx; subst. apply Forall_replicate. assumption.
Qed.

Lemma length_expand {A} (n : nat) (x : list A) :
  length x = 1%nat \/ length x = n -> length (expand n x) = n.
Proof.
  destruct x as [|a [|b x]]; cbn [expand length]; intros [E|E];
    try discriminate; try exact E; apply length_replicate.
Qed.

Lemma length_zip_with3 {A B C D} (f : A -> B -> C -> D) (n : nat) (a : list A) (b : list B)
    (c : list C) :
  length a = n -> length b = n -> length c = n -> length (zip_with3 f a b c) = n.
Proof.
  revert a b c. induction n as [|n IH]; intros [|x a] [|y b] [|z c]; simpl;
    try discriminate; auto.
Qed.

Lemma zip_with3_Forall {A B C D} (f : A -> B -> C -> D) (PA : A -> Prop) (PD : D -> Prop)
    (a : list A) (b : list B) (c : list C) :
  (forall x y z, PA x -> PD (f x y z)) ->
  Forall PA a -> Forall PD (zip_with3 f a b c).
Proof.
  intros Hf. revert b c. induction a as [|x a IH]; intros [|y b] [|z c] Ha; simpl;
    try constructor; inversion Ha; subst; auto.
Qed.

Section BatchEquivariance.

Variables (sigma : list nat) (n : nat).
Hypothesis sigma_perm : Permutation sigma (seq 0 n).

Lemma permute_seq_map (f : vec -> vec) (x : list (list vec)) :
  Forall (fun s => length s = n) x ->
  map (map f) (permute_seq sigma x) = permute_seq sigma (map (map f) x).
Proof.
  intros Hx. unfold permute_seq. rewrite !map_map. apply map_ext_in.
  intros s Hs. apply (map_apply_perm sigma n sigma_perm).
  rewrite Forall_forall in Hx. apply Hx. apply list_elem_of_In. exact Hs.
Qed.

Lemma zip_with3_dispatch_perm (mh : MultiHeadDispatch) (a b c : list (list vec)) :
  (forall i j, (i < n)%nat -> (j < n)%nat ->
     allowed (attention mh) i j
     = allowed (attention mh) (nth i sigma 0%nat) (nth j sigma 0%nat)) ->
  Forall (fun s => length s = n) a -> Forall (fun s => length s = n) b ->
  Forall (fun s => length s = n) c ->
  zip_with3 (dispatch_heads mh) (permute_seq sigma a) (permute_seq sigma b)
    (permute_seq sigma c)
  = permute_seq sigma (zip_with3 (dispatch_heads mh) a b c).
Proof.
  intros Hmask. revert b c.
  induction a as [|x a IH]; intros [|y b] [|z c] Ha Hb Hc; try reflexivity.
  apply Forall_cons in Ha as [Hx Ha], Hb as [Hy Hb], Hc as [Hz Hc].
  cbn [permute_seq map zip_with3]. f_equal.
  - apply (dispatch_heads_perm sigma n sigma_perm (attention mh)); auto.
  - apply IH; assumption.
Qed.

End BatchEquivariance.

(** ** Claim C4 *)

(** The result of [forward] with its sequence axis reordered. *)
Local Abbreviation permuted sigma r :=
  (match r with
   | Ok out => Ok (permute_seq sigma out)
   | Err e => Err e
   end).

(** C4 (as amended).  Order invariance holds for the variants whose mask
    does not tell the permuted positions apart, the dense variant without
    causal masking among them, with dropout disabled: for every
    permutation [sigma] of the [n] positions, at any sequence length,
    running [forward] on query, key and value reordered by [sigma] gives
    the output of the original run reordered by [sigma], exactly. *)
Theorem order_invariance (sigma : list nat) (n : nat) (mh : MultiHeadDispatch)
    (query key value query' key' value' : Tensor) :
  Permutation sigma (seq 0 n) ->
  (forall i j, (i < n)%nat -> (j < n)%nat ->
     allowed (attention mh) i j
     = allowed (attention mh) (nth i sigma 0%nat) (nth j sigma 0%nat)) ->
  Forall (fun s => length s = n) (val query) ->
  Forall (fun s => length s = n) (val key) ->
  Forall (fun s => length s = n) (val value) ->
  val query' = permute_seq sigma (val query) ->
  val key' = permute_seq sigma (val key) ->
  val value' = permute_seq sigma (val value) ->
  (obj key' =? obj query')%nat = (obj key =? obj query)%nat ->
  (obj value' =? obj query')%nat = (obj value =? obj query)%nat ->
  forward mh query' key' value' = permuted sigma (forward mh query key value).
Proof.
  intros Hperm Hmask Hq Hk Hv Eq Ek Ev Iq Iv.
  unfold forward, project. rewrite Iq, Iv, Eq, Ek, Ev.
  destruct (self_attention (in_proj_container mh) && _); [reflexivity|].
  rewrite !(permute_seq_map sigma n Hperm) by assumption.
  set (X := map (map (apply_linear (q_proj (in_proj_container mh)))) (val query)).
  set (Y := map (map (apply_linear (k_proj (in_proj_container mh)))) (val key)).
  set (Z := map (map (apply_linear (v_proj (in_proj_container mh)))) (val value)).
  assert (HX : Forall (fun s : list vec => length s = n) X /\
               Forall (fun s : list vec => length s = n) Y /\
               Forall (fun s : list vec => length s = n) Z).
  { unfold X, Y, Z. repeat split; apply Forall_map;
      (eapply Forall_impl; [eassumption|]); intros s Hs; cbn; rewrite length_map; exact Hs. }
  destruct HX as (HX & HY & HZ).
  replace (length (permute_seq sigma X)) with (length X) by (unfold permute_seq; now rewrite length_map).
  replace (length (permute_seq sigma Y)) with (length Y) by (unfold permute_seq; now rewrite length_map).
  replace (length (permute_seq sigma Z)) with (length Z) by (unfold permute_seq; now rewrite length_map).
  destruct (broadcast_batch _ _ _) as [B|e]; [|reflexivity].
  f_equal. unfold permute_seq at 1 2 3. rewrite !expand_map.
  apply (zip_with3_dispatch_perm sigma n Hperm mh); try exact Hmask;
    apply expand_Forall; assumption.
Qed.

Lemma order_invariance_witness :
  forward (ex_multi_head dense false) ex_x_shuffled ex_x_shuffled ex_x_shuffled
  = permuted [1; 0]%nat (forward (ex_multi_head dense false) ex_x ex_x ex_x).
Proof.
  apply (order_invariance [1; 0]%nat 2 (ex_multi_head dense false)
           ex_x ex_x ex_x ex_x_shuffled ex_x_shuffled ex_x_shuffled);
    try reflexivity.
  - apply perm_swap.
  - repeat constructor.
  - repeat constructor.
  - repeat constructor.
Defined.

(** The weight of a pair without similarity is 1. *)
Lemma exp_zero_similarity (x y : R) : x = 0 -> exp (x / y) = 1.
Proof. intros ->. unfold Rdiv. rewrite Rmult_0_l. apply exp_0. Qed.

(** C4 as stated fails for a variant in its scope, the dense variant
    with the causal flag: on a sequence of two positions and their swap,
    position 1 of the run on the swapped input averages both values
    (1/2), while the reordered output of the original run holds there the
    output of the original position 0, which sees only itself (0). *)
Lemma causal_attention_is_order_sensitive :
  val ex_x_shuffled = permute_seq [1; 0]%nat (val ex_x) /\
  forward (ex_multi_head dense_causal false) ex_x_shuffled ex_x_shuffled ex_x_shuffled
  <> permuted [1; 0]%nat (forward (ex_multi_head dense_causal false) ex_x ex_x ex_x).
Proof.
  split; [reflexivity|]. intros E.
  apply (f_equal second_position) in E.
  cbn in E.
  rewrite !exp_zero_similarity in E by (unfold dot; cbn; lra).
  lra.
Qed.

(** ** Claim C5 *)

Lemma length_concat_uniform {A} (k : nat) (l : list (list A)) :
  (forall x, In x l -> length x = k) -> length (concat l) = (length l * k)%nat.
Proof.
  induction l as [|x l IH]; intros Hl; [reflexivity|].
  cbn [concat length]. rewrite length_app, IH by (intros; apply Hl; simpl; auto).
  rewrite (Hl x) by (simpl; auto). lia.
Qed.

Lemma length_apply_linear (l : Linear) (E : nat) (x : vec) :
  linear_out l E -> length (apply_linear l x) = E.
Proof.
  intros [Hw Hb]. unfold apply_linear.
  destruct (lin_bias l) as [b|].
  - rewrite length_zip_with, length_map. lia.
  - rewrite length_map. exact Hw.
Qed.

(** The output of a batch element has one embedding per query
    position. *)
Lemma dispatch_heads_shape (mh : MultiHeadDispatch) (E : nat) (Q K V : list vec) :
  well_formed mh E ->
  length (dispatch_heads mh Q K V) = length Q /\
  Forall (fun e => length e = E) (dispatch_heads mh Q K V).
Proof.
  intros (HE & Hdiv & Hout). unfold dispatch_heads.
  set (dh := head_dim mh) in *.
  set (heads := map _ (seq 0 (num_heads mh))).
  destruct (out_proj mh) as [l|].
  - split; [now rewrite !length_map, length_seq|].
    apply Forall_map, Forall_forall. intros m _. cbn. apply length_apply_linear, Hout.
  - split; [now rewrite length_map, length_seq|].
    apply Forall_forall. intros e He. apply list_elem_of_In, in_map_iff in He.
    destruct He as (i & <- & Hi). apply in_seq in Hi.
    rewrite (length_concat_uniform dh).
    + unfold heads. rewrite !length_map, length_seq. lia.
    + intros x Hx. apply in_map_iff in Hx as (hd & <- & Hhd).
      unfold heads in Hhd. apply in_map_iff in Hhd as (h & <- & _).
      unfold AttentionVariant_forward. rewrite length_map.
      rewrite (nth_indep _ [] (attend (attention mh) dh 0 (nth 0 (map (split_head dh h) Q) [])
                                 (map (split_head dh h) K) (map (split_head dh h) V)))
        by (rewrite length_map, length_seq; lia).
      rewrite (map_nth (fun i => attend (attention mh) dh i
                                   (nth i (map (split_head dh h) Q) [])
                                   (map (split_head dh h) K) (map (split_head dh h) V))).
      unfold attend. rewrite length_map, length_seq. reflexivity.
Qed.

Lemma broadcast_batch_cases (B bq bk bv : nat) :
  (1 < B)%nat ->
  In (bq, bk, bv) (broadcast_cases B) ->
  broadcast_batch bq bk bv = Ok B /\
  (bq = 1%nat \/ bq = B) /\ (bk = 1%nat \/ bk = B) /\ (bv = 1%nat \/ bv = B).
Proof.
  intros HB Hin.
  assert (Hmax : Nat.max bq (Nat.max bk bv) = B /\
                 (bq = 1%nat \/ bq = B) /\ (bk = 1%nat \/ bk = B) /\ (bv = 1%nat \/ bv = B)).
  { unfold broadcast_cases in Hin.
    repeat (destruct Hin as [Hin|Hin]; [inversion Hin; subst bq bk bv; clear Hin; lia|]).
    contradiction. }
  destruct Hmax as (Hmax & Hq & Hk & Hv).
  split; [|tauto]. unfold broadcast_batch. rewrite Hmax.
  assert (Hok : forall b, b = 1%nat \/ b = B -> (b =? 1)%nat || (b =? B)%nat = true).
  { intros b [->| ->]; rewrite Nat.eqb_refl; [reflexivity|apply orb_true_r]. }
  rewrite !Hok by assumption. reflexivity.
Qed.

(** C5.  For each of the six combinations of batch sizes with [B > 1],
    [forward] succeeds and its output has shape [B, seq_q, embedding]:
    the batch sizes resolve to the largest of them. *)
Theorem broadcast_batch_dimension (mh : MultiHeadDispatch) (query key value : Tensor)
    (B bq bk bv seq_q seq_kv E : nat) :
  (1 < B)%nat ->
  In (bq, bk, bv) (broadcast_cases B) ->
  well_formed mh E ->
  self_attention (in_proj_container mh) = false ->
  has_shape (val query) bq seq_q E ->
  has_shape (val key) bk seq_kv E ->
  has_shape (val value) bv seq_kv E ->
  exists out, forward mh query key value = Ok out /\ has_shape out B seq_q E.
Proof.
  intros HB Hin Hwf Hsa [Lq Fq] [Lk _] [Lv _].
  destruct (broadcast_batch_cases B bq bk bv HB Hin) as (Hbc & Hq & Hk & Hv).
  unfold forward, project. rewrite Hsa. cbn [andb].
  rewrite !length_map, Lq, Lk, Lv, Hbc.
  eexists. split; [reflexivity|]. split.
  - apply length_zip_with3; apply length_expand; rewrite length_map; lia.
  - apply (zip_with3_Forall _ (fun s : list vec => length s = seq_q)).
    + intros Q K V HQ. destruct (dispatch_heads_shape mh E Q K V Hwf) as [L F].
      split; [exact (eq_trans L HQ)|exact F].
    + apply expand_Forall, Forall_map.
      eapply Forall_impl; [exact Fq|]. intros s [Hs _]. cbn. rewrite length_map. exact Hs.
Qed.

Lemma broadcast_batch_dimension_witness :
  exists out, forward (ex_multi_head dense false) ex_x ex_pair ex_pair = Ok out /\
              has_shape out 2 2 1.
Proof.
  apply (broadcast_batch_dimension (ex_multi_head dense false) ex_x ex_pair ex_pair
           2 1 2 2 2 2 1).
  - lia.
  - left. reflexivity.
  - repeat split.
  - reflexivity.
  - split; [reflexivity|]. repeat constructor.
  - split; [reflexivity|]. repeat constructor.
  - split; [reflexivity|]. repeat constructor.
Defined.

(** ** Claim C6 *)

Lemma sum_R_ones {A} (l : list A) : sum_R (map (fun _ => 1) l) = INR (length l).
Proof.
  induction l as [|x l IH]; [reflexivity|].
  cbn [map sum_R fold_right length]. fold (sum_R (map (fun _ : A => 1) l)).
  rewrite IH, S_INR. lra.
Qed.

Lemma map_const_seq {A B} (c : B) (l : list A) (s : nat) :
  map (fun _ => c) l = map (fun _ => c) (seq s (length l)).
Proof.
  revert s. induction l as [|a l IH]; intros s; [reflexivity|].
  cbn [map length seq]. f_equal. apply IH.
Qed.

(** Without similarity the dense variant weighs every key by 1, and
    every query position gets the uniform average of the values. *)
Lemma dense_zero_similarity (d : nat) (Q K V : list vec) :
  (forall q k, In q Q -> In k K -> dot q k = 0) ->
  length V = length K ->
  AttentionVariant_forward dense d Q K V = map (fun _ => uniform_average d V) Q.
Proof.
  intros Hzero HV. unfold AttentionVariant_forward.
  rewrite (map_const_seq (uniform_average d V) Q 0).
  apply map_ext_in. intros i Hi. apply in_seq in Hi.
  unfold attend, uniform_average. apply map_ext. intros c. rewrite HV.
  assert (Hw : forall j, In j (seq 0 (length K)) ->
                 attention_weight dense d i j (nth i Q []) (nth j K []) = 1).
  { intros j Hj. apply in_seq in Hj. unfold attention_weight. cbn [dense allowed].
    apply exp_zero_similarity. apply Hzero; apply nth_In; lia. }
  f_equal.
  - apply sum_R_ext. intros j Hj. rewrite (Hw j Hj). lra.
  - transitivity (sum_R (map (fun _ => 1) (seq 0 (length K)))).
    + apply sum_R_ext. exact Hw.
    + rewrite sum_R_ones, length_seq. reflexivity.
Qed.

(** C6 (as amended).  When the similarity of every query with every key
    is zero, the dense variant returns at every query position the
    uniform average of the value vectors, the same at all positions; and
    two batch elements give different outputs exactly when the uniform
    averages of their value tensors differ. *)
Theorem zero_similarity_gives_uniform_average (d : nat) (Q K V V' : list vec) :
  (forall q k, In q Q -> In k K -> dot q k = 0) ->
  length V = length K -> length V' = length K ->
  AttentionVariant_forward dense d Q K V = map (fun _ => uniform_average d V) Q /\
  (Q <> [] ->
   (AttentionVariant_forward dense d Q K V <> AttentionVariant_forward dense d Q K V'
    <-> uniform_average d V <> uniform_average d V')).
Proof.
  intros Hzero HV HV'.
  split; [apply dense_zero_similarity; assumption|].
  intros HQ. rewrite !dense_zero_similarity by assumption.
  destruct Q as [|q Q]; [contradiction|]. cbn [map].
  split; intros Hne E; apply Hne; [rewrite E; reflexivity|].
  inversion E. reflexivity.
Qed.

Lemma ex_no_similarity (q k : vec) : In q ex_Q -> In k ex_K -> dot q k = 0.
Proof.
  unfold ex_Q, ex_K. cbn [In].
  intros [<-|[<-|[]]] [<-|[<-|[]]]; unfold dot; cbn; lra.
Qed.

Lemma zero_similarity_gives_uniform_average_witness :
  AttentionVariant_forward dense 2 ex_Q ex_K ex_V1
  = map (fun _ => uniform_average 2 ex_V1) ex_Q.
Proof.
  apply (zero_similarity_gives_uniform_average 2 ex_Q ex_K ex_V1 ex_V2);
    [exact ex_no_similarity|reflexivity|reflexivity].
Defined.

(** C6 as stated fails in its last part: two batch elements whose value
    tensors differ and have the same average produce the same output. *)
Lemma different_values_same_output :
  ex_V1 <> ex_V2 /\
  (forall q k, In q ex_Q -> In k ex_K -> dot q k = 0) /\
  AttentionVariant_forward dense 2 ex_Q ex_K ex_V1
  = AttentionVariant_forward dense 2 ex_Q ex_K ex_V2.
Proof.
  split; [|split].
  - unfold ex_V1, ex_V2. intros E. inversion E. lra.
  - exact ex_no_similarity.
  - rewrite !dense_zero_similarity by (exact ex_no_similarity || reflexivity).
    unfold uniform_average, ex_V1, ex_V2. cbn.
    replace (0 + (2 + 0)) with (2 + (0 + 0)) by lra.
    replace (0 + (4 + 0)) with (4 + (0 + 0)) by lra.
    reflexivity.
Qed.

(** ** Claim C7 *)

(** C7.  Building an [InputProjection] for self-attention from key or
    value parameters that differ from the query's in a size or in the
    bias flag fails, at construction; and a call of a [MultiHeadDispatch]
    configured for self-attention fails when the key or the value is not
    the very object passed as query, whatever the values they hold. *)
Theorem self_attention_misuse_fails :
  (forall (qp : InProjParams) (kp vp : option InProjParams)
          (fresh : nat -> InProjParams -> Linear) (p : InProjParams),
     kp = Some p \/ vp = Some p ->
     in_features p <> in_features qp \/ out_features p <> out_features qp \/
     bias p <> bias qp ->
     InputProjection_init qp kp vp true fresh = Err AssertionError) /\
  (forall (mh : MultiHeadDispatch) (query key value : Tensor),
     self_attention (in_proj_container mh) = true ->
     obj key <> obj query \/ obj value <> obj query ->
     forward mh query key value = Err AssertionError).
Proof.
  split.
  - intros qp kp vp fresh p Hp Hdiff. unfold InputProjection_init.
    assert (Hs : same_structure qp p = false).
    { unfold same_structure. apply andb_false_iff.
      destruct Hdiff as [Hd|[Hd|Hd]].
      - left. apply andb_false_iff. left. apply Nat.eqb_neq. congruence.
      - left. apply andb_false_iff. right. apply Nat.eqb_neq. congruence.
      - right. apply Bool.eqb_false_iff. congruence. }
    destruct Hp as [-> | ->]; change (default qp (Some p)) with p;
      rewrite Hs, ?andb_false_r; reflexivity.
  - intros mh query key value Hsa Hobj. unfold forward, project. rewrite Hsa.
    assert (Hid : (obj key =? obj query)%nat && (obj value =? obj query)%nat = false).
    { apply andb_false_iff. destruct Hobj as [Hd|Hd]; [left|right]; apply Nat.eqb_neq, Hd. }
    rewrite Hid. reflexivity.
Qed.

Lemma self_attention_misuse_fails_witness :
  InputProjection_init ex_in_params (Some ex_in_params_flip) (Some ex_in_params_flip)
    true ex_fresh = Err AssertionError /\
  val ex_x_copy = val ex_x /\
  forward (ex_multi_head dense true) ex_x ex_x ex_x_copy = Err AssertionError.
Proof.
  destruct self_attention_misuse_fails as [Hinit Hcall].
  split; [|split; [reflexivity|]].
  - apply (Hinit ex_in_params (Some ex_in_params_flip) (Some ex_in_params_flip) ex_fresh
             ex_in_params_flip).
    + left. reflexivity.
    + right. left. cbn. lia.
  - apply Hcall.
    + reflexivity.
    + right. cbn. lia.
Defined.

End AttentionProofs.

(** * Further properties of the fused backward pass *)

Module FusedBackwardProperties.
Import FusedBackward FusedBackwardProofs.

(** ** The block size and the grid of the launch *)

Lemma block_size_ok_small : forallb block_size_ok (seq 1 2048) = true.
Proof. vm_compute. reflexivity. Qed.

(** One step of the bit smearing keeps a number at or above 2048. *)
Lemma smear_large (a k : Z) : (2048 <= a -> 2048 <= Z.lor a (Z.shiftr a k))%Z.
Proof.
  intros Ha.
  assert (Hs : (0 <= Z.shiftr a k)%Z) by (apply Z.shiftr_nonneg; lia).
  assert (Hnn : (0 <= Z.lor a (Z.shiftr a k))%Z) by (apply Z.lor_nonneg; lia).
  assert (Hpos : (0 < Z.lor a (Z.shiftr a k))%Z).
  { destruct (Z.eq_dec (Z.lor a (Z.shiftr a k)) 0%Z) as [E|E]; [|lia].
    apply Z.lor_eq_0_iff in E. lia. }
  change 2048%Z with (2 ^ 11)%Z. apply Z.log2_le_pow2; [exact Hpos|].
  rewrite Z.log2_lor by lia.
  assert (11 <= Z.log2 a)%Z by (apply Z.log2_le_pow2; [lia|exact Ha]).
  lia.
Qed.

Lemma next_power_of_2_large (n : Z) : (2048 < n)%Z -> (2048 < next_power_of_2 n)%Z.
Proof.
  intros Hn. unfold next_power_of_2. cbv zeta.
  assert (H0 : (2048 <= n - 1)%Z) by lia.
  pose proof (smear_large _ 1%Z H0) as H1.
  pose proof (smear_large _ 2%Z H1) as H2.
  pose proof (smear_large _ 4%Z H2) as H3.
  pose proof (smear_large _ 8%Z H3) as H4.
  pose proof (smear_large _ 16%Z H4) as H5.
  lia.
Qed.

Lemma choose_BLOCK_M_spec (M : nat) :
  1 <= M ->
  exists k, k <= 11 /\ choose_BLOCK_M M = 2 ^ k /\
            Nat.min M 2048 <= choose_BLOCK_M M /\ choose_BLOCK_M M < 2 * M.
Proof.
  intros HM. destruct (Nat.le_gt_cases M 2048) as [Hs|Hl].
  - pose proof block_size_ok_small as Hall.
    rewrite forallb_forall in Hall.
    specialize (Hall M ltac:(apply in_seq; lia)).
    unfold block_size_ok in Hall. cbv zeta in Hall.
    apply andb_true_iff in Hall as [Hall Hlt].
    apply andb_true_iff in Hall as [Hex Hle].
    apply existsb_exists in Hex as (k & Hk & Ek).
    apply in_seq in Hk. apply Nat.eqb_eq in Ek.
    apply Nat.leb_le in Hle. apply Nat.ltb_lt in Hlt.
    exists k. split; [lia|]. split; [exact Ek|]. split; [lia|exact Hlt].
  - exists 11. assert (E : choose_BLOCK_M M = 2048).
    { unfold choose_BLOCK_M.
      pose proof (next_power_of_2_large (Z.of_nat M) ltac:(lia)).
      rewrite Z.min_r by lia. reflexivity. }
    rewrite E. split; [lia|]. split; [reflexivity|]. split; lia.
Qed.

Lemma choose_BLOCK_M_large (M : nat) : 2048 < M -> choose_BLOCK_M M = 2048.
Proof.
  intros HM. destruct (choose_BLOCK_M_spec M ltac:(lia)) as (k & Hk & E & Hlo & _).
  assert (2 ^ k <= 2 ^ 11) by (apply Nat.pow_le_mono_r; lia).
  change (2 ^ 11) with 2048 in *. lia.
Qed.

Lemma choose_BLOCK_M_zero : choose_BLOCK_M 0 = 0.
Proof. vm_compute. reflexivity. Qed.

Lemma cdiv_one (M BM : nat) : 1 <= M -> M <= BM -> (M + BM - 1) / BM = 1.
Proof.
  intros HM Hle. symmetry. apply (Nat.div_unique _ _ _ (M - 1)); lia.
Qed.

(** For a batch of at least one row, the block size that
    [fused_matmul_backward] chooses, [min(next_power_of_2(M), 2048)], is
    a power of two, as [tl.arange] requires, of at most 2048; it covers
    the batch up to 2048 rows, is less than twice the batch, and is the
    least power of two that covers the batch, or 2048. *)
Theorem block_size_is_a_power_of_two (M : nat) :
  1 <= M ->
  exists k, k <= 11 /\ choose_BLOCK_M M = 2 ^ k /\
            Nat.min M 2048 <= choose_BLOCK_M M /\ choose_BLOCK_M M < 2 * M /\
            forall j, M <= 2 ^ j -> choose_BLOCK_M M <= 2 ^ j.
Proof.
  intros HM. destruct (choose_BLOCK_M_spec M HM) as (k & Hk & Ek & Hlo & Hhi).
  exists k. split; [exact Hk|]. split; [exact Ek|]. split; [exact Hlo|]. split; [exact Hhi|].
  intros j Hj. rewrite Ek in *. apply Nat.pow_le_mono_r; [lia|].
  assert (k < S j); [|lia].
  apply (Nat.pow_lt_mono_r_iff 2); [lia|]. rewrite Nat.pow_succ_r'. lia.
Qed.

(** The grid of the launch has one row of programs for a batch of up to
    2048 rows, so that the buffer of partial bias sums has one row; a
    larger batch takes [cdiv(M, 2048)] rows of programs. *)
Theorem one_row_of_programs_up_to_2048 (M : nat) :
  1 <= M ->
  cdiv M (choose_BLOCK_M M) = Ok (if M <=? 2048 then 1 else (M + 2047) / 2048).
Proof.
  intros HM. pose proof (choose_BLOCK_M_pos M HM) as HB.
  unfold cdiv. destruct (Nat.eqb_spec (choose_BLOCK_M M) 0) as [|_]; [lia|]. f_equal.
  destruct (Nat.leb_spec M 2048) as [Hs|Hl].
  - destruct (choose_BLOCK_M_spec M HM) as (k & _ & _ & Hlo & _).
    apply cdiv_one; lia.
  - rewrite choose_BLOCK_M_large by exact Hl. f_equal. lia.
Qed.

(** The grid [(cdiv(M, BLOCK_M), cdiv(N, BLOCK_N))] holds exactly the
    programs whose tile starts inside the matrix: every element is
    covered, and no program is launched on a tile that is all
    padding. *)
Theorem grid_is_the_programs_with_a_tile (M N BLOCK_M BLOCK_N gm gn : nat) :
  cdiv M BLOCK_M = Ok gm -> cdiv N BLOCK_N = Ok gn ->
  forall pid_m pid_n,
    In (pid_m, pid_n) (program_ids (gm, gn)) <-> pid_m * BLOCK_M < M /\ pid_n * BLOCK_N < N.
Proof.
  unfold cdiv.
  destruct (Nat.eqb_spec BLOCK_M 0) as [|HM]; [discriminate|].
  destruct (Nat.eqb_spec BLOCK_N 0) as [|HN]; [discriminate|].
  intros Em En pm pn. inversion Em; inversion En; subst. clear Em En.
  rewrite program_ids_grid.
  assert (Hg : forall X B p, B <> 0 -> p < (X + B - 1) / B <-> p * B < X).
  { intros X B p HB. split.
    - intros Hp. pose proof (Nat.div_mod_eq (X + B - 1) B) as E.
      pose proof (Nat.mod_upper_bound (X + B - 1) B HB) as U. nia.
    - intros Hp. pose proof (cdiv_covers X B ltac:(lia)). nia. }
  rewrite !Hg by assumption. reflexivity.
Qed.

(** With the block sizes of the host function ([BLOCK_N = 16]), the
    heuristic sets [EVEN_BLOCKS], the unmasked fast path, exactly when
    the batch size is a power of two (a multiple of 2048 above 2048) and
    the number of output features is a multiple of 16. *)
Theorem fast_path_of_the_host_launch (M N : nat) :
  1 <= M ->
  EVEN_BLOCKS_heuristic M N (choose_BLOCK_M M) 16 = Ok true <->
  (if M <=? 2048 then exists k, M = 2 ^ k else M mod 2048 = 0) /\ N mod 16 = 0.
Proof.
  intros HM. pose proof (choose_BLOCK_M_pos M HM) as HB.
  unfold EVEN_BLOCKS_heuristic, py_mod.
  destruct (Nat.eqb_spec (choose_BLOCK_M M) 0) as [|_]; [lia|].
  cbn [Nat.eqb].
  assert (Hrows : M mod choose_BLOCK_M M = 0 <->
                  if M <=? 2048 then exists k, M = 2 ^ k else M mod 2048 = 0).
  { destruct (Nat.leb_spec M 2048) as [Hs|Hl].
    - destruct (choose_BLOCK_M_spec M HM) as (k & _ & Ek & Hlo & Hhi).
      split.
      + intros E. exists k. rewrite <- Ek.
        destruct (Nat.eq_dec M (choose_BLOCK_M M)) as [|Hne]; [assumption|].
        rewrite Nat.mod_small in E by lia. lia.
      + intros [k' ->]. rewrite Ek in *.
        assert (k' <= k) by (apply (Nat.pow_le_mono_r_iff 2); lia).
        assert (k < S k')
          by (apply (Nat.pow_lt_mono_r_iff 2); [lia|]; rewrite Nat.pow_succ_r'; lia).
        replace k with k' by lia. apply Nat.Div0.mod_same.
    - rewrite choose_BLOCK_M_large by exact Hl. reflexivity. }
  split.
  - intros E. inversion E as [E']. apply andb_true_iff in E' as [E1 E2].
    apply Nat.eqb_eq in E1, E2. split; [apply Hrows, E1|exact E2].
  - intros [E1 E2]. apply Hrows in E1. rewrite E1, E2. reflexivity.
Qed.

(** ** What a program writes, and where the fast path faults *)

Lemma last_lane_out_of_range (M N BM BN gm gn : nat) :
  0 < BM -> 0 < BN -> 1 <= M -> 1 <= N -> M <= gm * BM -> N <= gn * BN ->
  M <> gm * BM \/ N <> gn * BN ->
  M * N <= ((gm - 1) * BM + (BM - 1)) * N + ((gn - 1) * BN + (BN - 1)).
Proof.
  intros HBM HBN HM HN Hgm Hgn Hne.
  destruct gm as [|g]; [lia|]. destruct gn as [|h]; [lia|].
  destruct BM as [|b]; [lia|]. destruct BN as [|c]; [lia|].
  replace (S g - 1) with g by lia. replace (S h - 1) with h by lia.
  replace (S b - 1) with b by lia. replace (S c - 1) with c by lia.
  assert (M - 1 <= g * S b + b) by nia.
  assert (N - 1 <= h * S c + c) by nia.
  destruct Hne as [Hne|Hne].
  - assert (M <= g * S b + b) by nia. nia.
  - assert (N <= h * S c + c) by nia.
    assert ((M - 1) * N <= (g * S b + b) * N) by (apply Nat.mul_le_mono_r; lia).
    nia.
Qed.

Section Kernel.

Context {F : Type} `{Scalar F}.

(** A store leaves alone the addresses of no active lane. *)
Lemma write_lanes_frame ls : forall (buf : list F) a,
  (forall v, ~ In (a, v, true) ls) ->
  foldl write_lane buf ls !! a = buf !! a.
Proof.
  induction ls as [|[[p v] m] ls IH]; intros buf a Hno; simpl; [reflexivity|].
  rewrite IH by (intros v' Hin; apply (Hno v'); right; exact Hin).
  destruct m; [|reflexivity].
  apply list_lookup_insert_ne. intros ->. apply (Hno v). left. reflexivity.
Qed.

Lemma tl_load2_None BM BN (buf : list F) ptrs mask other i j :
  i < BM -> j < BN -> mask i j = true -> length buf <= ptrs i j ->
  tl_load2 BM BN buf ptrs mask other = None.
Proof.
  intros Hi Hj Hm Hp. unfold tl_load2.
  destruct (forallb _ _) eqn:E; [|reflexivity].
  rewrite forallb_forall in E.
  specialize (E (i, j) ltac:(apply in_prod_iff; split; apply in_seq; lia)).
  simpl in E. rewrite Hm in E. simpl in E. apply Nat.ltb_lt in E. lia.
Qed.

(** A launch faults as soon as one of its programs does, wherever it
    comes in the order. *)
Lemma run_programs_fault k ids pm pn :
  In (pm, pn) ids ->
  (forall ga gb : list F, k ga gb pm pn = None) ->
  forall ga gb, run_programs k ids ga gb = None.
Proof.
  intros Hin Hk. induction ids as [|[pm0 pn0] ids IH]; intros ga gb; [destruct Hin|].
  rewrite run_programs_cons.
  destruct Hin as [E|Hin].
  - inversion E; subst. rewrite Hk. reflexivity.
  - destruct (k ga gb pm0 pn0) as [[ga' gb']|]; [apply IH, Hin|reflexivity].
Qed.

(** What a program that returns has stored: the lanes of its two
    stores. *)
Lemma kernel_bw_act_stores (ga gb GO AI : list F) (M N sg sa sb BM BN : nat) (e : bool)
    (f : F -> F) (cdb : bool) (pid_m pid_n : nat) (ga' gb' : list F) :
  kernel_bw_act ga gb GO AI M N sg sa sb BM BN e f cdb pid_m pid_n = Some (ga', gb') ->
  let rm := fun i : nat => pid_m * BM + i in
  let rn := fun j : nat => pid_n * BN + j in
  let amask := fun i j : nat => if e then true else (rn j <? N) && (rm i <? M) in
  exists vals bvals,
    ga' = foldl write_lane ga
            (map (fun '(i, j) => (rm i * sg + rn j, vals i j, amask i j)) (lanes2 BM BN)) /\
    gb' = if cdb
          then foldl write_lane gb
                 (map (fun j => (pid_m * sb + rn j, bvals j, rn j <? N)) (seq 0 BN))
          else gb.
Proof.
  intros E rm rn amask. rewrite kernel_bw_act_paths in E. cbv zeta in E.
  repeat match type of E with
         | (mbind _ (tl_load2 ?a ?b ?c ?d ?m ?o)) = Some _ =>
             destruct (tl_load2 a b c d m o); cbn [mbind option_bind] in E; [|discriminate]
         end.
  unfold tl_store2, tl_store1 in E. rewrite !store_lanes_eq in E.
  match type of E with
  | (mbind _ (if ?c then _ else _)) = Some _ =>
      destruct c; cbn [mbind option_bind] in E; [|discriminate]
  end.
  destruct cdb.
  - match type of E with
    | (mbind _ (if ?c then _ else _)) = Some _ =>
        destruct c; cbn [mbind option_bind] in E; [|discriminate]
    end.
    inversion E; subst. unfold amask, rm, rn.
    destruct e; eexists _, _; split; reflexivity.
  - inversion E; subst. unfold amask, rm, rn.
    destruct e; eexists _, (fun _ => zero); split; reflexivity.
Qed.

(** A program of [kernel_bw_act] that returns has changed [GRAD_ACT]
    only inside its own tile of the [M x N] matrix, and [GRAD_BIAS]
    only in its own row of partial sums and under the columns of its
    tile (on the fast path, when [BLOCK_N] divides [N]): the cells of
    all other tiles keep what they held, so no two programs of a grid
    write the same cell. *)
Theorem a_program_writes_only_its_tile (ga gb GO AI : list F) (M N sa BM BN : nat)
    (e : bool) (f : F -> F) (cdb : bool) (pid_m pid_n : nat) (ga' gb' : list F) :
  kernel_bw_act ga gb GO AI M N N sa N BM BN e f cdb pid_m pid_n = Some (ga', gb') ->
  (e = true -> N mod BN = 0 /\ pid_n < (N + BN - 1) / BN) ->
  (forall m n, n < N -> m / BM <> pid_m \/ n / BN <> pid_n ->
     ga' !! (m * N + n) = ga !! (m * N + n)) /\
  (forall p n, n < N -> p <> pid_m \/ n / BN <> pid_n ->
     gb' !! (p * N + n) = gb !! (p * N + n)) /\
  length ga' = length ga /\ length gb' = length gb.
Proof.
  intros E Heven.
  destruct (kernel_bw_act_stores _ _ _ _ _ _ _ _ _ _ _ _ _ _ _ _ _ _ E)
    as (vals & bvals & -> & ->).
  assert (Hcol : forall i j, i < BM -> j < BN ->
            (if e then true else (pid_n * BN + j <? N) && (pid_m * BM + i <? M)) = true ->
            pid_n * BN + j < N).
  { intros i j Hi Hj Hm. destruct e.
    - destruct (Heven eq_refl) as [E1 E2]. apply even_tile_in_range; (lia || assumption).
    - apply andb_true_iff in Hm as [Hm _]. apply Nat.ltb_lt, Hm. }
  split; [|split; [|split]].
  - intros m n Hn Hout. apply write_lanes_frame. intros v Hin.
    apply in_map_iff in Hin as [[i j] [Eq Hin]].
    apply in_prod_iff in Hin as [Hi Hj]. apply in_seq in Hi, Hj.
    inversion Eq as [[Ea Ev Em]]. clear Eq Ev.
    pose proof (Hcol i j ltac:(lia) ltac:(lia) Em) as Hc.
    assert (Er : pid_m * BM + i = m).
    { rewrite <- (flat_index_div N (pid_m * BM + i) (pid_n * BN + j) Hc), Ea.
      apply flat_index_div, Hn. }
    assert (Ec : pid_n * BN + j = n).
    { rewrite <- (flat_index_mod N (pid_m * BM + i) (pid_n * BN + j) Hc), Ea.
      apply flat_index_mod, Hn. }
    subst m n. rewrite !flat_index_div in Hout by lia. tauto.
  - intros p n Hn Hout. destruct cdb; [|reflexivity].
    apply write_lanes_frame. intros v Hin.
    apply in_map_iff in Hin as [j [Eq Hin]]. apply in_seq in Hin.
    inversion Eq as [[Ea Ev Em]]. clear Eq Ev. apply Nat.ltb_lt in Em.
    assert (Er : pid_m = p).
    { rewrite <- (flat_index_div N pid_m (pid_n * BN + j) Em), Ea.
      apply flat_index_div, Hn. }
    assert (Ec : pid_n * BN + j = n).
    { rewrite <- (flat_index_mod N pid_m (pid_n * BN + j) Em), Ea.
      apply flat_index_mod, Hn. }
    subst p n. rewrite flat_index_div in Hout by lia. tauto.
  - apply write_lanes_length.
  - destruct cdb; [apply write_lanes_length|reflexivity].
Qed.

(** The unmasked fast path is safe exactly on even blocks: over the
    grid of a non-empty [M x N] matrix, the programs run with
    [EVEN_BLOCKS] set all return if and only if [BLOCK_M] divides [M]
    and [BLOCK_N] divides [N]; otherwise a program reads past the end
    of its input.  This is the condition that the heuristic of the
    kernel tests. *)
Theorem fast_path_needs_even_blocks (ga gb GO AI : list F) (M N BM BN : nat)
    (f : F -> F) (cdb : bool) :
  0 < BM -> 0 < BN -> 1 <= M -> 1 <= N ->
  length GO = M * N -> length AI = M * N -> length ga = M * N ->
  (cdb = true -> length gb = (M + BM - 1) / BM * N) ->
  is_Some (run_programs
             (fun a b => kernel_bw_act a b GO AI M N N N N BM BN true f cdb)
             (program_ids ((M + BM - 1) / BM, (N + BN - 1) / BN)) ga gb)
  <-> M mod BM = 0 /\ N mod BN = 0.
Proof.
  intros HBM HBN HM HN HGO HAI Hga Hgb. split.
  - intros [r Hr].
    destruct (Nat.eq_dec (M mod BM) 0) as [E1|E1];
      [destruct (Nat.eq_dec (N mod BN) 0) as [E2|E2]; [tauto|]|]; exfalso.
    all: set (gm := (M + BM - 1) / BM) in *; set (gn := (N + BN - 1) / BN) in *.
    all: assert (Hgm : M <= gm * BM) by (apply cdiv_covers; exact HBM).
    all: assert (Hgn : N <= gn * BN) by (apply cdiv_covers; exact HBN).
    all: rewrite (run_programs_fault _ _ (gm - 1) (gn - 1)) in Hr; try discriminate.
    all: try (apply program_ids_grid; nia).
    all: intros a b; rewrite kernel_bw_act_paths; cbv zeta.
    all: rewrite (tl_load2_None _ _ AI _ _ _ (BM - 1) (BN - 1)); try reflexivity; try lia.
    all: rewrite HAI; apply last_lane_out_of_range; try assumption.
    + right. intros E. apply E2. rewrite E. apply Nat.Div0.mod_mul.
    + left. intros E. apply E1. rewrite E. apply Nat.Div0.mod_mul.
  - intros [E1 E2].
    rewrite (run_grid GO AI M N BM BN f HGO HAI HBM HBN true cdb ga gb); eauto.
Qed.

(** A launch overwrites its outputs: what [GRAD_ACT] (and, with
    [COMPUTE_D_BIAS], [GRAD_BIAS]) held before has no effect on the
    result, and launching again on the buffers a launch has left
    returns them unchanged, as when the autotuner runs the kernel
    several times. *)
Theorem a_launch_overwrites_its_outputs (ga gb GO AI : list F) (M N BM BN : nat)
    (f : F -> F) (cdb : bool) :
  0 < BM -> 0 < BN ->
  length GO = M * N -> length AI = M * N -> length ga = M * N ->
  (cdb = true -> length gb = (M + BM - 1) / BM * N) ->
  let launch := fun a b => launch_kernel_bw_act a b GO AI M N N N N f cdb BM BN in
  exists ga' gb',
    outcome (launch ga gb) = Ok (ga', gb') /\
    launch ga' gb' = launch ga gb /\
    forall ga0 gb0 : list F,
      length ga0 = M * N ->
      (if cdb then length gb0 = (M + BM - 1) / BM * N else gb0 = gb) ->
      launch ga0 gb0 = launch ga gb.
Proof.
  intros HBM HBN HGO HAI Hga Hgb launch. unfold launch.
  rewrite (launch_kernel_bw_act_run ga gb) by assumption.
  eexists _, _. split; [reflexivity|]. split.
  - rewrite launch_kernel_bw_act_run; try assumption.
    + destruct cdb; reflexivity.
    + rewrite length_map, length_seq. reflexivity.
    + intros ->. rewrite length_map, length_seq. reflexivity.
  - intros ga0 gb0 Hga0 Hgb0. rewrite launch_kernel_bw_act_run; try assumption.
    + destruct cdb; [reflexivity|]. rewrite Hgb0. reflexivity.
    + intros ->. exact Hgb0.
Qed.

(** When the row stride of [ACT_INPUTS] carries the last row past the
    end of the buffer, the launch faults. *)
Lemma launch_reads_past_act_inputs (ga gb GO AI : list F) (M N sg sa sb : nat) (f : F -> F)
    (cdb : bool) (BM BN : nat) :
  0 < BM -> 0 < BN -> 1 <= M -> 1 <= N -> length AI <= (M - 1) * sa ->
  outcome (launch_kernel_bw_act ga gb GO AI M N sg sa sb f cdb BM BN)
  = Err IllegalMemoryAccess.
Proof.
  intros HBM HBN HM HN Hlen.
  unfold launch_kernel_bw_act, cdiv, EVEN_BLOCKS_heuristic, py_mod.
  destruct (Nat.eqb_spec BM 0) as [|_]; [lia|].
  destruct (Nat.eqb_spec BN 0) as [|_]; [lia|].
  cbn [lift mbind host_mbind host_bind emit mret host_mret host_ret app].
  rewrite (run_programs_fault _ _ ((M - 1) / BM) 0); [reflexivity| |].
  - apply program_ids_grid. split; [apply tile_in_grid; lia|].
    pose proof (cdiv_covers N BN HBN). nia.
  - intros a b. rewrite kernel_bw_act_paths. cbv zeta.
    destruct (tile_index BM (M - 1) HBM) as [Em Hi].
    rewrite (tl_load2_None _ _ AI _ _ _ ((M - 1) mod BM) 0); try reflexivity; try lia.
    destruct ((M mod BM =? 0) && (N mod BN =? 0)); [reflexivity|]. cbv beta.
    rewrite Em. apply andb_true_iff. split; apply Nat.ltb_lt; lia.
Qed.

End Kernel.

(** ** The program order of [kernel_matmul_transpose] *)

Lemma grouped_tile_range (nn nk G pid : nat) :
  0 < G -> pid < nn * nk ->
  pid / (G * nk) * G < nn /\
  fst (grouped_tile nn nk G pid) < nn /\ snd (grouped_tile nn nk G pid) < nk.
Proof.
  intros HG Hpid. unfold grouped_tile. cbv zeta. cbn [fst snd].
  assert (Hnk : 0 < nk) by nia.
  set (P := G * nk). assert (HP : 0 < P) by nia.
  pose proof (Nat.div_mod_eq pid P) as Ed.
  pose proof (Nat.mod_upper_bound pid P ltac:(lia)) as Um.
  set (g := pid / P) in *. set (l := pid mod P) in *.
  assert (Hfirst : g * G < nn) by (unfold P in *; nia).
  set (s := Nat.min (nn - g * G) G).
  assert (Hs : 0 < s) by (unfold s; lia).
  pose proof (Nat.mod_upper_bound pid s ltac:(lia)) as Us.
  split; [exact Hfirst|]. split; [unfold s in *; lia|].
  apply Nat.Div0.div_lt_upper_bound.
  destruct (Nat.le_gt_cases G (nn - g * G)) as [Hc|Hc].
  - replace s with G by (unfold s; lia). unfold P in *. lia.
  - replace s with (nn - g * G) by (unfold s; lia). unfold P in *. nia.
Qed.

Lemma mod_add_cancel (c a a' s : nat) :
  a < s -> a' < s -> (c + a) mod s = (c + a') mod s -> a = a'.
Proof.
  intros Ha Ha' E.
  pose proof (Nat.div_mod_eq (c + a) s) as E1.
  pose proof (Nat.div_mod_eq (c + a') s) as E2.
  rewrite <- E in E2.
  set (q1 := (c + a) / s) in *. set (q2 := (c + a') / s) in *.
  set (r := (c + a) mod s) in *.
  assert (q1 = q2) by nia. nia.
Qed.

Lemma grouped_tile_injective (nn nk G pid pid' : nat) :
  0 < G -> pid < nn * nk -> pid' < nn * nk ->
  grouped_tile nn nk G pid = grouped_tile nn nk G pid' -> pid = pid'.
Proof.
  intros HG Hp Hp' E.
  pose proof (grouped_tile_range nn nk G pid HG Hp) as R.
  pose proof (grouped_tile_range nn nk G pid' HG Hp') as R'.
  unfold grouped_tile in *. cbv zeta in *. cbn [fst snd] in *.
  assert (Hnk : 0 < nk) by nia.
  set (P := G * nk) in *. assert (HP : 0 < P) by nia.
  pose proof (Nat.div_mod_eq pid P) as Ed.
  pose proof (Nat.div_mod_eq pid' P) as Ed'.
  pose proof (Nat.mod_upper_bound pid P ltac:(lia)) as Um.
  pose proof (Nat.mod_upper_bound pid' P ltac:(lia)) as Um'.
  set (g := pid / P) in *. set (g' := pid' / P) in *.
  set (l := pid mod P) in *. set (l' := pid' mod P) in *.
  destruct R as (Hf & _ & _). destruct R' as (Hf' & _ & _).
  set (s := Nat.min (nn - g * G) G) in *. set (s' := Nat.min (nn - g' * G) G) in *.
  assert (Hs : 0 < s) by (unfold s; lia). assert (Hs' : 0 < s') by (unfold s'; lia).
  pose proof (Nat.mod_upper_bound pid s ltac:(lia)) as Us.
  pose proof (Nat.mod_upper_bound pid' s' ltac:(lia)) as Us'.
  inversion E as [[En Ek]].
  assert (Eg : g = g').
  { assert (pid mod s < G) by (unfold s in *; lia).
    assert (pid' mod s' < G) by (unfold s' in *; lia).
    nia. }
  assert (Es : s' = s) by (unfold s, s'; rewrite Eg; reflexivity).
  rewrite Es in *. clear Es. rewrite <- Eg in *.
  assert (Em : pid mod s = pid' mod s) by lia.
  pose proof (Nat.div_mod_eq l s) as El.
  pose proof (Nat.div_mod_eq l' s) as El'.
  pose proof (Nat.mod_upper_bound l s ltac:(lia)) as Ua.
  pose proof (Nat.mod_upper_bound l' s ltac:(lia)) as Ua'.
  rewrite <- Ek in El'.
  assert (Ea : l mod s = l' mod s).
  { apply (mod_add_cancel (P * g + s * (l / s)) _ _ s); try assumption.
    replace (P * g + s * (l / s) + l mod s) with pid by lia.
    replace (P * g + s * (l / s) + l' mod s) with pid' by lia.
    exact Em. }
  lia.
Qed.

Lemma grouped_tile_surjective (nn nk G pn pk : nat) :
  0 < G -> pn < nn -> pk < nk ->
  exists pid, pid < nn * nk /\ grouped_tile nn nk G pid = (pn, pk).
Proof.
  intros HG Hn Hk.
  set (P := G * nk). assert (HP : 0 < P) by (unfold P; nia).
  pose proof (Nat.div_mod_eq pn G) as En.
  pose proof (Nat.mod_upper_bound pn G ltac:(lia)) as Un.
  set (g := pn / G) in *. set (r := pn mod G) in *.
  set (s := Nat.min (nn - g * G) G).
  assert (Hs : 0 < s) by (unfold s; lia).
  assert (Hrs : r < s) by (unfold s; lia).
  assert (HsG : s <= G) by (unfold s; lia).
  assert (Hsn : g * G + s <= nn) by (unfold s; lia).
  pose proof (Nat.div_mod_eq (g * P) s) as Eb.
  pose proof (Nat.mod_upper_bound (g * P) s ltac:(lia)) as Ub.
  set (qb := g * P / s) in *. set (b0 := (g * P) mod s) in *.
  set (t := if b0 <=? r then r - b0 else r + s - b0).
  assert (Ht : t < s) by (unfold t; destruct (Nat.leb_spec b0 r); lia).
  set (l := pk * s + t).
  assert (Hl : l < s * nk) by (unfold l; nia).
  assert (HlP : l < P) by (unfold P; nia).
  exists (g * P + l).
  assert (Hdiv : (g * P + l) / P = g).
  { symmetry. apply (Nat.div_unique _ _ _ l); lia. }
  assert (Hmod : (g * P + l) mod P = l).
  { symmetry. apply (Nat.mod_unique _ _ g); lia. }
  split; [unfold P in *; nia|].
  unfold grouped_tile. cbv zeta. fold P. rewrite Hdiv, Hmod. fold s.
  f_equal.
  - assert (Emod : (g * P + l) mod s = r).
    { symmetry. unfold l, t. destruct (Nat.leb_spec b0 r).
      - apply (Nat.mod_unique _ _ (qb + pk)); nia.
      - apply (Nat.mod_unique _ _ (qb + pk + 1)); nia. }
    rewrite Emod. lia.
  - unfold l. symmetry. apply (Nat.div_unique _ _ _ t); lia.
Qed.

(** On the programs of its grid the kernel computes [grouped_tile]. *)
Lemma kernel_matmul_transpose_tile_grouped (N K BLOCK_N BLOCK_K GROUP_N pid : nat) :
  0 < BLOCK_N -> 0 < BLOCK_K -> 0 < GROUP_N ->
  let num_pid_n := (N + BLOCK_N - 1) / BLOCK_N in
  let num_pid_k := (K + BLOCK_K - 1) / BLOCK_K in
  pid < num_pid_n * num_pid_k ->
  kernel_matmul_transpose_tile N K BLOCK_N BLOCK_K GROUP_N pid
  = Some (grouped_tile num_pid_n num_pid_k GROUP_N pid).
Proof.
  intros HBN HBK HG nn nk Hpid.
  destruct (grouped_tile_range nn nk GROUP_N pid HG Hpid) as (Hfirst & _ & _).
  unfold kernel_matmul_transpose_tile, grouped_tile. fold nn nk. cbv zeta.
  destruct (Nat.eqb_spec BLOCK_N 0) as [|_]; [lia|].
  destruct (Nat.eqb_spec BLOCK_K 0) as [|_]; [lia|].
  cbn [orb].
  destruct (Nat.eqb_spec (GROUP_N * nk) 0) as [|_]; [nia|].
  destruct (Nat.eqb_spec (Nat.min (nn - pid / (GROUP_N * nk) * GROUP_N) GROUP_N) 0)
    as [|_]; [lia|].
  reflexivity.
Qed.

(** The grouped program order of [kernel_matmul_transpose] is a
    one-to-one assignment of the programs of its grid to the output
    tiles: every program gets a tile inside the [cdiv(N, BLOCK_N) x
    cdiv(K, BLOCK_K)] tiles of the output, every tile is the tile of
    some program, and no two programs share a tile. *)
Theorem grouped_programs_cover_each_tile_once (N K BLOCK_N BLOCK_K GROUP_N n : nat) :
  0 < GROUP_N ->
  kernel_matmul_transpose_grid N K BLOCK_N BLOCK_K = Ok n ->
  let num_pid_n := (N + BLOCK_N - 1) / BLOCK_N in
  let num_pid_k := (K + BLOCK_K - 1) / BLOCK_K in
  let tile := kernel_matmul_transpose_tile N K BLOCK_N BLOCK_K GROUP_N in
  (forall pid, pid < n ->
     exists pid_n pid_k,
       tile pid = Some (pid_n, pid_k) /\ pid_n < num_pid_n /\ pid_k < num_pid_k) /\
  (forall pid_n pid_k, pid_n < num_pid_n -> pid_k < num_pid_k ->
     exists pid, pid < n /\ tile pid = Some (pid_n, pid_k)) /\
  (forall pid pid', pid < n -> pid' < n -> tile pid = tile pid' -> pid = pid').
Proof.
  intros HG Hgrid nn nk tile.
  unfold kernel_matmul_transpose_grid, cdiv in Hgrid.
  destruct (Nat.eqb_spec BLOCK_N 0) as [|HBN]; [discriminate|].
  destruct (Nat.eqb_spec BLOCK_K 0) as [|HBK]; [discriminate|].
  inversion Hgrid as [En]. fold nn nk in En |- *. clear Hgrid.
  assert (Ht : forall pid, pid < nn * nk -> tile pid = Some (grouped_tile nn nk GROUP_N pid)).
  { intros pid Hpid. apply kernel_matmul_transpose_tile_grouped; (lia || exact Hpid). }
  split; [|split].
  - intros pid Hpid. rewrite Ht by exact Hpid.
    destruct (grouped_tile_range nn nk GROUP_N pid HG Hpid) as (_ & Hn & Hk).
    destruct (grouped_tile nn nk GROUP_N pid) as [pn pk]. eauto.
  - intros pn pk Hn Hk.
    destruct (grouped_tile_surjective nn nk GROUP_N pn pk HG Hn Hk) as (pid & Hpid & E).
    exists pid. split; [exact Hpid|]. rewrite Ht by exact Hpid. f_equal. exact E.
  - intros pid pid' Hp Hp' E. rewrite !Ht in E by assumption.
    apply (grouped_tile_injective nn nk GROUP_N); try assumption. congruence.
Qed.

(** ** The weight-gradient kernel *)

Section Accumulate.

Context {F : Type} `{ScalarLaws F}.

(** Accumulating from the left is the sum. *)
Lemma foldl_add_sum (l : list F) (x : F) :
  foldl add x l = add x (sum_F l).
Proof.
  revert x. induction l as [|y l IH]; intros x; simpl.
  - symmetry. apply add_zero_r.
  - rewrite IH. unfold sum_F. simpl. symmetry. apply add_assoc.
Qed.

End Accumulate.

Lemma at_concat_rows {X} (f : nat -> nat -> X) (R C r c : nat) :
  r < R -> c < C ->
  concat (map (fun r => map (f r) (seq 0 C)) (seq 0 R)) !! (r * C + c) = Some (f r c).
Proof.
  intros Hr Hc.
  assert (G : forall s, concat (map (fun r => map (f r) (seq 0 C)) (seq s R)) !! (r * C + c)
                        = Some (f (s + r) c)).
  { revert r Hr. induction R as [|R IH]; intros r Hr s; [lia|].
    cbn [seq map concat]. destruct r as [|r].
    - rewrite lookup_app_l by (rewrite length_map, length_seq; lia).
      cbn [Nat.mul Nat.add]. change (map (f s) (seq 0 C)) with (f s <$> seq 0 C).
      rewrite list_lookup_fmap, lookup_seq_lt by exact Hc. rewrite Nat.add_0_r. reflexivity.
    - rewrite lookup_app_r by (rewrite length_map, length_seq; lia).
      rewrite length_map, length_seq.
      replace (S r * C + c - C) with (r * C + c) by lia.
      rewrite (IH r ltac:(lia) (S s)). f_equal. f_equal. lia. }
  apply (G 0).
Qed.

Lemma length_concat_rows {X} (f : nat -> nat -> X) (R C : nat) :
  length (concat (map (fun r => map (f r) (seq 0 C)) (seq 0 R))) = R * C.
Proof.
  assert (G : forall s, length (concat (map (fun r => map (f r) (seq 0 C)) (seq s R))) = R * C).
  { induction R as [|R IH]; intros s; [reflexivity|].
    cbn [seq map concat]. rewrite length_app, length_map, length_seq, IH. lia. }
  apply (G 0).
Qed.

Section MatmulTransposeProgram.

Context {F : Type} `{ScalarLaws F}.

Variables (A B : list F) (M N K BLOCK_M BLOCK_N BLOCK_K GROUP_N : nat).

Hypothesis A_length : length A = M * N.
Hypothesis B_length : length B = M * K.
Hypothesis BLOCK_M_pos : 0 < BLOCK_M.
Hypothesis BLOCK_N_pos : 0 < BLOCK_N.
Hypothesis BLOCK_K_pos : 0 < BLOCK_K.
Hypothesis GROUP_N_pos : 0 < GROUP_N.

Let nn := (N + BLOCK_N - 1) / BLOCK_N.
Let nk := (K + BLOCK_K - 1) / BLOCK_K.
Let gm := (M + BLOCK_M - 1) / BLOCK_M.

Local Abbreviation expected a := (transposed_product_at A B M N K (a / K) (a mod K)).

(** The accumulation loop of a program on the rows of [A] and [B],
    when [BLOCK_M] divides [M]: every load stays inside its buffer, and
    the lanes of the tile that exist end with the sums over the [M]
    rows. *)
Lemma accumulation_loop (e : bool) (pid_n pid_k : nat) (ts : list nat) :
  M mod BLOCK_M = 0 -> 0 < N -> 0 < K ->
  (forall t, In t ts -> t < gm) ->
  forall acc0 : block2 F,
  let rn := fun n : nat => pid_n * BLOCK_N + n in
  let rk := fun k : nat => pid_k * BLOCK_K + k in
  let step := fun (st : option (block2 F)) (i : nat) =>
    acc ← st;
    let rm := fun m : nat => m + i in
    a ← (if e
         then tl_load2 BLOCK_N BLOCK_M A (fun n m => rn n mod N + rm m * N) no_mask zero
         else tl_load2 BLOCK_N BLOCK_M A (fun n m => rn n mod N + rm m * N)
                (fun n m => (rm m <? M) && (rn n <? N)) zero);
    b ← (if e
         then tl_load2 BLOCK_M BLOCK_K B (fun m k => rk k mod K + rm m * K) no_mask zero
         else tl_load2 BLOCK_M BLOCK_K B (fun m k => rk k mod K + rm m * K)
                (fun m k => Nat.land (int1_to_int (int1_to_int (rk k <? K) <? K)) (rm m) <? M)
                zero);
    Some (fun n k => add (acc n k) (tl_dot BLOCK_M a b n k)) in
  exists acc : block2 F,
    foldl step (Some acc0) (map (fun t => t * BLOCK_M) ts) = Some acc /\
    forall n k, n < BLOCK_N -> k < BLOCK_K -> rn n < N -> rk k < K ->
      acc n k =
      foldl add (acc0 n k)
        (map (fun t => sum_F (map (fun m => mul (at_ A ((t * BLOCK_M + m) * N + rn n))
                                                (at_ B ((t * BLOCK_M + m) * K + rk k)))
                                  (seq 0 BLOCK_M))) ts).
Proof.
  intros Hdiv HN HK. induction ts as [|t ts IH]; intros Hts acc0 rn rk step.
  - exists acc0. split; [reflexivity|]. intros; reflexivity.
  - assert (Ht : t < gm) by (apply Hts; left; reflexivity).
    assert (Hrow : forall m, m < BLOCK_M -> m + t * BLOCK_M < M).
    { intros m Hm. rewrite Nat.add_comm. apply even_tile_in_range; assumption. }
    set (amask := if e then no_mask
                  else fun n m : nat => (m + t * BLOCK_M <? M) && (rn n <? N)).
    set (bmask := if e then no_mask
                  else fun m k : nat =>
                    Nat.land (int1_to_int (int1_to_int (rk k <? K) <? K)) (m + t * BLOCK_M)
                    <? M).
    set (a := fun n m : nat =>
                if amask n m
                then default zero (A !! (rn n mod N + (m + t * BLOCK_M) * N)) else zero).
    set (b := fun m k : nat =>
                if bmask m k
                then default zero (B !! (rk k mod K + (m + t * BLOCK_M) * K)) else zero).
    assert (Estep : step (Some acc0) (t * BLOCK_M) =
              Some (fun n k => add (acc0 n k) (tl_dot BLOCK_M a b n k))).
    { unfold step. cbn [mbind option_bind].
      destruct e; (rewrite !tl_load2_Some; [reflexivity| |]);
        intros x y Hx Hy _; rewrite ?A_length, ?B_length.
      - pose proof (Nat.mod_upper_bound (rn x) N ltac:(lia)).
        pose proof (Hrow y Hy). nia.
      - pose proof (Nat.mod_upper_bound (rk y) K ltac:(lia)).
        pose proof (Hrow x Hx). nia.
      - pose proof (Nat.mod_upper_bound (rn x) N ltac:(lia)).
        pose proof (Hrow y Hy). nia.
      - pose proof (Nat.mod_upper_bound (rk y) K ltac:(lia)).
        pose proof (Hrow x Hx). nia. }
    cbn [map foldl]. rewrite Estep.
    destruct (IH (fun t' Hin => Hts t' (or_intror Hin))
                 (fun n k => add (acc0 n k) (tl_dot BLOCK_M a b n k)))
      as (acc & Hacc & Hval).
    exists acc. split; [exact Hacc|].
    intros n k Hn Hk Hrn Hrk. rewrite (Hval n k Hn Hk Hrn Hrk). f_equal. f_equal.
    unfold tl_dot. apply sum_F_ext. intros m Hm. apply in_seq in Hm.
    pose proof (Hrow m ltac:(lia)) as Hr.
    assert (Eam : amask n m = true).
    { unfold amask. destruct e; [reflexivity|]. apply andb_true_iff.
      split; apply Nat.ltb_lt; [exact Hr|exact Hrn]. }
    assert (Ebm : bmask m k = true).
    { unfold bmask. destruct e; [reflexivity|]. apply Nat.ltb_lt.
      pose proof (Nat.land_le_r (int1_to_int (int1_to_int (rk k <? K) <? K))
                    (m + t * BLOCK_M)).
      lia. }
    unfold a, b. rewrite Eam, Ebm, !Nat.mod_small by assumption. unfold at_.
    f_equal; f_equal; f_equal; lia.
Qed.

Lemma cdiv_exact (X BX : nat) : 0 < BX -> X mod BX = 0 -> (X + BX - 1) / BX * BX = X.
Proof.
  intros HB He. pose proof (Nat.div_mod_eq X BX) as E. rewrite He in E.
  assert (Hq : (X + BX - 1) / BX = X / BX).
  { symmetry. apply (Nat.div_unique _ _ _ (BX - 1)); [lia|]. nia. }
  rewrite Hq. lia.
Qed.

Lemma grid_positive (X BX : nat) : 0 < (X + BX - 1) / BX -> 0 < X.
Proof.
  intros Hg. destruct X as [|x]; [|lia]. exfalso.
  destruct BX as [|b]; [simpl in Hg; lia|].
  rewrite Nat.div_small in Hg by lia. lia.
Qed.

(** One program of [kernel_matmul_transpose]. *)
Lemma kernel_matmul_transpose_program (e : bool) (C : list F) (pid : nat) :
  M mod BLOCK_M = 0 ->
  (e = true -> N mod BLOCK_N = 0 /\ K mod BLOCK_K = 0) ->
  length C = N * K -> pid < nn * nk ->
  let rn := fun n : nat => fst (grouped_tile nn nk GROUP_N pid) * BLOCK_N + n in
  let rk := fun k : nat => snd (grouped_tile nn nk GROUP_N pid) * BLOCK_K + k in
  exists C',
    kernel_matmul_transpose C A B M N K K N K BLOCK_M BLOCK_N GROUP_N BLOCK_K e pid = Some C' /\
    length C' = length C /\
    (forall a, C !! a = Some (expected a) -> C' !! a = Some (expected a)) /\
    (forall n k, n < BLOCK_N -> k < BLOCK_K -> rn n < N -> rk k < K ->
       C' !! (rn n * K + rk k) = Some (expected (rn n * K + rk k))).
Proof.
  intros Hdiv Heven HC Hpid.
  destruct (grouped_tile_range nn nk GROUP_N pid GROUP_N_pos Hpid) as (_ & Hpn & Hpk).
  assert (HN : 0 < N) by (apply (grid_positive N BLOCK_N); fold nn; lia).
  assert (HK : 0 < K) by (apply (grid_positive K BLOCK_K); fold nk; lia).
  unfold kernel_matmul_transpose.
  rewrite kernel_matmul_transpose_tile_grouped by assumption. fold nn nk.
  destruct (grouped_tile nn nk GROUP_N pid) as [pid_n pid_k]. cbn [fst snd] in *.
  cbn [mbind option_bind].
  destruct (Nat.eqb_spec N 0) as [|_]; [lia|]. destruct (Nat.eqb_spec K 0) as [|_]; [lia|].
  cbn [orb]. unfold py_range. fold gm.
  destruct (accumulation_loop e pid_n pid_k (seq 0 gm) Hdiv HN HK
              ltac:(intros t Ht; apply in_seq in Ht; lia) (fun _ _ => zero))
    as (acc & Hloop & Hacc).
  cbv beta zeta in Hloop |- *. unfold block2 in Hloop |- *. rewrite Hloop.
  cbn [mbind option_bind].
  set (rn := fun n : nat => pid_n * BLOCK_N + n) in *.
  set (rk := fun k : nat => pid_k * BLOCK_K + k) in *.
  set (ptrs := fun n k : nat => rn n * K + rk k).
  set (smask := if e then no_mask else fun n k : nat => (rn n <? N) && (rk k <? K)).
  assert (Hsmask : forall n k, n < BLOCK_N -> k < BLOCK_K ->
                               (smask n k = true <-> rn n < N /\ rk k < K)).
  { intros n k Hn Hk. unfold smask. destruct e.
    - destruct (Heven eq_refl) as [E1 E2]. split; [intros _|reflexivity].
      split; apply even_tile_in_range; assumption.
    - rewrite andb_true_iff, !Nat.ltb_lt. tauto. }
  assert (Hval : forall n k, n < BLOCK_N -> k < BLOCK_K -> rn n < N -> rk k < K ->
                             acc n k = expected (ptrs n k)).
  { intros n k Hn Hk Hrn Hrk. rewrite (Hacc n k Hn Hk Hrn Hrk).
    rewrite foldl_add_sum, add_zero_l.
    rewrite (sum_F_tiles (fun r => mul (at_ A (r * N + rn n)) (at_ B (r * K + rk k)))
               BLOCK_M gm).
    unfold gm. rewrite cdiv_exact by assumption.
    unfold ptrs, transposed_product_at. rewrite flat_index_div, flat_index_mod by exact Hrk.
    reflexivity. }
  assert (Estore : (if e
                    then tl_store2 BLOCK_N BLOCK_K C ptrs acc no_mask
                    else tl_store2 BLOCK_N BLOCK_K C ptrs acc
                           (fun n k : nat => (rn n <? N) && (rk k <? K)))
                   = tl_store2 BLOCK_N BLOCK_K C ptrs acc smask)
    by (unfold smask; destruct e; reflexivity).
  fold ptrs. rewrite Estore. clear Estore.
  unfold tl_store2. rewrite store_lanes_eq.
  set (lanes := map _ (lanes2 BLOCK_N BLOCK_K)).
  assert (Hlanes : forall p v, In (p, v, true) lanes ->
            exists n k, n < BLOCK_N /\ k < BLOCK_K /\ smask n k = true /\
                        p = ptrs n k /\ v = acc n k).
  { intros p v Hin. apply in_map_iff in Hin as [[n k] [E Hin]].
    apply in_prod_iff in Hin as [Hn Hk]. apply in_seq in Hn, Hk.
    inversion E; subst. exists n, k. repeat split; (lia || assumption). }
  assert (Hptr : forall n k, rn n < N -> rk k < K -> ptrs n k < N * K)
    by (intros n k Hn Hk; unfold ptrs; nia).
  rewrite (proj2 (forallb_forall _ _)).
  2:{ intros [[p v] m] Hin. simpl. destruct m; [|reflexivity]. simpl.
      apply Hlanes in Hin as (n & k & Hn & Hk & Hm & -> & _).
      apply Nat.ltb_lt. rewrite HC. apply Hptr; apply Hsmask in Hm; tauto. }
  destruct (write_lanes_conform (fun a => expected a) lanes) with (buf := C) as [C1 C2].
  { intros p v Hin. apply Hlanes in Hin as (n & k & Hn & Hk & Hm & -> & ->).
    apply Hsmask in Hm as [Hrn Hrk]; [|assumption|assumption]. apply Hval; assumption. }
  eexists. split; [reflexivity|]. rewrite write_lanes_length.
  split; [reflexivity|]. split; [exact C1|].
  intros n k Hn Hk Hrn Hrk. apply (C2 (ptrs n k) (acc n k)).
  - apply in_map_iff. exists (n, k). split.
    + f_equal. apply (proj2 (Hsmask n k Hn Hk)). tauto.
    + apply in_prod_iff. split; apply in_seq; lia.
  - rewrite HC. apply Hptr; assumption.
Qed.

Local Abbreviation run e :=
  (foldl (fun st pid =>
            C ← st;
            kernel_matmul_transpose C A B M N K K N K BLOCK_M BLOCK_N GROUP_N BLOCK_K e pid)).

(** The programs of a launch, in any order: every program returns,
    cells that hold their final value keep it, and each program leaves
    the final values in its tile. *)
Lemma run_matmul_transpose (e : bool) (pids : list nat) :
  M mod BLOCK_M = 0 ->
  (e = true -> N mod BLOCK_N = 0 /\ K mod BLOCK_K = 0) ->
  forall C : list F,
  length C = N * K ->
  (forall pid, In pid pids -> pid < nn * nk) ->
  exists C',
    run e (Some C) pids = Some C' /\
    length C' = length C /\
    (forall a, C !! a = Some (expected a) -> C' !! a = Some (expected a)) /\
    (forall pid n k, In pid pids -> n < BLOCK_N -> k < BLOCK_K ->
       fst (grouped_tile nn nk GROUP_N pid) * BLOCK_N + n < N ->
       snd (grouped_tile nn nk GROUP_N pid) * BLOCK_K + k < K ->
       C' !! ((fst (grouped_tile nn nk GROUP_N pid) * BLOCK_N + n) * K
              + (snd (grouped_tile nn nk GROUP_N pid) * BLOCK_K + k))
       = Some (expected ((fst (grouped_tile nn nk GROUP_N pid) * BLOCK_N + n) * K
                         + (snd (grouped_tile nn nk GROUP_N pid) * BLOCK_K + k)))).
Proof.
  intros Hdiv Heven. induction pids as [|pid pids IH]; intros C HC Hpids.
  - exists C. split; [reflexivity|]. repeat split; auto. intros ? ? ? [].
  - destruct (kernel_matmul_transpose_program e C pid Hdiv Heven HC
                (Hpids pid (or_introl eq_refl))) as (C1 & Hk & L1 & Keep1 & Tile1).
    destruct (IH C1) as (C' & Hr & L' & Keep' & Tile').
    { congruence. }
    { intros p Hin. apply Hpids. right; exact Hin. }
    exists C'. cbn [foldl mbind option_bind]. rewrite Hk.
    split; [exact Hr|]. split; [congruence|].
    split; [intros a Ha; apply Keep', Keep1, Ha|].
    intros p n k [<-|Hin] Hn Hk' Hrn Hrk.
    + apply Keep'. apply Tile1; assumption.
    + apply Tile'; assumption.
Qed.

End MatmulTransposeProgram.

Section MatmulTransposeLaunch.

Context {F : Type} `{ScalarLaws F}.

(** The buffer that a launch leaves when [BLOCK_M] divides [M], for the
    setting of [EVEN_BLOCKS] that the heuristic chooses and any order
    [schedule] of the programs. *)
Lemma launch_kernel_matmul_transpose_run (C A B : list F)
    (M N K BLOCK_M BLOCK_N BLOCK_K GROUP_N : nat) :
  0 < BLOCK_M -> 0 < BLOCK_N -> 0 < BLOCK_K -> 0 < GROUP_N ->
  length A = M * N -> length B = M * K -> length C = N * K ->
  M mod BLOCK_M = 0 ->
  let C' := data (reference_grad_weight M N K A B) in
  (forall n k, n < N -> k < K ->
     C' !! (n * K + k) = Some (transposed_product_at A B M N K n k)) /\
  launch_kernel_matmul_transpose C A B M N K K N K BLOCK_M BLOCK_N GROUP_N BLOCK_K = Ok C' /\
  exists e,
    EVEN_BLOCKS_heuristic_3 M N K BLOCK_M BLOCK_N BLOCK_K = Ok e /\
    forall schedule,
      Permutation schedule
        (seq 0 ((N + BLOCK_N - 1) / BLOCK_N * ((K + BLOCK_K - 1) / BLOCK_K))) ->
      foldl (fun st pid =>
               C ← st;
               kernel_matmul_transpose C A B M N K K N K BLOCK_M BLOCK_N GROUP_N BLOCK_K e pid)
            (Some C) schedule
      = Some C'.
Proof.
  intros HBM HBN HBK HG HA HB HC Hdiv C'.
  set (nn := (N + BLOCK_N - 1) / BLOCK_N). set (nk := (K + BLOCK_K - 1) / BLOCK_K).
  (* the elements of the dense product *)
  assert (Hcell : forall n k, n < N -> k < K ->
            C' !! (n * K + k) = Some (transposed_product_at A B M N K n k)).
  { intros n k Hn Hk. unfold C', reference_grad_weight, matmul_data. cbn [data].
    rewrite (at_concat_rows
               (fun n k => sum_F (map (fun m => mul (at_ _ (n * M + m)) (at_ B (m * K + k)))
                                      (seq 0 M))) N K) by assumption.
    f_equal. unfold transposed_product_at. apply sum_F_ext. intros m Hm. apply in_seq in Hm.
    f_equal. unfold at_ at 1.
    rewrite (at_concat_rows (fun n m => at_ A (m * N + n)) N M) by lia. reflexivity. }
  assert (HL : length C' = N * K).
  { unfold C', reference_grad_weight, matmul_data. cbn [data]. apply length_concat_rows. }
  (* the heuristic *)
  assert (He : exists e, EVEN_BLOCKS_heuristic_3 M N K BLOCK_M BLOCK_N BLOCK_K = Ok e /\
                         (e = true -> N mod BLOCK_N = 0 /\ K mod BLOCK_K = 0)).
  { unfold EVEN_BLOCKS_heuristic_3, py_mod.
    destruct (Nat.eqb_spec BLOCK_M 0) as [|_]; [lia|].
    destruct (Nat.eqb_spec BLOCK_N 0) as [|_]; [lia|].
    destruct (Nat.eqb_spec BLOCK_K 0) as [|_]; [lia|].
    rewrite Hdiv. cbn [Nat.eqb].
    destruct (Nat.eqb_spec (K mod BLOCK_K) 0) as [E1|E1].
    - eexists. split; [reflexivity|]. intros E2. apply Nat.eqb_eq in E2. tauto.
    - exists false. split; [reflexivity|discriminate]. }
  destruct He as (e & Ee & Heven).
  (* the programs, in any order *)
  assert (Hrun : forall schedule, Permutation schedule (seq 0 (nn * nk)) ->
            foldl (fun st pid =>
                     C ← st;
                     kernel_matmul_transpose C A B M N K K N K BLOCK_M BLOCK_N GROUP_N
                       BLOCK_K e pid)
                  (Some C) schedule
            = Some C').
  { intros schedule Hperm.
    assert (Hin : forall pid, In pid schedule <-> pid < nn * nk).
    { intros pid. split; intros Hp.
      - apply (Permutation_in _ Hperm), in_seq in Hp. lia.
      - apply (Permutation_in _ (Permutation_sym Hperm)), in_seq. lia. }
    destruct (run_matmul_transpose A B M N K BLOCK_M BLOCK_N BLOCK_K GROUP_N HA HB HBM HBN HBK
                HG e schedule Hdiv Heven C HC)
      as (C1 & Hrun & HL1 & _ & Tile).
    { intros pid Hp. apply Hin, Hp. }
    fold nn nk in Tile. rewrite Hrun. f_equal.
    apply list_eq. intros a.
    destruct (Nat.lt_ge_cases a (N * K)) as [Ha|Ha].
    - assert (HK : 0 < K) by nia.
      destruct (tile_index K a HK) as [Ea Hk].
      assert (Hn : a / K < N) by (apply Nat.Div0.div_lt_upper_bound; lia).
      rewrite <- Ea. rewrite (Hcell (a / K) (a mod K) Hn Hk).
      destruct (grouped_tile_surjective nn nk GROUP_N (a / K / BLOCK_N) (a mod K / BLOCK_K) HG)
        as (pid & Hpid & Et).
      { apply tile_in_grid; assumption. }
      { apply tile_in_grid; assumption. }
      destruct (tile_index BLOCK_N (a / K) HBN) as [En Hi].
      destruct (tile_index BLOCK_K (a mod K) HBK) as [Ek Hj].
      specialize (Tile pid (a / K mod BLOCK_N) (a mod K mod BLOCK_K)).
      rewrite Et in Tile. cbn [fst snd] in Tile. rewrite En, Ek in Tile.
      rewrite Tile; try assumption.
      + rewrite flat_index_div, flat_index_mod by exact Hk. reflexivity.
      + apply Hin, Hpid.
    - rewrite !(proj2 (lookup_ge_None _ _)) by lia. reflexivity. }
  split; [exact Hcell|]. split.
  - unfold launch_kernel_matmul_transpose, kernel_matmul_transpose_grid, cdiv.
    destruct (Nat.eqb_spec BLOCK_N 0) as [|_]; [lia|].
    destruct (Nat.eqb_spec BLOCK_K 0) as [|_]; [lia|].
    rewrite Ee. fold nn nk. rewrite (Hrun (seq 0 (nn * nk))) by reflexivity. reflexivity.
  - exists e. split; [exact Ee|exact Hrun].
Qed.

(** The launch that [fused_matmul_backward] keeps behind [if False]
    computes the weight gradient of the [else] branch: for a gradient
    of shape [M x N] and a layer input with [M] rows of [K] features,
    when [BLOCK_M] divides [M], [kernel_matmul_transpose] over its grid
    fills an [N x K] buffer with the elements of
    [grad_out_.transpose(0, 1) @ inputs_], element [(n, k)] being the
    sum over the [M] rows of [grad_out_[m, n] * inputs_[m, k]]; and so
    for every order of the programs and whether or not [BLOCK_N] and
    [BLOCK_K] divide [N] and [K]. *)
Theorem the_tiled_weight_gradient_is_the_dense_one (g inputs inputs_ : tensor F)
    (C : list F) (M N K BLOCK_M BLOCK_N BLOCK_K GROUP_N : nat) :
  shape g = [M; N] -> wf g ->
  as_2d inputs = Ok inputs_ -> shape inputs_ = [M; K] -> wf inputs ->
  length C = N * K ->
  0 < BLOCK_M -> 0 < BLOCK_N -> 0 < BLOCK_K -> 0 < GROUP_N ->
  M mod BLOCK_M = 0 ->
  exists w,
    outcome (weight_stage g inputs) = Ok w /\
    shape w = [N; K] /\
    launch_kernel_matmul_transpose C (data g) (data inputs_) M N K K N K
      BLOCK_M BLOCK_N GROUP_N BLOCK_K = Ok (data w) /\
    (forall n k, n < N -> k < K ->
       data w !! (n * K + k)
       = Some (transposed_product_at (data g) (data inputs_) M N K n k)) /\
    (forall e schedule,
       EVEN_BLOCKS_heuristic_3 M N K BLOCK_M BLOCK_N BLOCK_K = Ok e ->
       Permutation schedule
         (seq 0 ((N + BLOCK_N - 1) / BLOCK_N * ((K + BLOCK_K - 1) / BLOCK_K))) ->
       foldl (fun st pid =>
                C ← st;
                kernel_matmul_transpose C (data g) (data inputs_) M N K K N K
                  BLOCK_M BLOCK_N GROUP_N BLOCK_K e pid)
             (Some C) schedule
       = Some (data w)).
Proof.
  intros Hgs Hgw Hi His Hiw HC HBM HBN HBK HG Hdiv.
  destruct (as_2d_view inputs inputs_ M K Hi His) as (Hid & _ & Hin & _ & _).
  assert (HA : length (data g) = M * N) by (rewrite Hgw, Hgs; simpl; lia).
  assert (HB : length (data inputs_) = M * K) by (rewrite Hid, Hiw; exact Hin).
  destruct (launch_kernel_matmul_transpose_run C (data g) (data inputs_) M N K
              BLOCK_M BLOCK_N BLOCK_K GROUP_N HBM HBN HBK HG HA HB HC Hdiv)
    as (Hcell & Hlaunch & e & Ee & Hrun).
  exists (reference_grad_weight M N K (data g) (data inputs_)).
  split; [|split; [reflexivity|split; [exact Hlaunch|split; [exact Hcell|]]]].
  - unfold weight_stage, transpose01, torch_matmul, matmul. rewrite Hi, Hgs.
    cbn [lift emit mbind host_mbind host_bind shape data app]. rewrite His, Nat.eqb_refl.
    reflexivity.
  - intros e' schedule Ee' Hperm. assert (e' = e) by congruence. subst e'.
    apply Hrun, Hperm.
Qed.

End MatmulTransposeLaunch.

Lemma foldl_option_fault {S I} (step : option S -> I -> option S) (l : list I) (i : I) :
  (forall j, step None j = None) -> In i l -> (forall st, step st i = None) ->
  forall st, foldl step st l = None.
Proof.
  intros Hnone Hin Hi. induction l as [|j l IH]; intros st; [destruct Hin|].
  cbn [foldl]. destruct Hin as [->|Hin].
  - rewrite Hi. clear IH. induction l as [|j' l IH']; [reflexivity|].
    cbn [foldl]. rewrite Hnone. exact IH'.
  - apply IH, Hin.
Qed.

Lemma last_row_out_of_range (M BM : nat) :
  0 < BM -> 1 <= M -> M mod BM <> 0 ->
  1 <= (M + BM - 1) / BM /\ M <= BM - 1 + ((M + BM - 1) / BM - 1) * BM.
Proof.
  intros HB HM Hne.
  pose proof (cdiv_covers M BM HB) as Hc.
  set (gm := (M + BM - 1) / BM) in *.
  assert (M <> gm * BM) by (intros E; apply Hne; rewrite E; apply Nat.Div0.mod_mul).
  destruct gm as [|g]; [lia|]. split; [lia|].
  replace (S g - 1) with g by lia. destruct BM as [|b]; [lia|]. nia.
Qed.

Section MatmulTransposeFault.

Context {F : Type} `{Scalar F}.

(** When [BLOCK_M] does not divide [M], the masked loads are in use, and
    the mask of the load of [b] does not hold back the rows past [M]:
    [(0 or 1) & rm] is below [M] for every row.  The first program reads
    [B] past its end. *)
Theorem the_mask_of_b_lets_rows_past_the_end_through (C A B : list F)
    (M N K BLOCK_M BLOCK_N BLOCK_K GROUP_N : nat) :
  0 < BLOCK_M -> 0 < BLOCK_N -> 0 < BLOCK_K -> 0 < GROUP_N ->
  length B = M * K ->
  2 <= M -> 1 <= N -> 1 <= K ->
  M mod BLOCK_M <> 0 ->
  (forall rm k, (Nat.land (int1_to_int (int1_to_int (k <? K) <? K)) rm <? M) = true) /\
  launch_kernel_matmul_transpose C A B M N K K N K BLOCK_M BLOCK_N GROUP_N BLOCK_K
  = Err IllegalMemoryAccess.
Proof.
  intros HBM HBN HBK HG HB HM HN HK Hdiv.
  assert (Hmask : forall rm k,
            (Nat.land (int1_to_int (int1_to_int (k <? K) <? K)) rm <? M) = true).
  { intros rm k. apply Nat.ltb_lt.
    pose proof (Nat.land_le_l (int1_to_int (int1_to_int (k <? K) <? K)) rm) as Hl.
    assert (int1_to_int (int1_to_int (k <? K) <? K) <= 1)
      by (destruct (_ <? K); cbn; lia).
    lia. }
  split; [exact Hmask|].
  set (nn := (N + BLOCK_N - 1) / BLOCK_N). set (nk := (K + BLOCK_K - 1) / BLOCK_K).
  assert (Hnn : 0 < nn) by (unfold nn; pose proof (cdiv_covers N BLOCK_N HBN); nia).
  assert (Hnk : 0 < nk) by (unfold nk; pose proof (cdiv_covers K BLOCK_K HBK); nia).
  unfold launch_kernel_matmul_transpose, kernel_matmul_transpose_grid, cdiv,
    EVEN_BLOCKS_heuristic_3, py_mod.
  destruct (Nat.eqb_spec BLOCK_M 0) as [|_]; [lia|].
  destruct (Nat.eqb_spec BLOCK_N 0) as [|_]; [lia|].
  destruct (Nat.eqb_spec BLOCK_K 0) as [|_]; [lia|].
  fold nn nk. rewrite (proj2 (Nat.eqb_neq (M mod BLOCK_M) 0) Hdiv).
  assert (Ee : (if K mod BLOCK_K =? 0 then Ok false else Ok false) = @Ok bool false)
    by (destruct (_ =? 0); reflexivity).
  rewrite Ee. clear Ee.
  rewrite (foldl_option_fault _ _ 0); [reflexivity|reflexivity| |].
  { apply in_seq. nia. }
  intros [C0|]; [|reflexivity]. cbn [mbind option_bind].
  unfold kernel_matmul_transpose.
  rewrite kernel_matmul_transpose_tile_grouped by (fold nn nk; (assumption || nia)).
  destruct (grouped_tile _ _ _ _) as [pid_n pid_k]. cbn [mbind option_bind].
  destruct (Nat.eqb_spec N 0) as [|_]; [lia|]. destruct (Nat.eqb_spec K 0) as [|_]; [lia|].
  cbn [orb].
  destruct (last_row_out_of_range M BLOCK_M HBM ltac:(lia) Hdiv) as [Hgm Hlast].
  rewrite (foldl_option_fault _ _ (((M + BLOCK_M - 1) / BLOCK_M - 1) * BLOCK_M));
    [reflexivity|reflexivity| |].
  { unfold py_range. apply in_map_iff. eexists. split; [reflexivity|]. apply in_seq. lia. }
  intros [acc|]; [|reflexivity]. cbn [mbind option_bind].
  destruct (tl_load2 BLOCK_N BLOCK_M A _ _ _) as [a|]; [|reflexivity].
  cbn [mbind option_bind].
  rewrite (tl_load2_None _ _ B _ _ _ (BLOCK_M - 1) 0); [reflexivity|lia|lia|apply Hmask|].
  rewrite HB. cbv beta.
  pose proof (Nat.mod_upper_bound (pid_k * BLOCK_K + 0) K ltac:(lia)). nia.
Qed.

End MatmulTransposeFault.

(** ** The host function *)

Lemma unflattened_row_stride (B S N : nat) :
  1 <= B -> 2 <= S -> B * (S * (N * 1)) <= (B * S - 1) * (S * (N * 1)).
Proof.
  intros HB HS. rewrite Nat.mul_1_r, Nat.mul_assoc, (Nat.mul_assoc _ S N).
  apply Nat.mul_le_mono_r.
  assert (E : B * S - 1 = (B * S - 2) + 1) by nia. rewrite E.
  nia.
Qed.

Lemma host_bind_after_emit {A B} (ev : event) (a : A) (k : A -> host B) :
  ((emit ev ≫= fun _ => mret a) ≫= k) = (ev :: trace (k a), outcome (k a)).
Proof.
  unfold emit. cbn [mbind host_mbind host_bind mret host_mret host_ret app].
  destruct (k a); reflexivity.
Qed.

Lemma host_bind_after_ret {A B} (a : A) (k : A -> host B) : (mret a ≫= k) = k a.
Proof.
  cbn [mbind host_mbind host_bind mret host_mret host_ret app]. destruct (k a); reflexivity.
Qed.

Lemma outcome_bind_Ok {A B} (m : host A) (k : A -> host B) (b : B) :
  outcome (m ≫= k) = Ok b -> exists a, outcome m = Ok a /\ outcome (k a) = Ok b.
Proof.
  unfold outcome, mbind, host_mbind, host_bind.
  destruct m as [t [a|e]]; simpl; [|discriminate].
  intros E. exists a. split; [reflexivity|].
  destruct (k a) as [t' r]. exact E.
Qed.

Ltac bind_inv H x Hx :=
  apply outcome_bind_Ok in H as (x & Hx & H); cbn [outcome lift snd] in Hx.

Section Host.

Context {F : Type} `{Scalar F}.
Variable uninit : nat -> F.

(** A gradient that is not contiguous costs one copy and changes
    nothing else: the call issues the events of the call on the
    contiguous tensor after [EvContiguousCopy], and has its outcome. *)
Theorem a_view_costs_one_copy (shp : list nat) (d : list F) (inputs : tensor F)
    (act_in : option (tensor F)) (weight : tensor F) (tw tb : bool) (act : option (F -> F)) :
  let call := fun c =>
    fused_matmul_backward uninit (mkTensor shp d c) inputs act_in weight tw tb act in
  trace (call false) = EvContiguousCopy :: trace (call true) /\
  outcome (call false) = outcome (call true).
Proof.
  intros call. unfold call, fused_matmul_backward. cbn [is_contiguous].
  unfold contiguous. cbn [shape data].
  rewrite host_bind_after_emit, host_bind_after_ret. split; reflexivity.
Qed.

(** The gradient before flattening only serves as the unused bias
    buffer of a launch without [COMPUTE_D_BIAS]. *)
Lemma activation_stage_placeholder (g1 g2 grad_out_ : tensor F) (act_in : option (tensor F))
    (M N : nat) (tb : bool) (f : F -> F) :
  data g1 = data g2 -> shape g1 <> [] -> shape g2 <> [] ->
  activation_stage uninit g1 grad_out_ act_in M N tb f =
  activation_stage uninit g2 grad_out_ act_in M N tb f.
Proof.
  intros Hd H1 H2. unfold activation_stage. destruct tb; [reflexivity|].
  unfold empty_like.
  cbn [emit lift mret host_mret host_ret mbind host_mbind host_bind app shape data].
  destruct (stride0 _) as [sg|]; [|reflexivity].
  destruct (stride0 _) as [sa|]; [|reflexivity].
  assert (Hs : forall g : tensor F, shape g <> [] -> exists s, stride0 g = Ok s).
  { intros g Hg. unfold stride0. destruct (shape g); [congruence|eauto]. }
  destruct (Hs g1 H1) as [s1 ->]. destruct (Hs g2 H2) as [s2 ->].
  rewrite Hd, (launch_no_bias_stride _ _ _ _ _ _ _ _ s1 s2). reflexivity.
Qed.

(** A gradient of three dimensions is treated as its flattening to two:
    the call on a [B x S x N] tensor is, events and outcome, the call on
    the [(B * S) x N] tensor of the same elements. *)
Theorem a_3d_gradient_is_its_flattening (B S N : nat) (d : list F) (c : bool)
    (inputs : tensor F) (act_in : option (tensor F)) (weight : tensor F) (tw tb : bool)
    (act : option (F -> F)) :
  fused_matmul_backward uninit (mkTensor [B; S; N] d c) inputs act_in weight tw tb act =
  fused_matmul_backward uninit (mkTensor [B * S; N] d c) inputs act_in weight tw tb act.
Proof.
  unfold fused_matmul_backward. cbn [is_contiguous].
  assert (E : forall A (k1 k2 : tensor F -> host A) shp,
            k1 (mkTensor shp d true) = k2 (mkTensor [B * S; N] d true) ->
            ((if c then mret (mkTensor shp d c) else contiguous (mkTensor shp d c)) ≫= k1) =
            ((if c then mret (mkTensor [B * S; N] d c)
              else contiguous (mkTensor [B * S; N] d c)) ≫= k2)).
  { intros A k1 k2 shp Hk. destruct c.
    - rewrite !host_bind_after_ret. exact Hk.
    - unfold contiguous. cbn [shape data]. rewrite !host_bind_after_emit, Hk. reflexivity. }
  apply E. clear E.
  unfold as_2d, ndim, flatten01. cbn [shape length Nat.eqb data is_contiguous].
  cbn [lift mbind host_mbind host_bind app].
  destruct (shape_at _ 1) as [go1|]; [|reflexivity].
  cbn [lift mbind host_mbind host_bind app].
  destruct (shape_at weight 0) as [w0|]; [|reflexivity].
  cbn [lift mbind host_mbind host_bind app].
  destruct (py_assert _) as [t [[]|e]]; [|reflexivity].
  cbn [lift mbind host_mbind host_bind app unpack2 shape].
  destruct (unpack2 (shape weight)) as [[N' K]|e]; [|reflexivity].
  cbn [lift mbind host_mbind host_bind app unpack2 shape].
  destruct act as [f|]; [|reflexivity].
  rewrite (activation_stage_placeholder (mkTensor [B; S; N] d true)
             (mkTensor [B * S; N] d true)) by (reflexivity || discriminate).
  reflexivity.
Qed.

(** The events a call may issue, by its arguments. *)
Lemma fused_matmul_backward_events (grad_out inputs : tensor F) (act_in : option (tensor F))
    (weight : tensor F) (tw tb : bool) (act : option (F -> F)) (P : event -> Prop) :
  (is_contiguous grad_out = false -> P EvContiguousCopy) ->
  (tw = true -> P EvMatmulTranspose) ->
  P EvTritonMatmul ->
  (tb = true -> P EvSum2dDim0) ->
  (act <> None -> (forall shp, P (EvEmptyLike shp)) /\
                  (tb = true -> forall shp, P (EvZeros shp)) /\
                  (forall grid, P (EvKernelBwAct grid tb))) ->
  triple (fused_matmul_backward uninit grad_out inputs act_in weight tw tb act) P
         (fun _ => True).
Proof.
  intros HC HW HM HS HA. unfold fused_matmul_backward.
  eapply triple_bind with (Q' := fun _ => True).
  { destruct (is_contiguous grad_out); [apply triple_ret; exact I|]. unfold contiguous.
    eapply triple_bind;
      [apply (triple_emit _ _ (fun _ => True)); [apply HC; reflexivity|exact I]|].
    intros; apply triple_ret; exact I. }
  intros go _.
  eapply triple_bind with (Q' := fun _ => True); [apply triple_lift; auto|]. intros go2 _.
  eapply triple_bind with (Q' := fun _ => True); [apply triple_lift; auto|]. intros go1 _.
  eapply triple_bind with (Q' := fun _ => True); [apply triple_lift; auto|]. intros w0 _.
  eapply triple_bind with (Q' := fun _ => True); [apply triple_assert; auto|]. intros _ _.
  eapply triple_bind with (Q' := fun _ => True); [apply triple_lift; auto|]. intros [M N0] _.
  eapply triple_bind with (Q' := fun _ => True); [apply triple_lift; auto|]. intros [N K] _.
  eapply triple_bind with (Q' := fun _ => True).
  { destruct act as [f|]; [|apply triple_ret; exact I].
    destruct (HA ltac:(discriminate)) as (HE & HZ & HK).
    eapply triple_weaken; [apply activation_stage_triple; auto|]. auto. }
  intros [g b] _.
  eapply triple_bind with (Q' := fun _ => True).
  { destruct tw; [|apply triple_ret; exact I].
    eapply triple_bind with (Q' := fun _ => True); [apply weight_stage_triple; auto|].
    intros; apply triple_ret; exact I. }
  intros gw _.
  eapply triple_bind with (Q' := fun _ => True); [apply triton_ops_matmul_triple; auto|].
  intros gi _.
  eapply triple_bind with (Q' := fun _ => True).
  { destruct b as [b|]; [apply triple_ret; exact I|].
    destruct tb; [|apply triple_ret; exact I].
    eapply triple_bind with (Q' := fun _ => True); [apply sum_2d_dim_0_triple; auto|].
    intros; apply triple_ret; exact I. }
  intros gb _.
  eapply triple_bind with (Q' := fun _ => True); [apply triple_lift; auto|].
  intros; apply triple_ret; exact I.
Qed.

(** Without an activation gradient the call allocates no buffer and
    launches no kernel, whatever its other arguments and whether or not
    it succeeds; and it is the call with any other [act_in] and any
    other content of fresh memory, which it does not read. *)
Theorem no_activation_no_kernel (grad_out inputs : tensor F) (act_in : option (tensor F))
    (weight : tensor F) (tw tb : bool) :
  Forall (fun e => is_activation_event e = false)
    (trace (fused_matmul_backward uninit grad_out inputs act_in weight tw tb None)) /\
  forall (uninit' : nat -> F) (act_in' : option (tensor F)),
    fused_matmul_backward uninit' grad_out inputs act_in' weight tw tb None
    = fused_matmul_backward uninit grad_out inputs act_in weight tw tb None.
Proof.
  split; [|reflexivity].
  apply (fused_matmul_backward_events grad_out inputs act_in weight tw tb None
           (fun e => is_activation_event e = false)); try reflexivity.
  intros E. contradiction.
Qed.

Lemma sum_2d_dim_0_Ok (x b : tensor F) :
  outcome (sum_2d_dim_0 x) = Ok b -> exists R C, shape x = [R; C] /\ shape b = [C].
Proof.
  unfold sum_2d_dim_0. intros E. bind_inv E u Hu.
  destruct (shape x) as [|R [|C [|? ?]]]; try discriminate.
  cbn in E. inversion E. eauto.
Qed.

Lemma activation_stage_Ok (grad_out grad_out_ : tensor F) (act_in : option (tensor F))
    (M N : nat) (tb : bool) (f : F -> F) (g : tensor F) (b : option (tensor F)) :
  outcome (activation_stage uninit grad_out grad_out_ act_in M N tb f) = Ok (g, b) ->
  shape g = shape grad_out_ /\ 1 <= M /\
  if tb then exists t, b = Some t /\ shape t = [N] else b = None.
Proof.
  unfold activation_stage. intros E.
  bind_inv E grad_act Hga. bind_inv E grad_bias Hgb.
  bind_inv E sg Hsg. bind_inv E sa Hsa. bind_inv E sb Hsb.
  bind_inv E r Hl. destruct r as [ga gb].
  bind_inv E b' Hb. cbn in E. inversion E; subst. cbn [shape].
  split; [|split].
  - unfold empty_like in Hga. cbn in Hga. inversion Hga. reflexivity.
  - unfold launch_kernel_bw_act in Hl. bind_inv Hl gm Hgm.
    unfold cdiv in Hgm. destruct M as [|M']; [|lia].
    rewrite choose_BLOCK_M_zero in Hgm. discriminate.
  - destruct tb.
    + bind_inv Hgb gm Hgm. unfold zeros in Hgb. cbn in Hgb. inversion Hgb; subst grad_bias.
      bind_inv Hb t Ht. cbn in Hb. inversion Hb; subst b.
      apply sum_2d_dim_0_Ok in Ht as (R & C & Hs & Ht). cbn [shape] in Hs.
      inversion Hs; subst. eauto.
    + cbn in Hb. inversion Hb. reflexivity.
Qed.

Lemma as_2d_shape (t t2 : tensor F) (M N : nat) :
  as_2d t = Ok t2 -> shape t2 = [M; N] ->
  shape t = [M; N] \/ exists B S, shape t = [B; S; N] /\ M = B * S.
Proof.
  destruct t as [shp d c]. unfold as_2d, ndim, flatten01. cbn [shape data is_contiguous].
  destruct shp as [|d0 [|d1 [|d2 [|d3 rest]]]]; cbn; intros E Hs;
    inversion E; subst t2; cbn in Hs; inversion Hs; subst; eauto.
Qed.

Lemma as_2d_ndim (t t2 : tensor F) :
  as_2d t = Ok t2 ->
  2 <= length (shape t2) /\ (ndim t <= 3 -> length (shape t2) = 2).
Proof.
  destruct t as [shp d c]. unfold as_2d, ndim, flatten01. cbn [shape data is_contiguous].
  destruct shp as [|d0 [|d1 [|d2 [|d3 rest]]]]; cbn; intros E;
    inversion E; subst t2; cbn; lia.
Qed.

Lemma split_last2_app (shp batch : list nat) (r c : nat) :
  split_last2 shp = Some (batch, r, c) -> shp = batch ++ [r; c].
Proof.
  revert batch. induction shp as [|d rest IH]; intros batch E; [discriminate|].
  cbn [split_last2] in E. destruct rest as [|c' [|c'' rest']]; [discriminate| |].
  - inversion E; subst. reflexivity.
  - destruct (split_last2 (c' :: c'' :: rest')) as [[[b r'] c0]|] eqn:Es;
      cbn in E; [|discriminate].
    inversion E; subst. rewrite (IH b eq_refl). reflexivity.
Qed.

(** The shape of [a @ b] for an [R x C] matrix [a] and a [b] of two or
    more dimensions: the last two dimensions of [b] are [C x K], and the
    product has [R x K] in their place. *)
Lemma torch_matmul_Ok (a b w : tensor F) (R C : nat) :
  shape a = [R; C] -> 2 <= length (shape b) -> torch_matmul a b = Ok w ->
  exists batch K, shape b = batch ++ [C; K] /\ shape w = batch ++ [R; K].
Proof.
  intros Ha Hb E. unfold torch_matmul in E. rewrite Ha in E.
  destruct (shape b) as [|d0 [|d1 [|d2 rest]]] eqn:Hs; cbn in Hb; try lia.
  - unfold matmul in E. rewrite Ha, Hs in E.
    destruct (Nat.eqb_spec C d0) as [<-|]; [|discriminate].
    inversion E. exists [], d1. split; reflexivity.
  - destruct (split_last2 (d0 :: d1 :: d2 :: rest)) as [[[batch N'] K]|] eqn:Es;
      [|discriminate].
    destruct (Nat.eqb_spec C N') as [<-|]; [|discriminate].
    inversion E. apply split_last2_app in Es. exists batch, K.
    split; [exact Es|reflexivity].
Qed.

Lemma weight_stage_Ok (g inputs w : tensor F) (M N : nat) :
  shape g = [M; N] -> outcome (weight_stage g inputs) = Ok w ->
  exists inputs_ batch K',
    as_2d inputs = Ok inputs_ /\ shape inputs_ = batch ++ [M; K'] /\
    shape w = batch ++ [N; K'] /\ (ndim inputs <= 3 -> batch = []).
Proof.
  intros Hg Hw. unfold weight_stage in Hw.
  bind_inv Hw inputs_ Hin. bind_inv Hw u' Hu. bind_inv Hw t Ht.
  unfold transpose01 in Ht. rewrite Hg in Ht. inversion Ht; subst t. clear Ht.
  destruct (as_2d_ndim inputs inputs_ Hin) as [Hn2 Hn3].
  set (t := mkTensor [N; M] _ false) in Hw.
  assert (Hw' : torch_matmul t inputs_ = Ok w).
  { destruct (torch_matmul t inputs_); cbn in Hw; [exact Hw|discriminate]. }
  destruct (torch_matmul_Ok t inputs_ w N M eq_refl Hn2 Hw') as (batch & K' & Hsi & Hsw).
  exists inputs_, batch, K'. split; [exact Hin|]. split; [exact Hsi|]. split; [exact Hsw|].
  intros H3. specialize (Hn3 H3). rewrite Hsi, length_app in Hn3. cbn in Hn3.
  destruct batch; [reflexivity|cbn in Hn3; lia].
Qed.

(** A call that returns was given consistent dimensions: a gradient of
    two or of three dimensions, [M x N] once flattened, a weight of
    shape [N x K], a layer input of [M * K] elements and, with an
    activation gradient, at least one row.  When the weight gradient is
    asked for, the flattened layer input is one matrix of [M] rows, or,
    for a layer input of four or more dimensions, a batch of matrices
    of [M] rows each.  On any other arguments the call raises. *)
Theorem a_call_that_returns_had_consistent_shapes (grad_out inputs : tensor F)
    (act_in : option (tensor F)) (weight : tensor F) (tw tb : bool) (act : option (F -> F))
    (r : tensor F * option (tensor F) * option (tensor F)) :
  outcome (fused_matmul_backward uninit grad_out inputs act_in weight tw tb act) = Ok r ->
  exists M N K,
    (shape grad_out = [M; N] \/ exists B S, shape grad_out = [B; S; N] /\ M = B * S) /\
    shape weight = [N; K] /\
    numel (shape inputs) = M * K /\
    (act <> None -> 1 <= M) /\
    (tw = true ->
     exists inputs_ batch K',
       as_2d inputs = Ok inputs_ /\ shape inputs_ = batch ++ [M; K'] /\
       (ndim inputs <= 3 -> batch = [])).
Proof.
  unfold fused_matmul_backward. intros E.
  bind_inv E go Hgo.
  assert (Hshape : shape go = shape grad_out).
  { destruct (is_contiguous grad_out); cbn in Hgo; inversion Hgo; reflexivity. }
  clear Hgo.
  bind_inv E go2 Hgo2. bind_inv E go1 Hgo1. bind_inv E w0 Hw0.
  bind_inv E u Hassert. bind_inv E MN HMN. destruct MN as [M N0].
  bind_inv E NK HNK. destruct NK as [N K].
  bind_inv E gb Hact. destruct gb as [g b].
  bind_inv E gw Hgw. bind_inv E gi Hgi. bind_inv E gbias Hgb. bind_inv E ri Hri.
  (* the shapes of the gradient and of the weight *)
  unfold unpack2 in HMN, HNK.
  destruct (shape go2) as [|m [|n0 [|? ?]]] eqn:Hs2; try discriminate.
  inversion HMN; subst m n0. clear HMN.
  destruct (shape weight) as [|n [|k [|? ?]]] eqn:Hsw; try discriminate.
  inversion HNK; subst n k. clear HNK.
  unfold shape_at in Hgo1, Hw0. rewrite Hs2 in Hgo1. rewrite Hsw in Hw0.
  cbn in Hgo1, Hw0. inversion Hgo1; inversion Hw0; subst go1 w0.
  unfold py_assert in Hassert. destruct (Nat.eqb_spec N0 N) as [->|]; [|discriminate].
  (* the gradient that reaches the products has the shape [M; N] *)
  assert (Hg : shape g = [M; N] /\ (act <> None -> 1 <= M)).
  { destruct act as [f|].
    - apply activation_stage_Ok in Hact as (Hg & HM & _). rewrite Hg, Hs2. auto.
    - cbn in Hact. inversion Hact; subst. split; [exact Hs2|congruence]. }
  destruct Hg as [Hg HM].
  exists M, N, K. split; [|split; [reflexivity|split; [|split; [exact HM|]]]].
  - rewrite <- Hshape. exact (as_2d_shape go go2 M N Hgo2 Hs2).
  - unfold triton_ops_matmul in Hgi. bind_inv Hgi u' Hu. cbn in Hgi.
    unfold matmul in Hgi. rewrite Hg, Hsw, Nat.eqb_refl in Hgi. inversion Hgi; subst gi.
    unfold reshape_as in Hri. cbn [shape] in Hri.
    destruct (Nat.eqb_spec (numel [M; K]) (numel (shape inputs))) as [En|]; [|discriminate].
    rewrite <- En. simpl. lia.
  - intros ->. bind_inv Hgw w Hw.
    destruct (weight_stage_Ok g inputs w M N Hg Hw) as (inputs_ & batch & K' & Hin & Hsi & _ & Hb).
    exists inputs_, batch, K'. auto.
Qed.

(** The shapes of what a call returns: the input gradient has the shape
    of the layer input; the bias gradient, when asked for, has [N]
    entries; the weight gradient, when asked for, has the shape of the
    flattened layer input with [N] in the place of its number of rows:
    [N x K'] for a layer input of two or three dimensions, and a batch
    of [N x K'] matrices for one of four or more, which is flattened to
    a batch of matrices that [@] multiplies one by one. *)
Theorem the_gradients_have_these_shapes (grad_out inputs : tensor F)
    (act_in : option (tensor F)) (weight : tensor F) (tw tb : bool) (act : option (F -> F))
    (gi : tensor F) (gw gb : option (tensor F)) :
  outcome (fused_matmul_backward uninit grad_out inputs act_in weight tw tb act)
  = Ok (gi, gw, gb) ->
  exists N K,
    shape weight = [N; K] /\
    shape gi = shape inputs /\
    (if tw
     then exists w inputs_ batch M K',
            gw = Some w /\ as_2d inputs = Ok inputs_ /\
            shape inputs_ = batch ++ [M; K'] /\ shape w = batch ++ [N; K'] /\
            (ndim inputs <= 3 -> batch = [])
     else gw = None) /\
    (if tb then exists b, gb = Some b /\ shape b = [N] else gb = None).
Proof.
  unfold fused_matmul_backward. intros E.
  bind_inv E go Hgo. clear Hgo.
  bind_inv E go2 Hgo2. bind_inv E go1 Hgo1. bind_inv E w0 Hw0.
  bind_inv E u Hassert. bind_inv E MN HMN. destruct MN as [M N0].
  bind_inv E NK HNK. destruct NK as [N K].
  bind_inv E gb' Hact. destruct gb' as [g b].
  bind_inv E gw' Hgw. bind_inv E gi' Hgi. bind_inv E gbias Hgb. bind_inv E ri Hri.
  cbn in E. inversion E; subst gi gw gb. clear E.
  unfold unpack2 in HMN, HNK.
  destruct (shape go2) as [|m [|n0 [|? ?]]] eqn:Hs2; try discriminate.
  inversion HMN; subst m n0. clear HMN.
  destruct (shape weight) as [|n [|k [|? ?]]] eqn:Hsw; try discriminate.
  inversion HNK; subst n k. clear HNK.
  unfold shape_at in Hgo1, Hw0. rewrite Hs2 in Hgo1. rewrite Hsw in Hw0.
  cbn in Hgo1, Hw0. inversion Hgo1; inversion Hw0; subst go1 w0.
  unfold py_assert in Hassert. destruct (Nat.eqb_spec N0 N) as [->|]; [|discriminate].
  assert (Hg : shape g = [M; N] /\
               (if tb then act = None \/ exists t, b = Some t /\ shape t = [N] else b = None) /\
               (act = None -> b = None)).
  { destruct act as [f|].
    - apply activation_stage_Ok in Hact as (Hg & _ & Hb). rewrite Hg, Hs2.
      split; [reflexivity|]. split; [|discriminate]. destruct tb; [right|]; exact Hb.
    - cbn in Hact. inversion Hact; subst. split; [exact Hs2|].
      split; [destruct tb; auto|reflexivity]. }
  destruct Hg as (Hg & Hb & Hnone).
  exists N, K. split; [reflexivity|]. split; [|split].
  - unfold reshape_as in Hri. destruct (_ =? _); inversion Hri. reflexivity.
  - destruct tw; [|cbn in Hgw; inversion Hgw; reflexivity].
    bind_inv Hgw w Hw. cbn in Hgw. inversion Hgw; subst gw'.
    destruct (weight_stage_Ok g inputs w M N Hg Hw)
      as (inputs_ & batch & K' & Hin & Hsi & Hsw' & Hbatch).
    exists w, inputs_, batch, M, K'. auto.
  - destruct tb.
    + destruct Hb as [->|(t & -> & Ht)].
      * rewrite (Hnone eq_refl) in Hgb. bind_inv Hgb t Ht. cbn in Hgb.
        inversion Hgb; subst gbias.
        apply sum_2d_dim_0_Ok in Ht as (R & C & Hs & Ht). rewrite Hg in Hs.
        inversion Hs; subst. eauto.
      * cbn in Hgb. inversion Hgb; subst gbias. eauto.
    + subst b. cbn in Hgb. inversion Hgb. reflexivity.
Qed.

(** The pre-activation input is not flattened: handed a [B x S x N]
    tensor beside a [B x S x N] gradient, with more than one position
    per sequence, the kernel strides through it by [S * N] elements for
    every row of the flattened gradient and reads past its end.  Only a
    two-dimensional [act_in] can be used. *)
Theorem an_unflattened_act_in_is_read_out_of_bounds (grad_out inputs act_in weight : tensor F)
    (tw tb : bool) (f : F -> F) (B S N K : nat) :
  shape grad_out = [B; S; N] -> shape act_in = [B; S; N] -> wf act_in ->
  shape weight = [N; K] ->
  1 <= B -> 2 <= S -> 1 <= N ->
  outcome (fused_matmul_backward uninit grad_out inputs (Some act_in) weight tw tb (Some f))
  = Err IllegalMemoryAccess.
Proof.
  intros Hgs Has Haw Hws HB HS HN.
  assert (HM : 2 <= B * S) by nia.
  pose proof (choose_BLOCK_M_pos (B * S) ltac:(lia)) as HBM.
  assert (Hlaunch : forall ga gb GO sg sb cdb,
            launch_kernel_bw_act ga gb GO (data act_in) (B * S) N sg (S * (N * 1)) sb f cdb
              (choose_BLOCK_M (B * S)) 16
            = (trace (launch_kernel_bw_act ga gb GO (data act_in) (B * S) N sg (S * (N * 1))
                        sb f cdb (choose_BLOCK_M (B * S)) 16),
               Err IllegalMemoryAccess)).
  { intros. rewrite <- (launch_reads_past_act_inputs ga gb GO (data act_in) (B * S) N sg
                          (S * (N * 1)) sb f cdb (choose_BLOCK_M (B * S)) 16);
      try lia.
    - destruct (launch_kernel_bw_act _ _ _ _ _ _ _ _ _ _ _ _ _); reflexivity.
    - rewrite Haw, Has. cbn [numel foldr]. apply unflattened_row_stride; lia. }
  unfold fused_matmul_backward.
  assert (Hstart : (if is_contiguous grad_out then mret grad_out else contiguous grad_out)
                   = ((if is_contiguous grad_out then [] else [EvContiguousCopy]),
                      Ok (mkTensor [B; S; N] (data grad_out) true))).
  { destruct grad_out as [gs gd []]; cbn in *; subst; reflexivity. }
  rewrite Hstart. clear Hstart.
  unfold as_2d, ndim, flatten01, shape_at, activation_stage, empty_like, zeros, cdiv, stride0.
  rewrite Hws, Has.
  assert (Hz : (choose_BLOCK_M (B * S) =? 0) = false) by (apply Nat.eqb_neq; lia).
  cbn [mbind host_mbind host_bind lift shape data is_contiguous length Nat.eqb lookup
       list_lookup unpack2 app py_assert mret host_mret host_ret emit numel foldr].
  rewrite Nat.eqb_refl.
  cbn [mbind host_mbind host_bind lift shape data is_contiguous length Nat.eqb lookup
       list_lookup unpack2 app py_assert mret host_mret host_ret emit numel foldr].
  destruct tb; rewrite ?Hz;
    cbn [mbind host_mbind host_bind lift shape data is_contiguous length Nat.eqb lookup
         list_lookup unpack2 app py_assert mret host_mret host_ret emit numel foldr];
    rewrite Hlaunch; reflexivity.
Qed.

End Host.

Section Order.

Context {F : Type} `{ScalarLaws F}.
Variable uninit : nat -> F.

(** The stages of a call on tensors of consistent shapes run in this
    order and once each: the copy of a gradient that is not contiguous;
    with an activation gradient, the allocation of [grad_act], of the
    partial bias sums if the bias is trainable, one launch of
    [kernel_bw_act] over the grid [(cdiv(M, BLOCK_M), cdiv(N, 16))] and
    the reduction of the partial sums; the product for the weight
    gradient if the weight is trainable; the product for the input
    gradient; and, without an activation gradient, the reduction for a
    trainable bias. *)
Theorem the_stages_run_in_order (grad_out inputs : tensor F) (act_in : option (tensor F))
    (weight : tensor F) (tw tb : bool) (act : option (F -> F))
    (grad_out_ inputs_ : tensor F) (M N K : nat) :
  as_2d grad_out = Ok grad_out_ -> shape grad_out_ = [M; N] -> wf grad_out ->
  as_2d inputs = Ok inputs_ -> shape inputs_ = [M; K] ->
  shape weight = [N; K] ->
  (act <> None -> act_in_ok act_in M N /\ 1 <= M) ->
  let BLOCK_M := choose_BLOCK_M M in
  let grid := ((M + BLOCK_M - 1) / BLOCK_M, (N + 16 - 1) / 16) in
  trace (fused_matmul_backward uninit grad_out inputs act_in weight tw tb act) =
  (if is_contiguous grad_out then [] else [EvContiguousCopy]) ++
  match act with
  | Some _ =>
      [EvEmptyLike [M; N]] ++ (if tb then [EvZeros [fst grid; N]] else []) ++
      [EvKernelBwAct grid tb] ++ (if tb then [EvSum2dDim0] else [])
  | None => []
  end ++
  (if tw then [EvMatmulTranspose] else []) ++ [EvTritonMatmul] ++
  match act with
  | Some _ => []
  | None => if tb then [EvSum2dDim0] else []
  end.
Proof.
  intros Hg Hgs Hgw Hi His Hws Hact BLOCK_M grid.
  rewrite (fused_matmul_backward_run uninit grad_out inputs act_in weight tw tb act
             grad_out_ inputs_ M N K) by assumption.
  unfold expected_trace. cbn [trace fst].
  destruct act as [f|].
  - rewrite bool_decide_eq_true_2 by discriminate. reflexivity.
  - rewrite bool_decide_eq_false_2 by (intros E; apply E; reflexivity). reflexivity.
Qed.

End Order.

(** ** The properties on sample inputs *)

Lemma block_size_is_a_power_of_two_witness :
  exists k, k <= 11 /\ choose_BLOCK_M 3 = 2 ^ k /\
            Nat.min 3 2048 <= choose_BLOCK_M 3 /\ choose_BLOCK_M 3 < 2 * 3 /\
            forall j, 3 <= 2 ^ j -> choose_BLOCK_M 3 <= 2 ^ j.
Proof. apply (block_size_is_a_power_of_two 3). lia. Defined.

Lemma one_row_of_programs_up_to_2048_witness : cdiv 3 (choose_BLOCK_M 3) = Ok 1.
Proof. apply (one_row_of_programs_up_to_2048 3). lia. Defined.

Lemma grid_is_the_programs_with_a_tile_witness :
  In (1, 0) (program_ids (2, 1)) <-> 1 * 2 < 3 /\ 0 * 16 < 2.
Proof. apply (grid_is_the_programs_with_a_tile 3 2 2 16 2 1); reflexivity. Defined.

Lemma fast_path_of_the_host_launch_witness :
  EVEN_BLOCKS_heuristic 4 16 (choose_BLOCK_M 4) 16 = Ok true.
Proof.
  apply (fast_path_of_the_host_launch 4 16); [lia|].
  split; [exists 2; reflexivity|reflexivity].
Defined.

(** The program [(1, 0)] of a launch on three rows, with two rows to a
    tile, leaves the first row as it was. *)
Lemma a_program_writes_only_its_tile_witness :
  kernel_bw_act (map ex_uninit (seq 0 6)) (replicate 4 0%Z) (data ex_grad_out)
    (data ex_act_in) 3 2 2 2 2 2 16 false ex_relu_grad true 1 0
  = Some ([77; 77; 77; 77; 5; 0]%Z, [0; 0; 5; 0]%Z) /\
  ([77; 77; 77; 77; 5; 0]%Z : list Z) !! (0 * 2 + 1) = map ex_uninit (seq 0 6) !! (0 * 2 + 1).
Proof.
  assert (E : kernel_bw_act (map ex_uninit (seq 0 6)) (replicate 4 0%Z) (data ex_grad_out)
                (data ex_act_in) 3 2 2 2 2 2 16 false ex_relu_grad true 1 0
              = Some ([77; 77; 77; 77; 5; 0]%Z, [0; 0; 5; 0]%Z)) by reflexivity.
  split; [exact E|].
  destruct (a_program_writes_only_its_tile (map ex_uninit (seq 0 6)) (replicate 4 0%Z)
              (data ex_grad_out) (data ex_act_in) 3 2 2 2 16 false ex_relu_grad true 1 0
              [77; 77; 77; 77; 5; 0]%Z [0; 0; 5; 0]%Z E ltac:(discriminate))
    as (Hga & _).
  apply Hga; [lia|]. left. cbn. lia.
Defined.

Lemma fast_path_needs_even_blocks_witness :
  is_Some (run_programs
             (fun a b => kernel_bw_act a b [1; 2]%Z [1; -1]%Z 2 1 1 1 1 2 1 true
                           ex_relu_grad true)
             (program_ids ((2 + 2 - 1) / 2, (1 + 1 - 1) / 1)) [0; 0]%Z [0]%Z).
Proof.
  apply (fast_path_needs_even_blocks [0; 0]%Z [0]%Z [1; 2]%Z [1; -1]%Z 2 1 2 1
           ex_relu_grad true); try reflexivity; try lia.
  split; reflexivity.
Defined.

Lemma a_launch_overwrites_its_outputs_witness :
  exists ga' gb',
    outcome (launch_kernel_bw_act (map ex_uninit (seq 0 6)) (replicate 4 0%Z)
               (data ex_grad_out) (data ex_act_in) 3 2 2 2 2 ex_relu_grad true 2 16)
    = Ok (ga', gb') /\
    launch_kernel_bw_act ga' gb' (data ex_grad_out) (data ex_act_in) 3 2 2 2 2
      ex_relu_grad true 2 16
    = launch_kernel_bw_act (map ex_uninit (seq 0 6)) (replicate 4 0%Z)
        (data ex_grad_out) (data ex_act_in) 3 2 2 2 2 ex_relu_grad true 2 16.
Proof.
  destruct (a_launch_overwrites_its_outputs (map ex_uninit (seq 0 6)) (replicate 4 0%Z)
              (data ex_grad_out) (data ex_act_in) 3 2 2 16 ex_relu_grad true)
    as (ga' & gb' & Ho & Hre & _); try reflexivity; try lia.
  exists ga', gb'. split; [exact Ho|exact Hre].
Defined.

Lemma grouped_programs_cover_each_tile_once_witness :
  exists pid, pid < 6 /\ kernel_matmul_transpose_tile 3 2 1 1 2 pid = Some (2, 1).
Proof.
  destruct (grouped_programs_cover_each_tile_once 3 2 1 1 2 6 ltac:(lia) eq_refl)
    as (_ & Hs & _).
  apply Hs; cbn; lia.
Defined.

(** A gradient of shape [2, 2] and a layer input of shape [2, 1], in
    tiles of one row and sixteen columns. *)
Lemma the_tiled_weight_gradient_is_the_dense_one_witness :
  exists w,
    outcome (weight_stage (mkTensor [2; 2] [1; 2; 3; 4]%Z true)
               (mkTensor [2; 1] [5; 6]%Z true)) = Ok w /\
    launch_kernel_matmul_transpose [0; 0]%Z [1; 2; 3; 4]%Z [5; 6]%Z 2 2 1 1 2 1 1 16 8 16
    = Ok (data w) /\
    data w = [23; 34]%Z.
Proof.
  destruct (the_tiled_weight_gradient_is_the_dense_one
              (mkTensor [2; 2] [1; 2; 3; 4]%Z true) (mkTensor [2; 1] [5; 6]%Z true)
              (mkTensor [2; 1] [5; 6]%Z true) [0; 0]%Z 2 2 1 1 16 16 8)
    as (w & Hw & _ & Hl & _); try reflexivity; try lia.
  exists w. split; [exact Hw|]. split; [exact Hl|].
  cbn in Hw. inversion Hw. reflexivity.
Defined.

(** Three rows in tiles of two. *)
Lemma the_mask_of_b_lets_rows_past_the_end_through_witness :
  launch_kernel_matmul_transpose [0; 0]%Z [1; 2; 3; 4; 5; 6]%Z [5; 6; 7]%Z 3 2 1 1 2 1
    2 16 8 16
  = Err IllegalMemoryAccess.
Proof.
  apply (the_mask_of_b_lets_rows_past_the_end_through [0; 0]%Z [1; 2; 3; 4; 5; 6]%Z
           [5; 6; 7]%Z 3 2 1 2 16 16 8); try reflexivity; try lia.
  discriminate.
Defined.

Lemma a_call_that_returns_had_consistent_shapes_witness :
  exists M N K,
    (shape ex_grad_out = [M; N] \/ exists B S, shape ex_grad_out = [B; S; N] /\ M = B * S) /\
    shape ex_weight = [N; K] /\
    numel (shape ex_inputs) = M * K /\
    (Some ex_relu_grad <> None -> 1 <= M) /\
    (true = true ->
     exists inputs_ batch K',
       as_2d ex_inputs = Ok inputs_ /\ shape inputs_ = batch ++ [M; K'] /\
       (ndim ex_inputs <= 3 -> batch = [])).
Proof.
  exact (a_call_that_returns_had_consistent_shapes ex_uninit ex_grad_out ex_inputs
           (Some ex_act_in) ex_weight true true (Some ex_relu_grad)
           (mkTensor [3; 1; 2] [1; 2; 12; 16; 5; 10]%Z true,
            Some (mkTensor [2; 2] [16; 16; 8; 8]%Z true),
            Some (mkTensor [2] [6; 4]%Z true))
           eq_refl).
Defined.

(** A gradient of shape [2, 1], a weight of shape [1, 6] and a layer
    input of shape [1, 3, 2, 2]: the flattened layer input is a batch of
    three [2 x 2] matrices, and the weight gradient has the shape
    [3, 1, 2]. *)
Lemma the_gradients_have_these_shapes_witness :
  exists N K,
    shape (mkTensor [1; 6] [1; 2; 3; 4; 5; 6]%Z true) = [N; K] /\
    shape (mkTensor [1; 3; 2; 2] [1; 2; 3; 4; 5; 6; 2; 4; 6; 8; 10; 12]%Z true)
    = [1; 3; 2; 2] /\
    (exists w inputs_ batch M K',
       Some (mkTensor [3; 1; 2] [4; 7; 16; 19; 28; 31]%Z true) = Some w /\
       as_2d (mkTensor [1; 3; 2; 2] [0; 1; 2; 3; 4; 5; 6; 7; 8; 9; 10; 11]%Z true)
       = Ok inputs_ /\
       shape inputs_ = batch ++ [M; K'] /\ shape w = batch ++ [N; K'] /\
       (4 <= 3 -> batch = [])) /\
    (exists b, Some (mkTensor [1] [3]%Z true) = Some b /\ shape b = [N]).
Proof.
  exact (the_gradients_have_these_shapes ex_uninit
           (mkTensor [2; 1] [1; 2]%Z true)
           (mkTensor [1; 3; 2; 2] [0; 1; 2; 3; 4; 5; 6; 7; 8; 9; 10; 11]%Z true)
           None (mkTensor [1; 6] [1; 2; 3; 4; 5; 6]%Z true) true true None
           (mkTensor [1; 3; 2; 2] [1; 2; 3; 4; 5; 6; 2; 4; 6; 8; 10; 12]%Z true)
           (Some (mkTensor [3; 1; 2] [4; 7; 16; 19; 28; 31]%Z true))
           (Some (mkTensor [1] [3]%Z true))
           eq_refl).
Defined.

(** A gradient and a pre-activation input of shape [1, 2, 1]. *)
Lemma an_unflattened_act_in_is_read_out_of_bounds_witness :
  outcome (fused_matmul_backward ex_uninit (mkTensor [1; 2; 1] [1; 2]%Z true)
             (mkTensor [1; 2; 1] [1; 1]%Z true) (Some (mkTensor [1; 2; 1] [1; -1]%Z true))
             (mkTensor [1; 1] [1]%Z true) true true (Some ex_relu_grad))
  = Err IllegalMemoryAccess.
Proof.
  apply (an_unflattened_act_in_is_read_out_of_bounds ex_uninit
           (mkTensor [1; 2; 1] [1; 2]%Z true) (mkTensor [1; 2; 1] [1; 1]%Z true)
           (mkTensor [1; 2; 1] [1; -1]%Z true) (mkTensor [1; 1] [1]%Z true)
           true true ex_relu_grad 1 2 1 1); try reflexivity; lia.
Defined.

Lemma the_stages_run_in_order_witness :
  trace (fused_matmul_backward ex_uninit ex_grad_out ex_inputs (Some ex_act_in) ex_weight
           true true (Some ex_relu_grad))
  = [EvEmptyLike [3; 2]; EvZeros [1; 2]; EvKernelBwAct (1, 1) true; EvSum2dDim0;
     EvMatmulTranspose; EvTritonMatmul].
Proof.
  apply (the_stages_run_in_order ex_uninit ex_grad_out ex_inputs (Some ex_act_in) ex_weight
           true true (Some ex_relu_grad) ex_grad_out ex_inputs_2d 3 2 2);
    try reflexivity.
  intros _. split; [repeat split|lia].
Defined.

End FusedBackwardProperties.

(** * Properties of the inputs of the attention tests *)

Module TestInputProperties.
Import Attention AttentionProofs TestInputs.

Local Open Scope R_scope.

Lemma sum_R_app (l1 l2 : list R) : sum_R (l1 ++ l2) = sum_R l1 + sum_R l2.
Proof.
  induction l1 as [|x l1 IH]; simpl; [lra|]. unfold sum_R in *. simpl. rewrite IH. lra.
Qed.

Lemma dot_zero_r (x : vec) (n : nat) : dot x (replicate n 0) = 0.
Proof.
  unfold dot. revert n. induction x as [|a x IH]; intros [|n]; simpl; try reflexivity.
  unfold sum_R in *. simpl. rewrite (IH n). lra.
Qed.

Lemma dot_zero_l (y : vec) (n : nat) : dot (replicate n 0) y = 0.
Proof.
  unfold dot. revert n. induction y as [|a y IH]; intros [|n]; simpl; try reflexivity.
  unfold sum_R in *. simpl. rewrite (IH n). lra.
Qed.

Lemma dot_app (x1 x2 y1 y2 : vec) :
  length x1 = length y1 -> dot (x1 ++ x2) (y1 ++ y2) = dot x1 y1 + dot x2 y2.
Proof.
  intros Hl. unfold dot. rewrite zip_with_app by exact Hl. apply sum_R_app.
Qed.

(** The query and the key that [test_kqv_ordering] and [test_inproj]
    build are complementary: whatever the random rows, every query
    position has similarity zero with every key position, in every pair
    of batch elements ([QKt] is all zero). *)
Theorem complementary_q_and_k_have_no_similarity (BATCH SEQ MODEL : nat)
    (rand_q rand_k : vec) :
  length rand_q = (MODEL / 2)%nat ->
  forall qs ks q k,
    In qs (complementary_q BATCH SEQ MODEL rand_q) -> In q qs ->
    In ks (complementary_k BATCH SEQ MODEL rand_k) -> In k ks ->
    dot q k = 0.
Proof.
  intros Hl qs ks q k Hqs Hq Hks Hk.
  unfold complementary_q, complementary_k, cat_expand in *.
  apply list_elem_of_In, elem_of_replicate in Hqs as [-> _].
  apply list_elem_of_In, elem_of_replicate in Hq as [-> _].
  apply list_elem_of_In, elem_of_replicate in Hks as [-> _].
  apply list_elem_of_In, elem_of_replicate in Hk as [-> _].
  rewrite dot_app by (rewrite length_replicate; exact Hl).
  rewrite dot_zero_r, dot_zero_l. lra.
Qed.

Lemma zip_with_map_seq (f g : nat -> R) (l : list nat) :
  zip_with Rmult (map f l) (map g l) = map (fun p => f p * g p) l.
Proof. induction l as [|x l IH]; simpl; [reflexivity|]. rewrite IH. reflexivity. Qed.

(** The number of positions [p < n] with [i <= p <= j]. *)
Lemma sum_R_interval (i j n : nat) :
  sum_R (map (fun p => (if (i <=? p)%nat then 1 else 0) * (if (p <=? j)%nat then 1 else 0))
             (seq 0 n))
  = INR (Nat.min n (S j) - i).
Proof.
  induction n as [|n IH]; [reflexivity|].
  rewrite seq_S, map_app, sum_R_app, IH. cbn [map sum_R fold_right Nat.add].
  destruct (Nat.leb_spec i n) as [Hi|Hi]; destruct (Nat.leb_spec n j) as [Hj|Hj].
  - replace (Nat.min (S n) (S j) - i)%nat with (S (Nat.min n (S j) - i)) by lia.
    rewrite S_INR. lra.
  - replace (Nat.min (S n) (S j) - i)%nat with (Nat.min n (S j) - i)%nat by lia. lra.
  - replace (Nat.min (S n) (S j) - i)%nat with (Nat.min n (S j) - i)%nat by lia. lra.
  - replace (Nat.min (S n) (S j) - i)%nat with (Nat.min n (S j) - i)%nat by lia. lra.
Qed.

(** The data of [test_causal] is orthogonal by design: the query at
    position [i] (row [i] of the upper triangle of ones) and the key at
    position [j] (row [j] of the lower triangle) have similarity
    [j + 1 - i], which is zero for every earlier key and one for the
    key at the position of the query. *)
Theorem causal_test_data_is_orthogonal_to_the_past (n i j : nat) :
  (i < n)%nat -> (j < n)%nat ->
  dot (nth i (triu_ones n) []) (nth j (tril_ones n) []) = INR (S j - i) /\
  ((j < i)%nat -> dot (nth i (triu_ones n) []) (nth j (tril_ones n) []) = 0) /\
  dot (nth i (triu_ones n) []) (nth i (tril_ones n) []) = 1.
Proof.
  intros Hi Hj.
  assert (Hd : forall a b, (a < n)%nat -> (b < n)%nat ->
            dot (nth a (triu_ones n) []) (nth b (tril_ones n) []) = INR (S b - a)).
  { intros a b Ha Hb. unfold triu_ones, tril_ones.
    rewrite (nth_indep _ [] (map (fun p => if (a <=? p)%nat then 1 else 0) (seq 0 n)))
      by (rewrite length_map, length_seq; exact Ha).
    rewrite (nth_indep (map _ (seq 0 n)) []
               (map (fun p => if (p <=? b)%nat then 1 else 0) (seq 0 n)))
      by (rewrite length_map, length_seq; exact Hb).
    rewrite (map_nth (fun i0 => map (fun p => if (i0 <=? p)%nat then 1 else 0) (seq 0 n))).
    rewrite (map_nth (fun i0 => map (fun p => if (p <=? i0)%nat then 1 else 0) (seq 0 n))).
    rewrite !seq_nth by assumption. cbn [Nat.add].
    unfold dot. rewrite zip_with_map_seq, sum_R_interval.
    f_equal. lia. }
  split; [apply Hd; assumption|]. split.
  - intros Hlt. rewrite Hd by assumption. replace (S j - i)%nat with 0%nat by lia. reflexivity.
  - rewrite Hd by assumption. replace (S i - i)%nat with 1%nat by lia. reflexivity.
Qed.

(** On the modelled attention stack, the assertion of
    [test_different_kq_dimensions]: for a query of [seq_q] positions and
    a key and a value of [seq_kv] positions, in batches of the same
    size, [forward] succeeds and its output has the shape
    [B, seq_q, embedding], the sequence length of the query. *)
Theorem output_has_the_length_of_the_query (mh : MultiHeadDispatch)
    (query key value : Tensor) (B seq_q seq_kv E : nat) :
  well_formed mh E ->
  self_attention (in_proj_container mh) = false ->
  has_shape (val query) B seq_q E ->
  has_shape (val key) B seq_kv E ->
  has_shape (val value) B seq_kv E ->
  exists out, forward mh query key value = Ok out /\ has_shape out B seq_q E.
Proof.
  intros Hwf Hsa [Lq Fq] [Lk _] [Lv _].
  unfold forward, project. rewrite Hsa. cbn [andb].
  rewrite !length_map, Lq, Lk, Lv.
  assert (Hbc : broadcast_batch B B B = Ok B).
  { unfold broadcast_batch. rewrite !Nat.max_id, Nat.eqb_refl, orb_true_r. reflexivity. }
  rewrite Hbc.
  eexists. split; [reflexivity|]. split.
  - apply length_zip_with3; apply length_expand; rewrite length_map; lia.
  - apply (zip_with3_Forall _ (fun s : list vec => length s = seq_q)).
    + intros Q K V HQ. destruct (dispatch_heads_shape mh E Q K V Hwf) as [L F].
      split; [exact (eq_trans L HQ)|exact F].
    + apply expand_Forall, Forall_map.
      eapply Forall_impl; [exact Fq|]. intros s [Hs _]. cbn. rewrite length_map. exact Hs.
Qed.

(** ** The properties on sample inputs *)

Lemma complementary_q_and_k_have_no_similarity_witness : dot [3; 0] [0; 5] = 0.
Proof.
  apply (complementary_q_and_k_have_no_similarity 1 1 2 [3] [5] eq_refl
           [[3; 0]] [[0; 5]]); left; reflexivity.
Defined.

Lemma causal_test_data_is_orthogonal_to_the_past_witness :
  dot (nth 2 (triu_ones 3) []) (nth 0 (tril_ones 3) []) = 0.
Proof.
  destruct (causal_test_data_is_orthogonal_to_the_past 3 2 0 ltac:(lia) ltac:(lia))
    as (_ & H0 & _).
  apply H0. lia.
Defined.

(** A query of one position against a key and a value of two. *)
Lemma output_has_the_length_of_the_query_witness :
  exists out, forward (ex_multi_head dense false) (mkTensor3 4 [[[1]]]) ex_x ex_x = Ok out /\
              has_shape out 1 1 1.
Proof.
  apply (output_has_the_length_of_the_query (ex_multi_head dense false)
           (mkTensor3 4 [[[1]]]) ex_x ex_x 1 1 2 1).
  - repeat split.
  - reflexivity.
  - split; [reflexivity|]. repeat constructor.
  - split; [reflexivity|]. repeat constructor.
  - split; [reflexivity|]. repeat constructor.
Defined.

End TestInputProperties.
